(** * Localization stage of the traffic manager

    A shallow embedding of [LocalizationStage.cpp] (constructor aside):
    [Update], [RemoveActor], [Reset] and [AssignLaneChange], with the
    results that the specification of the stage states about them.

    Conventions of the embedding.
    - A [SimpleWaypointPtr] is a nullable handle: [option WaypointId].
      The road graph is an arena addressed by waypoint id.  A buffer holds
      waypoint ids: the stage fills the buffers through [PushWaypoint]
      only, which dereferences the pointer it pushes.
    - A [float]/[double] is a rational number ([Q]); rounding, infinities
      and NaN are outside the model. [std::numeric_limits<float>::infinity()]
      is [None] in an [option Q].
    - The stage is written in a state-and-fault monad over the objects the
      stage holds by reference ([buffer_map], [track_traffic],
      [output_array]) and its own members.  A fault is what C++ leaves
      undefined or throws: dereferencing a null pointer, [front()],
      [back()] or [pop] on an empty deque, [at()] out of range.
    - [while] loops whose trip count the code does not bound take fuel;
      running out of it is the fault [OutOfFuel]. *)

From Stdlib Require Import QArith Qround.
From stdpp Require Import gmap list.

(** ** Identifiers and geometry *)

Abbreviation ActorId := N (only parsing).
Abbreviation WaypointId := N (only parsing).
Abbreviation GeoGridId := N (only parsing).

Record Location := mkLoc { lx : Q; ly : Q; lz : Q }.
Abbreviation Vector3D := Location (only parsing).

Definition SQUARE (a : Q) : Q := (a * a)%Q.
Definition MIN (a b : Q) : Q := if Qle_bool a b then a else b.
Definition MAX (a b : Q) : Q := if Qle_bool a b then b else a.

(** [a < b], [a <= b], [a > b] on floats, as booleans. *)
Definition Qleb (a b : Q) : bool := Qle_bool a b.
Definition Qltb (a b : Q) : bool := negb (Qle_bool b a).
Definition Qgtb (a b : Q) : bool := Qltb b a.

(** [cg::Math::Clamp(a, min, max)] is [std::min(std::max(a, min), max)]. *)
Definition Clamp (a lo hi : Q) : Q := MIN (MAX a lo) hi.

Definition vsub (a b : Location) : Vector3D :=
  mkLoc (lx a - lx b)%Q (ly a - ly b)%Q (lz a - lz b)%Q.
Definition Dot (a b : Vector3D) : Q :=
  (lx a * lx b + ly a * ly b + lz a * lz b)%Q.
Definition DistanceSquared (a b : Location) : Q := Dot (vsub a b) (vsub a b).

(** ** Faults and the monad of the stage *)

Inductive Fault :=
| NullPointer      (* a null [SimpleWaypointPtr] is dereferenced *)
| EmptyContainer   (* [front()], [back()], [pop_*], [operator[]] on an empty container *)
| OutOfRange       (* [at()] throws [std::out_of_range] *)
| OutOfFuel.       (* the loop did not finish within the fuel given *)

Inductive Res (A : Type) :=
| Ok (a : A)
| Err (f : Fault).
Arguments Ok {A} a.
Arguments Err {A} f.

(** ** The collaborators the stage reads

    Everything below is read-only during [Update]; the stage holds it by
    const reference.  Waypoints live in the road graph and are addressed
    by id; the accessors are those of [SimpleWaypoint]. *)

Abbreviation SimpleWaypointPtr := (option WaypointId) (only parsing).
(* std::deque<SimpleWaypointPtr>, front first *)
Abbreviation Buffer := (list WaypointId) (only parsing).

Module SimpleWaypoint.
Record Graph := {
  GetLocation : WaypointId -> Location;
  GetForwardVector : WaypointId -> Vector3D;
  CheckJunction : WaypointId -> bool;
  GetNextWaypoint : WaypointId -> list SimpleWaypointPtr;
  GetLeftWaypoint : WaypointId -> SimpleWaypointPtr;
  GetRightWaypoint : WaypointId -> SimpleWaypointPtr;
  GetRoadId : WaypointId -> Z;
  GetLaneId : WaypointId -> Z;
  GetGeodesicGridId : WaypointId -> GeoGridId;
  (* [a->DistanceSquared(b)], squared distance between two waypoints *)
  DistanceSquared : WaypointId -> WaypointId -> Q
}.
End SimpleWaypoint.

Module SimulationState.
Record t := {
  GetLocation : ActorId -> Location;
  GetHeading : ActorId -> Vector3D;
  (* [GetVelocity(actor_id).Length()]: the length of the velocity vector;
     a square root, taken here as given by the snapshot *)
  GetSpeed : ActorId -> Q
}.
End SimulationState.

Module Parameters.
Record t := {
  GetForceLaneChange : ActorId -> bool * bool;   (* change_lane, direction *)
  GetKeepRightPercentage : ActorId -> Q;
  GetAutoLaneChange : ActorId -> bool
}.
End Parameters.

Module LocalMap.
Record t := {
  GetWaypointInVicinity : Location -> SimpleWaypointPtr;
  GetWaypoint : Location -> SimpleWaypointPtr
}.
End LocalMap.

(** The constants of [Constants.h] that the stage uses. *)
Record Constants := {
  HORIZON_RATE : Q;
  MINIMUM_HORIZON_LENGTH : Q;
  MAXIMUM_HORIZON_LENGTH : Q;
  MAX_START_DISTANCE : Q;
  JUNCTION_LOOK_AHEAD : Q;
  SAFE_DISTANCE_AFTER_JUNCTION : Q;
  INTER_LANE_CHANGE_DISTANCE : Q;
  MINIMUM_LANE_CHANGE_DISTANCE : Q;
  MAXIMUM_LANE_OBSTACLE_DISTANCE : Q;
  MAXIMUM_LANE_OBSTACLE_CURVATURE : Q
}.

Record World := {
  graph : SimpleWaypoint.Graph;
  local_map : LocalMap.t;
  simulation_state : SimulationState.t;
  parameters : Parameters.t;
  vehicle_id_list : list ActorId;
  constants : Constants;
  (* [DeviationDotProduct] and [GetTargetWaypoint(...).first] of the
     localization utilities *)
  DeviationDotProduct : Location -> Vector3D -> Location -> Q;
  GetTargetWaypoint : Buffer -> Q -> SimpleWaypointPtr;
  (* the values that successive calls of [rand()] return *)
  rand_sequence : nat -> N
}.

(** ** The state the stage writes *)

(** Modelled from the spec: the track-traffic registry, whose code is in
    the tracking utilities, not in the stage.  It maps a cell, derived from waypoint
    identity, to the actors whose buffer occupies it, and keeps per actor
    the grid cells from which the overlapping actors are derived. *)
Record TrackTraffic := {
  waypoint_overlap_tracker : gmap WaypointId (gset ActorId);
  actor_to_grids : gmap ActorId (gset GeoGridId);
  grid_to_actors : gmap GeoGridId (gset ActorId)
}.

Record LocalizationData := {
  is_at_junction_entrance : bool;
  junction_end_point : SimpleWaypointPtr;
  safe_point : SimpleWaypointPtr
}.

Record Stage := {
  buffer_map : gmap ActorId Buffer;
  track_traffic : TrackTraffic;
  output_array : list LocalizationData;
  last_lane_change_location : gmap ActorId Location;
  vehicles_at_junction : gset ActorId;
  rand_calls : nat      (* how many times [rand()] has been called *)
}.

Definition set_buffer_map (f : gmap ActorId Buffer -> gmap ActorId Buffer) (s : Stage) : Stage :=
  {| buffer_map := f (buffer_map s); track_traffic := track_traffic s;
     output_array := output_array s;
     last_lane_change_location := last_lane_change_location s;
     vehicles_at_junction := vehicles_at_junction s; rand_calls := rand_calls s |}.
Definition set_track_traffic (f : TrackTraffic -> TrackTraffic) (s : Stage) : Stage :=
  {| buffer_map := buffer_map s; track_traffic := f (track_traffic s);
     output_array := output_array s;
     last_lane_change_location := last_lane_change_location s;
     vehicles_at_junction := vehicles_at_junction s; rand_calls := rand_calls s |}.
Definition set_output_array (f : list LocalizationData -> list LocalizationData) (s : Stage) : Stage :=
  {| buffer_map := buffer_map s; track_traffic := track_traffic s;
     output_array := f (output_array s);
     last_lane_change_location := last_lane_change_location s;
     vehicles_at_junction := vehicles_at_junction s; rand_calls := rand_calls s |}.
Definition set_last_lane_change_location (f : gmap ActorId Location -> gmap ActorId Location) (s : Stage) : Stage :=
  {| buffer_map := buffer_map s; track_traffic := track_traffic s;
     output_array := output_array s;
     last_lane_change_location := f (last_lane_change_location s);
     vehicles_at_junction := vehicles_at_junction s; rand_calls := rand_calls s |}.
Definition set_vehicles_at_junction (f : gset ActorId -> gset ActorId) (s : Stage) : Stage :=
  {| buffer_map := buffer_map s; track_traffic := track_traffic s;
     output_array := output_array s;
     last_lane_change_location := last_lane_change_location s;
     vehicles_at_junction := f (vehicles_at_junction s); rand_calls := rand_calls s |}.
Definition set_rand_calls (f : nat -> nat) (s : Stage) : Stage :=
  {| buffer_map := buffer_map s; track_traffic := track_traffic s;
     output_array := output_array s;
     last_lane_change_location := last_lane_change_location s;
     vehicles_at_junction := vehicles_at_junction s; rand_calls := f (rand_calls s) |}.

(** ** The registry operations *)

Module TrackTrafficOps.

Definition with_tracker (f : gmap WaypointId (gset ActorId) -> gmap WaypointId (gset ActorId))
    (tt : TrackTraffic) : TrackTraffic :=
  {| waypoint_overlap_tracker := f (waypoint_overlap_tracker tt);
     actor_to_grids := actor_to_grids tt; grid_to_actors := grid_to_actors tt |}.

(** Modelled from the spec: the registry add that matches a buffer push;
    the actor joins the occupants of the waypoint's cell. *)
Definition UpdatePassingVehicle (waypoint_id : WaypointId) (actor_id : ActorId)
    (tt : TrackTraffic) : TrackTraffic :=
  with_tracker (fun m =>
    match m !! waypoint_id with
    | Some actor_id_set => <[waypoint_id := actor_id_set ∪ {[actor_id]}]> m
    | None => <[waypoint_id := {[actor_id]}]> m
    end) tt.

(** Modelled from the spec: the registry remove that matches a buffer
    pop; the actor leaves the occupants of the cell, and a cell left
    without occupants is dropped (no stale entries). *)
Definition RemovePassingVehicle (waypoint_id : WaypointId) (actor_id : ActorId)
    (tt : TrackTraffic) : TrackTraffic :=
  with_tracker (fun m =>
    match m !! waypoint_id with
    | Some actor_id_set =>
        let rest := actor_id_set ∖ {[actor_id]} in
        if decide (rest = ∅) then delete waypoint_id m
        else <[waypoint_id := rest]> m
    | None => m
    end) tt.

(** Modelled from the spec: the occupants of a waypoint's cell. *)
Definition GetPassingVehicles (waypoint_id : WaypointId) (tt : TrackTraffic) : gset ActorId :=
  default ∅ (waypoint_overlap_tracker tt !! waypoint_id).

(** Modelled from the spec: the actors that share a grid cell with the
    given actor. *)
Definition GetOverlappingVehicles (actor_id : ActorId) (tt : TrackTraffic) : gset ActorId :=
  match actor_to_grids tt !! actor_id with
  | Some grid_ids =>
      foldr (fun grid_id acc => default ∅ (grid_to_actors tt !! grid_id) ∪ acc)
            ∅ (elements grid_ids)
  | None => ∅
  end.

(** Modelled from the spec: make the grid occupancy of the actor that of
    its final buffer: stale cell memberships are removed, new ones added.
    An empty buffer leaves the registry as it is. *)
Definition UpdateGridPosition (g : SimpleWaypoint.Graph) (actor_id : ActorId)
    (buffer : Buffer) (tt : TrackTraffic) : TrackTraffic :=
  match buffer with
  | [] => tt
  | _ =>
      let current_grids := default ∅ (actor_to_grids tt !! actor_id) in
      let cleared :=
        foldr (fun grid_id m =>
                 match m !! grid_id with
                 | Some actors => <[grid_id := actors ∖ {[actor_id]}]> m
                 | None => m
                 end)
              (grid_to_actors tt) (elements current_grids) in
      let new_grids := SimpleWaypoint.GetGeodesicGridId g <$> buffer in
      {| waypoint_overlap_tracker := waypoint_overlap_tracker tt;
         actor_to_grids := <[actor_id := list_to_set new_grids]> (actor_to_grids tt);
         grid_to_actors :=
           foldr (fun grid_id m =>
                    <[grid_id := default ∅ (m !! grid_id) ∪ {[actor_id]}]> m)
                 cleared new_grids |}
  end.

End TrackTrafficOps.

(** ** The monad *)

Definition M (A : Type) : Type := Stage -> Res (A * Stage).

Definition ret {A} (a : A) : M A := fun s => Ok (a, s).
Definition fault {A} (f : Fault) : M A := fun _ => Err f.
Definition bind {A B} (m : M A) (k : A -> M B) : M B :=
  fun s => match m s with
           | Ok (a, s') => k a s'
           | Err f => Err f
           end.
Definition gets {A} (f : Stage -> A) : M A := fun s => Ok (f s, s).
Definition modify (f : Stage -> Stage) : M unit := fun s => Ok (tt, f s).

Declare Scope stage_scope.
Delimit Scope stage_scope with stage.
Notation "x <- m ;; k" := (bind m (fun x => k))
  (at level 100, m at next level, k at level 200, right associativity) : stage_scope.
Notation "m ;; k" := (bind m (fun _ => k))
  (at level 100, k at level 200, right associativity) : stage_scope.
Local Open Scope stage_scope.

(** Dereferencing a pointer, and the checked and unchecked accessors. *)
Definition deref (p : SimpleWaypointPtr) : M WaypointId :=
  match p with Some w => ret w | None => fault NullPointer end.
Definition front {A} (l : list A) : M A :=
  match l with x :: _ => ret x | [] => fault EmptyContainer end.
Definition back {A} (l : list A) : M A :=
  match last l with Some x => ret x | None => fault EmptyContainer end.
Definition at_ {A} (l : list A) (i : nat) : M A :=
  match l !! i with Some x => ret x | None => fault OutOfRange end.

Module LocalizationStage.
Section WithWorld.

Context (W : World).

Let G := graph W.
Let K := constants W.

(** [buffer_map->at(actor_id)] *)
Definition buffer_at (actor_id : ActorId) : M Buffer :=
  fun s => match buffer_map s !! actor_id with
           | Some b => Ok (b, s)
           | None => Err OutOfRange
           end.

(** [rand()] *)
Definition rand : M N :=
  fun s => Ok (rand_sequence W (rand_calls s), set_rand_calls S s).

(** Modelled from the spec: a buffer push with its matching registry
    add.  The registry cell comes from the waypoint's identity, so the
    pointer is dereferenced: pushing a null pointer is a fault. *)
Definition PushWaypoint (actor_id : ActorId) (waypoint : SimpleWaypointPtr) : M unit :=
  w <- deref waypoint;;
  buffer <- buffer_at actor_id;;
  modify (set_buffer_map <[actor_id := buffer ++ [w]]>);;
  modify (set_track_traffic (TrackTrafficOps.UpdatePassingVehicle w actor_id)).

(** Modelled from the spec: a buffer pop, at the front or at the back,
    with its matching registry remove.  (In the source the last argument
    defaults to the front.) *)
Definition PopWaypoint (actor_id : ActorId) (front_or_back : bool) : M unit :=
  buffer <- buffer_at actor_id;;
  removed_waypoint <- (if front_or_back then front buffer else back buffer);;
  modify (set_buffer_map
            <[actor_id := if front_or_back then tail buffer
                          else removelast buffer]>);;
  modify (set_track_traffic
            (TrackTrafficOps.RemovePassingVehicle removed_waypoint actor_id)).

(** [for (j = 0; j < number_of_pops; ++j) PopWaypoint(...)] *)
Fixpoint pop_all (number_of_pops : nat) (actor_id : ActorId) : M unit :=
  match number_of_pops with
  | O => ret tt
  | S n => PopWaypoint actor_id true;; pop_all n actor_id
  end.

(** *** [AssignLaneChange] *)

(** The accumulator of the scan over the blocking vehicles. *)
Record ObstacleScan := {
  obstacle_too_close : bool;
  minimum_squared_distance : option Q;     (* [None] is infinity *)
  obstacle_actor_id : ActorId
}.

(** The body of the loop over [blocking_vehicles], lines 303-341. *)
Definition check_blocking_vehicle (vehicle_location : Location)
    (current_waypoint : WaypointId) (other_actor_id : ActorId)
    (acc : ObstacleScan) : M ObstacleScan :=
  bm <- gets buffer_map;;
  match bm !! other_actor_id with
  | Some (other_current_waypoint :: _) =>
      let other_location := SimpleWaypoint.GetLocation G other_current_waypoint in
      let reference_heading := SimpleWaypoint.GetForwardVector G current_waypoint in
      let reference_to_other :=
        vsub (SimpleWaypoint.GetLocation G other_current_waypoint)
             (SimpleWaypoint.GetLocation G current_waypoint) in
      let other_heading := SimpleWaypoint.GetForwardVector G other_current_waypoint in
      if negb (SimpleWaypoint.CheckJunction G current_waypoint)
         && negb (SimpleWaypoint.CheckJunction G other_current_waypoint)
         && bool_decide (SimpleWaypoint.GetRoadId G other_current_waypoint
                         = SimpleWaypoint.GetRoadId G current_waypoint)
         && bool_decide (SimpleWaypoint.GetLaneId G other_current_waypoint
                         = SimpleWaypoint.GetLaneId G current_waypoint)
         && Qgtb (Dot reference_heading reference_to_other) 0
         && Qgtb (Dot reference_heading other_heading)
                 (MAXIMUM_LANE_OBSTACLE_CURVATURE K)
      then
        let squared_distance := DistanceSquared vehicle_location other_location in
        if Qgtb squared_distance (SQUARE (MINIMUM_LANE_CHANGE_DISTANCE K)) then
          if match minimum_squared_distance acc with
             | Some m => Qltb squared_distance m
             | None => true
             end
             && Qltb squared_distance (SQUARE (MAXIMUM_LANE_OBSTACLE_DISTANCE K))
          then ret {| obstacle_too_close := obstacle_too_close acc;
                      minimum_squared_distance := Some squared_distance;
                      obstacle_actor_id := other_actor_id |}
          else ret acc
        else ret {| obstacle_too_close := true;
                    minimum_squared_distance := minimum_squared_distance acc;
                    obstacle_actor_id := obstacle_actor_id acc |}
      else ret acc
  | _ => ret acc
  end.

(** The loop over [blocking_vehicles], lines 299-342: it runs while
    there are vehicles left, none was too close, and the change is not
    forced. *)
Fixpoint scan_blocking_vehicles (force : bool) (vehicle_location : Location)
    (current_waypoint : WaypointId) (blocking_vehicles : list ActorId)
    (acc : ObstacleScan) : M ObstacleScan :=
  match blocking_vehicles with
  | [] => ret acc
  | other_actor_id :: rest =>
      if negb (obstacle_too_close acc) && negb force then
        acc' <- check_blocking_vehicle vehicle_location current_waypoint
                 other_actor_id acc;;
        scan_blocking_vehicles force vehicle_location current_waypoint rest acc'
      else ret acc
  end.

(** Whether a candidate lane near the obstacle is free, lines 360-361. *)
Definition lane_free (candidate_lane_wp : SimpleWaypointPtr) : M bool :=
  match candidate_lane_wp with
  | Some w =>
      tt <- gets track_traffic;;
      ret (bool_decide (size (TrackTrafficOps.GetPassingVehicles w tt) = 0%nat))
  | None => ret false
  end.

(** The loop of lines 401-405: the change-over point moves to its first
    successor while it is closer to the starting point than the
    change-over distance and is not a junction waypoint. *)
Fixpoint advance_change_over (fuel : nat) (starting_point change_over_point : WaypointId)
    (change_over_distance : Q) : M WaypointId :=
  if Qltb (SimpleWaypoint.DistanceSquared G change_over_point starting_point)
          (SQUARE change_over_distance)
     && negb (SimpleWaypoint.CheckJunction G change_over_point)
  then
    match fuel with
    | O => fault OutOfFuel
    | S n =>
        (* [GetNextWaypoint()[0]]; the next test of the loop dereferences it *)
        next <- front (SimpleWaypoint.GetNextWaypoint G change_over_point);;
        w <- deref next;;
        advance_change_over n starting_point w change_over_distance
    end
  else ret change_over_point.

(** Lines 344-395: the side of the change, from the lanes that are free
    near the obstacle found, or as forced. *)
Definition choose_change_over_point (force direction : bool) (scan : ObstacleScan)
    (left_waypoint right_waypoint : SimpleWaypointPtr) : M SimpleWaypointPtr :=
  if negb (obstacle_too_close scan)
     && negb (bool_decide (obstacle_actor_id scan = 0%N))
     && negb force
  then
    other_buffer <- buffer_at (obstacle_actor_id scan);;
    other_current_waypoint <- front other_buffer;;
    distant_left_lane_free <-
      lane_free (SimpleWaypoint.GetLeftWaypoint G other_current_waypoint);;
    distant_right_lane_free <-
      lane_free (SimpleWaypoint.GetRightWaypoint G other_current_waypoint);;
    right_free <- lane_free right_waypoint;;
    left_free <- lane_free left_waypoint;;
    if distant_right_lane_free && right_free then ret right_waypoint
    else if distant_left_lane_free && left_free then ret left_waypoint
    else ret None
  else if force then
    if direction && bool_decide (is_Some right_waypoint) then ret right_waypoint
    else if negb direction && bool_decide (is_Some left_waypoint)
         then ret left_waypoint
    else ret None
  else ret None.

Definition AssignLaneChange (fuel : nat) (actor_id : ActorId)
    (vehicle_location : Location) (vehicle_speed : Q)
    (force direction : bool) : M SimpleWaypointPtr :=
  waypoint_buffer <- buffer_at actor_id;;
  match waypoint_buffer with
  | [] => ret None
  | current_waypoint :: _ =>
      let left_waypoint := SimpleWaypoint.GetLeftWaypoint G current_waypoint in
      let right_waypoint := SimpleWaypoint.GetRightWaypoint G current_waypoint in
      tt <- gets track_traffic;;
      (* an unordered set is iterated in an unspecified order; the model
         takes the order of [elements] *)
      let blocking_vehicles :=
        elements (TrackTrafficOps.GetOverlappingVehicles actor_id tt) in
      scan <- scan_blocking_vehicles force vehicle_location current_waypoint
               blocking_vehicles
               {| obstacle_too_close := false;
                  minimum_squared_distance := None;
                  obstacle_actor_id := 0%N |};;
      change_over_point <-
        choose_change_over_point force direction scan left_waypoint right_waypoint;;
      match change_over_point with
      | Some starting_point =>
          let change_over_distance := Clamp ((3 # 2) * vehicle_speed) 3 20 in
          w <- advance_change_over fuel starting_point starting_point
                change_over_distance;;
          ret (Some w)
      | None => ret None
      end
  end.

(** *** [Update] *)

(** Lines 45-56: clear the buffer if the vehicle is too far from its
    first waypoint. *)
Definition clear_stale_buffer (actor_id : ActorId) (vehicle_location : Location) : M unit :=
  waypoint_buffer <- buffer_at actor_id;;
  match waypoint_buffer with
  | front_waypoint :: _ =>
      if Qgtb (DistanceSquared (SimpleWaypoint.GetLocation G front_waypoint)
                               vehicle_location)
              (SQUARE (MAX_START_DISTANCE K))
      then pop_all (length waypoint_buffer) actor_id
      else ret tt
  | [] => ret tt
  end.

(** Lines 64-72: purge passed waypoints.  Every turn pops one waypoint,
    so the loop makes at most as many turns as the buffer is long; that
    length is the [bound] the loop is called with. *)
Fixpoint purge_passed (bound : nat) (actor_id : ActorId)
    (vehicle_location : Location) (heading_vector : Vector3D)
    (dot_product : Q) : M unit :=
  waypoint_buffer <- buffer_at actor_id;;
  if Qleb dot_product 0 && negb (bool_decide (waypoint_buffer = [])) then
    match bound with
    | O => fault OutOfFuel
    | S n =>
        PopWaypoint actor_id true;;
        waypoint_buffer <- buffer_at actor_id;;
        let dot_product :=
          match waypoint_buffer with
          | front_waypoint :: _ =>
              DeviationDotProduct W vehicle_location heading_vector
                (SimpleWaypoint.GetLocation G front_waypoint)
          | [] => dot_product
          end in
        purge_passed n actor_id vehicle_location heading_vector dot_product
    end
  else ret tt.

(** Lines 77-83: purge waypoints too far from the front of the buffer,
    from the back. *)
Fixpoint purge_far (bound : nat) (actor_id : ActorId)
    (at_junction_entrance : bool) (horizon_square : Q) : M unit :=
  waypoint_buffer <- buffer_at actor_id;;
  match waypoint_buffer, last waypoint_buffer with
  | front_waypoint :: _, Some back_waypoint =>
      if negb at_junction_entrance
         && Qgtb (SimpleWaypoint.DistanceSquared G back_waypoint front_waypoint)
                 horizon_square
      then
        match bound with
        | O => fault OutOfFuel
        | S n =>
            PopWaypoint actor_id false;;
            purge_far n actor_id at_junction_entrance horizon_square
        end
      else ret tt
  | _, _ => ret tt
  end.

(** Lines 58-84; the result is [is_at_junction_entrance]. *)
Definition purge_buffer (actor_id : ActorId) (vehicle_location : Location)
    (heading_vector : Vector3D) (horizon_square : Q) : M bool :=
  waypoint_buffer <- buffer_at actor_id;;
  match waypoint_buffer with
  | [] => ret false
  | front_waypoint :: _ =>
      purge_passed (length waypoint_buffer) actor_id vehicle_location heading_vector
        (DeviationDotProduct W vehicle_location heading_vector
           (SimpleWaypoint.GetLocation G front_waypoint));;
      waypoint_buffer <- buffer_at actor_id;;
      let look_ahead_point :=
        GetTargetWaypoint W waypoint_buffer (JUNCTION_LOOK_AHEAD K) in
      (* line 75: [waypoint_buffer.front()] is taken whatever the purge left *)
      front_waypoint <- front waypoint_buffer;;
      at_junction_entrance <-
        (if negb (SimpleWaypoint.CheckJunction G front_waypoint) then
           look_ahead <- deref look_ahead_point;;
           ret (SimpleWaypoint.CheckJunction G look_ahead)
         else ret false);;
      purge_far (length waypoint_buffer) actor_id at_junction_entrance horizon_square;;
      ret at_junction_entrance
  end.

(** Lines 86-95: initialize the buffer if it is empty. *)
Definition initialize_buffer (actor_id : ActorId) (vehicle_location : Location) : M unit :=
  waypoint_buffer <- buffer_at actor_id;;
  match waypoint_buffer with
  | [] =>
      let closest_waypoint :=
        match LocalMap.GetWaypointInVicinity (local_map W) vehicle_location with
        | Some w => Some w
        | None => LocalMap.GetWaypoint (local_map W) vehicle_location
        end in
      PushWaypoint actor_id closest_waypoint
  | _ => ret tt
  end.

(** Lines 97-140: assign a lane change. *)
Definition lane_change (fuel : nat) (actor_id : ActorId)
    (vehicle_location : Location) (vehicle_speed : Q) : M unit :=
  let lane_change_info := Parameters.GetForceLaneChange (parameters W) actor_id in
  request <-
    (if negb (fst lane_change_info) then
       let perc_keep_right := Parameters.GetKeepRightPercentage (parameters W) actor_id in
       if Qleb 0 perc_keep_right then
         r <- rand;;
         if Qleb (inject_Z (Z.of_N (r mod 101))) perc_keep_right
         then ret (true, true)
         else ret lane_change_info
       else ret lane_change_info
     else ret lane_change_info);;
  let force_lane_change := fst request in
  let lane_change_direction := snd request in
  waypoint_buffer <- buffer_at actor_id;;
  front_waypoint <- front waypoint_buffer;;
  let lane_change_distance :=
    SQUARE (MAX (10 * vehicle_speed) (INTER_LANE_CHANGE_DISTANCE K)) in
  last_location <- gets last_lane_change_location;;
  if (Parameters.GetAutoLaneChange (parameters W) actor_id || force_lane_change)
     && negb (SimpleWaypoint.CheckJunction G front_waypoint)
     && match last_location !! actor_id with
        | None => true
        | Some l => Qgtb (DistanceSquared l vehicle_location) lane_change_distance
        end
  then
    change_over_point <-
      AssignLaneChange fuel actor_id vehicle_location vehicle_speed
        force_lane_change lane_change_direction;;
    match change_over_point with
    | Some _ =>
        modify (set_last_lane_change_location <[actor_id := vehicle_location]>);;
        waypoint_buffer <- buffer_at actor_id;;
        pop_all (length waypoint_buffer) actor_id;;
        PushWaypoint actor_id change_over_point
    | None => ret tt
    end
  else ret tt.

(** Lines 156-163: the first successor that is not null, if any. *)
Fixpoint first_valid (next_waypoints : list SimpleWaypointPtr) : SimpleWaypointPtr :=
  match next_waypoints with
  | [] => None
  | Some wp :: _ => Some wp
  | None :: rest => first_valid rest
  end.

(** Lines 142-166: populate the buffer. *)
Fixpoint populate_buffer (fuel : nat) (actor_id : ActorId) (horizon_square : Q) : M unit :=
  waypoint_buffer <- buffer_at actor_id;;
  back_waypoint <- back waypoint_buffer;;
  front_waypoint <- front waypoint_buffer;;
  if Qleb (SimpleWaypoint.DistanceSquared G back_waypoint front_waypoint) horizon_square
  then
    match fuel with
    | O => fault OutOfFuel
    | S n =>
        let next_waypoints := SimpleWaypoint.GetNextWaypoint G back_waypoint in
        selection_index <-
          (if bool_decide (1 < length next_waypoints)%nat then
             r <- rand;;
             ret (N.to_nat (r mod N.of_nat (length next_waypoints)))
           else ret 0%nat);;
        next_wp <- at_ next_waypoints selection_index;;
        let next_wp :=
          match next_wp with
          | Some wp => Some wp
          | None => first_valid next_waypoints
          end in
        PushWaypoint actor_id next_wp;;
        populate_buffer n actor_id horizon_square
    end
  else ret tt.

(** The variables of the safe-point search, lines 176-179 and 168-169. *)
Record JunctionScan := {
  entered_junction : bool;
  past_junction : bool;
  safe_point_found : bool;
  current_waypoint : SimpleWaypointPtr;
  junction_end : SimpleWaypointPtr;             (* [junction_end_point] *)
  safe_point_after_junction : SimpleWaypointPtr
}.

(** The body of the scan of the existing buffer, lines 185-199. *)
Definition scan_point (safe_distance_squared : Q) (wp : WaypointId)
    (st : JunctionScan) : M JunctionScan :=
  let entered := entered_junction st || SimpleWaypoint.CheckJunction G wp in
  let leaves := entered && negb (past_junction st)
                && negb (SimpleWaypoint.CheckJunction G wp) in
  let past := past_junction st || leaves in
  let jend := if leaves then Some wp else junction_end st in
  if past then
    j <- deref jend;;
    if Qgtb (SimpleWaypoint.DistanceSquared G j wp) safe_distance_squared then
      ret {| entered_junction := entered; past_junction := past;
             safe_point_found := true; current_waypoint := Some wp;
             junction_end := jend; safe_point_after_junction := Some wp |}
    else
      ret {| entered_junction := entered; past_junction := past;
             safe_point_found := safe_point_found st; current_waypoint := Some wp;
             junction_end := jend;
             safe_point_after_junction := safe_point_after_junction st |}
  else
    ret {| entered_junction := entered; past_junction := past;
           safe_point_found := safe_point_found st; current_waypoint := Some wp;
           junction_end := jend;
           safe_point_after_junction := safe_point_after_junction st |}.

(** Lines 183-200: scan the existing buffer points, until the safe
    point is found. *)
Fixpoint scan_buffer (safe_distance_squared : Q) (points : list WaypointId)
    (st : JunctionScan) : M JunctionScan :=
  match points with
  | [] => ret st
  | wp :: rest =>
      if negb (safe_point_found st) then
        st' <- scan_point safe_distance_squared wp st;;
        scan_buffer safe_distance_squared rest st'
      else ret st
  end.

(** Lines 205-214: extend the buffer until past the junction. *)
Fixpoint extend_past_junction (fuel : nat) (actor_id : ActorId)
    (st : JunctionScan) : M JunctionScan :=
  if negb (past_junction st) then
    match fuel with
    | O => fault OutOfFuel
    | S n =>
        current <- deref (current_waypoint st);;
        next <- front (SimpleWaypoint.GetNextWaypoint G current);;
        PushWaypoint actor_id next;;
        w <- deref next;;
        let leaves := negb (SimpleWaypoint.CheckJunction G w) in
        extend_past_junction n actor_id
          {| entered_junction := entered_junction st;
             past_junction := leaves;
             safe_point_found := safe_point_found st;
             current_waypoint := Some w;
             junction_end := if leaves then Some w else junction_end st;
             safe_point_after_junction := safe_point_after_junction st |}
    end
  else ret st.

(** Lines 216-231: extend the buffer until the safe point is found. *)
Fixpoint extend_to_safe_point (fuel : nat) (actor_id : ActorId)
    (safe_distance_squared : Q) (st : JunctionScan) : M JunctionScan :=
  if negb (safe_point_found st) then
    match fuel with
    | O => fault OutOfFuel
    | S n =>
        current <- deref (current_waypoint st);;
        let next_waypoints := SimpleWaypoint.GetNextWaypoint G current in
        j <- deref (junction_end st);;
        if Qgtb (SimpleWaypoint.DistanceSquared G j current) safe_distance_squared
           || bool_decide (1 < length next_waypoints)%nat
           || SimpleWaypoint.CheckJunction G current
        then
          extend_to_safe_point n actor_id safe_distance_squared
            {| entered_junction := entered_junction st;
               past_junction := past_junction st;
               safe_point_found := true;
               current_waypoint := Some current;
               junction_end := junction_end st;
               safe_point_after_junction := Some current |}
        else
          next <- front next_waypoints;;
          PushWaypoint actor_id next;;
          extend_to_safe_point n actor_id safe_distance_squared
            {| entered_junction := entered_junction st;
               past_junction := past_junction st;
               safe_point_found := false;
               current_waypoint := next;
               junction_end := junction_end st;
               safe_point_after_junction := safe_point_after_junction st |}
    end
  else ret st.

(** Lines 202-232: extend the buffer if the safe point was not found. *)
Definition extend_to_find_safe_point (fuel : nat) (actor_id : ActorId)
    (safe_distance_squared : Q) (st : JunctionScan) : M JunctionScan :=
  if negb (safe_point_found st) then
    st <- extend_past_junction fuel actor_id st;;
    extend_to_safe_point fuel actor_id safe_distance_squared st
  else ret st.

(** [output_array->at(index) = data] *)
Definition write_output (index : nat) (data : LocalizationData) : M unit :=
  output <- gets output_array;;
  at_ output index;;
  modify (set_output_array <[index := data]>).

(** Lines 168-247: extend the buffer if at a junction entrance, and write
    the output. *)
Definition junction_extension (fuel : nat) (index : nat) (actor_id : ActorId)
    (at_junction_entrance : bool) : M unit :=
  tracked <- gets vehicles_at_junction;;
  if at_junction_entrance && bool_decide (actor_id ∉ tracked) then
    modify (set_vehicles_at_junction (fun v => v ∪ {[actor_id]}));;
    let safe_distance_squared := SQUARE (SAFE_DISTANCE_AFTER_JUNCTION K) in
    waypoint_buffer <- buffer_at actor_id;;
    st <- scan_buffer safe_distance_squared waypoint_buffer
            {| entered_junction := false; past_junction := false;
               safe_point_found := false; current_waypoint := None;
               junction_end := None; safe_point_after_junction := None |};;
    st <- extend_to_find_safe_point fuel actor_id safe_distance_squared st;;
    write_output index
      {| is_at_junction_entrance := at_junction_entrance;
         junction_end_point := junction_end st;
         safe_point := safe_point_after_junction st |}
  else if negb at_junction_entrance && bool_decide (actor_id ∈ tracked) then
    modify (set_vehicles_at_junction (fun v => v ∖ {[actor_id]}));;
    write_output index
      {| is_at_junction_entrance := at_junction_entrance;
         junction_end_point := None;
         safe_point := None |}
  else ret tt.

(** Line 35. *)
Definition horizon_square_of (vehicle_speed : Q) : Q :=
  SQUARE (MIN (vehicle_speed * HORIZON_RATE K + MINIMUM_HORIZON_LENGTH K)
              (MAXIMUM_HORIZON_LENGTH K)).

(** Lines 97-251, what follows the initialization of the buffer. *)
Definition Update_from_lane_change (fuel : nat) (index : nat) (actor_id : ActorId)
    (at_junction_entrance : bool) : M unit :=
  let vehicle_location := SimulationState.GetLocation (simulation_state W) actor_id in
  let vehicle_speed := SimulationState.GetSpeed (simulation_state W) actor_id in
  lane_change fuel actor_id vehicle_location vehicle_speed;;
  populate_buffer fuel actor_id (horizon_square_of vehicle_speed);;
  junction_extension fuel index actor_id at_junction_entrance;;
  waypoint_buffer <- buffer_at actor_id;;
  modify (set_track_traffic
            (TrackTrafficOps.UpdateGridPosition G actor_id waypoint_buffer)).

Definition Update (fuel : nat) (index : nat) : M unit :=
  actor_id <- at_ (vehicle_id_list W) index;;
  let vehicle_location := SimulationState.GetLocation (simulation_state W) actor_id in
  let heading_vector := SimulationState.GetHeading (simulation_state W) actor_id in
  let vehicle_speed := SimulationState.GetSpeed (simulation_state W) actor_id in
  let horizon_square := horizon_square_of vehicle_speed in
  modify (set_buffer_map (fun m =>
            match m !! actor_id with
            | None => <[actor_id := []]> m
            | Some _ => m
            end));;
  clear_stale_buffer actor_id vehicle_location;;
  at_junction_entrance <-
    purge_buffer actor_id vehicle_location heading_vector horizon_square;;
  initialize_buffer actor_id vehicle_location;;
  Update_from_lane_change fuel index actor_id at_junction_entrance.

(** *** [RemoveActor] and [Reset] *)

Definition RemoveActor (actor_id : ActorId) : M unit :=
  modify (set_last_lane_change_location (fun m =>
            match m !! actor_id with
            | Some _ => delete actor_id m
            | None => m
            end));;
  modify (set_vehicles_at_junction (fun v =>
            if bool_decide (actor_id ∈ v) then v ∖ {[actor_id]} else v)).

Definition Reset : M unit :=
  modify (set_last_lane_change_location (fun _ => ∅));;
  modify (set_vehicles_at_junction (fun _ => ∅)).

End WithWorld.
End LocalizationStage.

Import LocalizationStage.

(** ** Chains of first successors

    What the loops that walk [GetNextWaypoint().front()] (or
    [GetNextWaypoint()[0]]) visit: the [k]-th first successor of a
    waypoint, when every link on the way exists and is not null. *)

Definition first_successor (g : SimpleWaypoint.Graph) (w : WaypointId) : SimpleWaypointPtr :=
  match SimpleWaypoint.GetNextWaypoint g w with
  | Some n :: _ => Some n
  | _ => None
  end.

Fixpoint nth_successor (g : SimpleWaypoint.Graph) (k : nat) (w : WaypointId) : SimpleWaypointPtr :=
  match k with
  | O => Some w
  | S k' =>
      match first_successor g w with
      | Some n => nth_successor g k' n
      | None => None
      end
  end.


(** The test of the loop of [AssignLaneChange], lines 401-402. *)
Definition keeps_advancing (g : SimpleWaypoint.Graph) (starting_point : WaypointId)
    (change_over_distance : Q) (w : WaypointId) : bool :=
  Qltb (SimpleWaypoint.DistanceSquared g w starting_point) (SQUARE change_over_distance)
  && negb (SimpleWaypoint.CheckJunction g w).

(** [w] is the [k]-th first successor of [starting_point]; every earlier
    point of the chain is closer to [starting_point] than the change-over
    distance and is no junction waypoint; [w] is at least that far, or is
    a junction waypoint. *)
Definition stops_at (g : SimpleWaypoint.Graph) (starting_point : WaypointId)
    (change_over_distance : Q) (k : nat) (w : WaypointId) : Prop :=
  nth_successor g k starting_point = Some w
  ∧ (∀ i q, (i < k)%nat → nth_successor g i starting_point = Some q →
            (SimpleWaypoint.DistanceSquared g q starting_point
               < SQUARE change_over_distance)%Q
            ∧ SimpleWaypoint.CheckJunction g q = false)
  ∧ ((SQUARE change_over_distance
        <= SimpleWaypoint.DistanceSquared g w starting_point)%Q
     ∨ SimpleWaypoint.CheckJunction g w = true).


(** The value of a run, without the state. *)
Definition result_of {A} (r : Res (A * Stage)) : Res A :=
  match r with
  | Ok (a, _) => Ok a
  | Err f => Err f
  end.

(** ** Sample worlds

    A road along the x axis: waypoint [i] lies at [x = 10 i], its only
    successor is waypoint [i + 1] unless stated otherwise.  The waypoints
    from 100 on are those of the lane to the right, 4 aside: waypoint
    [100 + i] lies beside waypoint [i].  One vehicle, actor 7, at index
    0. *)

Module Sample.

Definition at_x (i : N) : Location :=
  if (i <? 100)%N then mkLoc (inject_Z (10 * Z.of_N i)) 0 0
  else mkLoc (inject_Z (10 * Z.of_N (i - 100))) 4 0.

Definition road (junction : WaypointId -> bool)
    (next : WaypointId -> list SimpleWaypointPtr)
    (right : WaypointId -> SimpleWaypointPtr) : SimpleWaypoint.Graph :=
  {| SimpleWaypoint.GetLocation := at_x;
     SimpleWaypoint.GetForwardVector := fun _ => mkLoc 1 0 0;
     SimpleWaypoint.CheckJunction := junction;
     SimpleWaypoint.GetNextWaypoint := next;
     SimpleWaypoint.GetLeftWaypoint := fun _ => None;
     SimpleWaypoint.GetRightWaypoint := right;
     SimpleWaypoint.GetRoadId := fun _ => 1%Z;
     SimpleWaypoint.GetLaneId := fun _ => 1%Z;
     SimpleWaypoint.GetGeodesicGridId := fun w => w;
     SimpleWaypoint.DistanceSquared := fun a b => DistanceSquared (at_x a) (at_x b) |}.

(** Values for the constants, in the range of those of the traffic
    manager; the results below hold for any values. *)
Definition sample_constants : Constants :=
  {| HORIZON_RATE := 29 # 20;
     MINIMUM_HORIZON_LENGTH := 20;
     MAXIMUM_HORIZON_LENGTH := 40;
     MAX_START_DISTANCE := 20;
     JUNCTION_LOOK_AHEAD := 10;
     SAFE_DISTANCE_AFTER_JUNCTION := 4;
     INTER_LANE_CHANGE_DISTANCE := 10;
     MINIMUM_LANE_CHANGE_DISTANCE := 20;
     MAXIMUM_LANE_OBSTACLE_DISTANCE := 50;
     MAXIMUM_LANE_OBSTACLE_CURVATURE := 3 # 5 |}.

(** The waypoint nearest to a location on the road. *)
Definition nearest_waypoint (l : Location) : WaypointId :=
  Z.to_N (Qfloor ((lx l + 5) / 10)).

(** The vehicle stands at [x = vehicle_x], heads along the road, at rest;
    [lane_change_info] is the forced lane change asked for.  The vicinity
    lookup finds nothing, the guaranteed lookup the nearest waypoint.  The
    look-ahead point is the second waypoint of the buffer, or its last
    one. *)
Definition world_with (lane_change_info : bool * bool)
    (g : SimpleWaypoint.Graph) (vehicle_x : Q) : World :=
  {| graph := g;
     local_map := {| LocalMap.GetWaypointInVicinity := fun _ => None;
                     LocalMap.GetWaypoint := fun l => Some (nearest_waypoint l) |};
     simulation_state :=
       {| SimulationState.GetLocation := fun _ => mkLoc vehicle_x 0 0;
          SimulationState.GetHeading := fun _ => mkLoc 1 0 0;
          SimulationState.GetSpeed := fun _ => 0%Q |};
     parameters :=
       {| Parameters.GetForceLaneChange := fun _ => lane_change_info;
          Parameters.GetKeepRightPercentage := fun _ => (-1)%Q;
          Parameters.GetAutoLaneChange := fun _ => false |};
     vehicle_id_list := [7%N];
     constants := sample_constants;
     DeviationDotProduct := fun reference heading target =>
                              Dot (vsub target reference) heading;
     GetTargetWaypoint := fun b _ =>
                            match b !! 1%nat with
                            | Some w => Some w
                            | None => last b
                            end;
     rand_sequence := fun _ => 0%N |}.

Definition world := world_with (false, false).

Definition no_traffic : TrackTraffic :=
  {| waypoint_overlap_tracker := ∅; actor_to_grids := ∅; grid_to_actors := ∅ |}.

Definition no_output : LocalizationData :=
  {| is_at_junction_entrance := false; junction_end_point := None; safe_point := None |}.

(** The stage with the buffer [b] for actor 7 and the output record [d]. *)
Definition stage (b : option Buffer) (d : LocalizationData) : Stage :=
  {| buffer_map := match b with Some b => {[ 7%N := b ]} | None => ∅ end;
     track_traffic := no_traffic;
     output_array := [d];
     last_lane_change_location := ∅;
     vehicles_at_junction := ∅;
     rand_calls := 0 |}.

Definition onward (w : WaypointId) : list SimpleWaypointPtr := [Some (w + 1)%N].

Definition straight_road : SimpleWaypoint.Graph :=
  road (fun _ => false) onward (fun _ => None).

(** Waypoint 2 has no successor at all. *)
Definition dead_end_road : SimpleWaypoint.Graph :=
  road (fun _ => false)
       (fun w => if bool_decide (w = 2%N) then [] else onward w)
       (fun _ => None).

(** Waypoint 2 has two successors: a null pointer, then waypoint 3. *)
Definition null_then_valid_road : SimpleWaypoint.Graph :=
  road (fun _ => false)
       (fun w => if bool_decide (w = 2%N) then [None; Some 3%N] else onward w)
       (fun _ => None).

(** The only successor of waypoint 2 is a null pointer. *)
Definition null_successor_road : SimpleWaypoint.Graph :=
  road (fun _ => false)
       (fun w => if bool_decide (w = 2%N) then [None] else onward w)
       (fun _ => None).

(** Waypoints 2 and 3 are junction waypoints. *)
Definition junction_road : SimpleWaypoint.Graph :=
  road (fun w => bool_decide (2 ≤ w ≤ 3)%N) onward (fun _ => None).



(** The right neighbour of waypoint 0 is waypoint 100; its successor,
    waypoint 101, is a junction waypoint. *)
Definition right_lane_road : SimpleWaypoint.Graph :=
  road (fun w => bool_decide (w = 101%N)) onward
       (fun w => if bool_decide (w = 0%N) then Some 100%N else None).

Definition stale_output : LocalizationData :=
  {| is_at_junction_entrance := true;
     junction_end_point := Some 5%N;
     safe_point := Some 9%N |}.

End Sample.

(** ** [DrawBuffer]

    [DrawBuffer] reads a buffer and calls [debug_helper.DrawLine] on pairs
    of its waypoints.  The debug helper is a collaborator of its own: the
    model returns the lines drawn, in the order of the calls, each as its
    two end points (thickness, colour and life time are constants).  The
    indices are [uint64_t]: sums wrap at [2^64]. *)

Definition wrap64 (n : N) : N := (n mod 2 ^ 64)%N.

(** [cg::Location + cg::Location] *)
Definition vadd (a b : Location) : Location :=
  mkLoc (lx a + lx b)%Q (ly a + ly b)%Q (lz a + lz b)%Q.

(** The end point drawn for a waypoint: its location, raised by 2. *)
Definition raised (g : SimpleWaypoint.Graph) (w : WaypointId) : Location :=
  vadd (SimpleWaypoint.GetLocation g w) (mkLoc 0 0 2).

(** The loop of line 415, from index [i] on. *)
Fixpoint draw_lines (fuel : nat) (g : SimpleWaypoint.Graph) (buffer : Buffer)
    (step_size i : N) : Res (list (Location * Location)) :=
  if (wrap64 (i + step_size) <? N.of_nat (length buffer))%N then
    match fuel with
    | O => Err OutOfFuel
    | S n =>
        match buffer !! N.to_nat i,
              buffer !! N.to_nat (wrap64 (i + step_size)) with
        | Some from, Some to =>
            match draw_lines n g buffer step_size (wrap64 (i + step_size)) with
            | Ok lines => Ok ((raised g from, raised g to) :: lines)
            | Err f => Err f
            end
        | _, _ => Err OutOfRange      (* [buffer.at(...)] throws *)
        end
    end
  else Ok [].

Definition DrawBuffer (fuel : nat) (g : SimpleWaypoint.Graph) (buffer : Buffer)
    : Res (list (Location * Location)) :=
  let buffer_size := N.of_nat (length buffer) in
  let step_size := (buffer_size / 10)%N in
  draw_lines fuel g buffer step_size 0.

(** ** Notions for the further results *)

(** Line 35: the horizon length, of which [horizon_square_of] is the
    square. *)
Definition horizon_length_of (W : World) (vehicle_speed : Q) : Q :=
  MIN (vehicle_speed * HORIZON_RATE (constants W)
       + MINIMUM_HORIZON_LENGTH (constants W))
      (MAXIMUM_HORIZON_LENGTH (constants W)).

(** A buffer is contiguous along the graph: each waypoint is among the
    successors of the one before it. *)
Fixpoint contiguous (g : SimpleWaypoint.Graph) (l : Buffer) : Prop :=
  match l with
  | x :: (y :: _) as rest =>
      Some y ∈ SimpleWaypoint.GetNextWaypoint g x ∧ contiguous g rest
  | _ => True
  end.

Definition buffers_contiguous (g : SimpleWaypoint.Graph) (s : Stage) : Prop :=
  ∀ (c : ActorId) (b : Buffer), buffer_map s !! c = Some b → contiguous g b.

(** [keeps I m]: a run of [m] that returns in a stage where [I] holds
    ends in a stage where [I] holds. *)
Definition keeps {A} (I : Stage -> Prop) (m : M A) : Prop :=
  ∀ s a s', m s = Ok (a, s') → I s → I s'.

(** What the safe-point search of lines 176-232 has found lies in the
    buffer [b]: the waypoint it stands at; the junction end, a waypoint
    outside the junction; and the safe point, which is farther from the
    junction end than the safe distance, or has several successors, or is a
    junction waypoint. *)
Definition scan_sound (W : World) (safe_distance_squared : Q) (b : Buffer)
    (st : JunctionScan) : Prop :=
  (∀ c, current_waypoint st = Some c → c ∈ b)
  ∧ (past_junction st = true →
     ∃ j, junction_end st = Some j
          ∧ SimpleWaypoint.CheckJunction (graph W) j = false ∧ j ∈ b)
  ∧ (safe_point_found st = true →
     past_junction st = true
     ∧ ∃ j p, junction_end st = Some j ∧ safe_point_after_junction st = Some p
         ∧ p ∈ b
         ∧ ((safe_distance_squared < SimpleWaypoint.DistanceSquared (graph W) j p)%Q
            ∨ (1 < length (SimpleWaypoint.GetNextWaypoint (graph W) p))%nat
            ∨ SimpleWaypoint.CheckJunction (graph W) p = true)).

(** A road of two lanes: the right neighbour of waypoint [w] of the lane
    0, 1, 2, ... is waypoint [w + 100]. *)
Definition two_lane_road : SimpleWaypoint.Graph :=
  Sample.road (fun _ => false) Sample.onward
    (fun w => if (w <? 100)%N then Some (w + 100)%N else None).

(** Actors 7 and 8 share a grid cell; no waypoint has a passing vehicle
    registered. *)
Definition shared_cell_stage (b7 b8 : Buffer) : Stage :=
  {| buffer_map := {[ 7%N := b7; 8%N := b8 ]};
     track_traffic :=
       {| waypoint_overlap_tracker := ∅;
          actor_to_grids := {[ 7%N := {[ 0%N ]} ]};
          grid_to_actors := {[ 0%N := {[ 7%N; 8%N ]} ]} |};
     output_array := [Sample.no_output; Sample.no_output];
     last_lane_change_location := ∅;
     vehicles_at_junction := ∅;
     rand_calls := 0 |}.

(** The test of lines 318-323: seen from the current waypoint, the front
    waypoint of another vehicle is an obstacle ahead in the same lane. *)
Definition in_lane_obstacle (W : World) (current_waypoint other_current_waypoint : WaypointId)
    : bool :=
  negb (SimpleWaypoint.CheckJunction (graph W) current_waypoint)
  && negb (SimpleWaypoint.CheckJunction (graph W) other_current_waypoint)
  && bool_decide (SimpleWaypoint.GetRoadId (graph W) other_current_waypoint
                  = SimpleWaypoint.GetRoadId (graph W) current_waypoint)
  && bool_decide (SimpleWaypoint.GetLaneId (graph W) other_current_waypoint
                  = SimpleWaypoint.GetLaneId (graph W) current_waypoint)
  && Qgtb (Dot (SimpleWaypoint.GetForwardVector (graph W) current_waypoint)
               (vsub (SimpleWaypoint.GetLocation (graph W) other_current_waypoint)
                     (SimpleWaypoint.GetLocation (graph W) current_waypoint))) 0
  && Qgtb (Dot (SimpleWaypoint.GetForwardVector (graph W) current_waypoint)
               (SimpleWaypoint.GetForwardVector (graph W) other_current_waypoint))
          (MAXIMUM_LANE_OBSTACLE_CURVATURE (constants W)).

(** The squared distance of line 325. *)
Definition obstacle_distance (W : World) (vehicle_location : Location)
    (other_current_waypoint : WaypointId) : Q :=
  DistanceSquared vehicle_location
    (SimpleWaypoint.GetLocation (graph W) other_current_waypoint).

(** What the scan of lines 299-342 knows after the vehicles [seen]: the
    obstacle it remembers, if its id is not 0, is one of them, in the lane
    ahead, beyond the minimum and within the maximum distance; and as long
    as no vehicle was too close, every in-lane vehicle seen is beyond the
    minimum distance and, if within the maximum one, not nearer than the
    remembered minimum. *)
Definition scan_inv (W : World) (vehicle_location : Location)
    (current_waypoint : WaypointId) (s : Stage) (seen : list ActorId)
    (acc : ObstacleScan) : Prop :=
  (obstacle_actor_id acc ≠ 0%N →
   obstacle_actor_id acc ∈ seen
   ∧ ∃ ow r, buffer_map s !! obstacle_actor_id acc = Some (ow :: r)
       ∧ in_lane_obstacle W current_waypoint ow = true
       ∧ minimum_squared_distance acc = Some (obstacle_distance W vehicle_location ow)
       ∧ (SQUARE (MINIMUM_LANE_CHANGE_DISTANCE (constants W))
          < obstacle_distance W vehicle_location ow)%Q
       ∧ (obstacle_distance W vehicle_location ow
          < SQUARE (MAXIMUM_LANE_OBSTACLE_DISTANCE (constants W)))%Q)
  ∧ (obstacle_too_close acc = false →
     ∀ o ow r, o ∈ seen → buffer_map s !! o = Some (ow :: r) →
       in_lane_obstacle W current_waypoint ow = true →
       (SQUARE (MINIMUM_LANE_CHANGE_DISTANCE (constants W))
        < obstacle_distance W vehicle_location ow)%Q
       ∧ ((obstacle_distance W vehicle_location ow
           < SQUARE (MAXIMUM_LANE_OBSTACLE_DISTANCE (constants W)))%Q →
          ∃ m, minimum_squared_distance acc = Some m
               ∧ (m <= obstacle_distance W vehicle_location ow)%Q)).

(** The waypoint the extension loops of lines 205-231 stand at is the
    back of the buffer. *)
Definition at_back (a : ActorId) (s : Stage) (st : JunctionScan) : Prop :=
  ∀ b c, buffer_map s !! a = Some b → current_waypoint st = Some c →
         last b = Some c.

(** Lines 26-84 of [Update], what comes before the initialization of the
    buffer; the result is the flag [is_at_junction_entrance] of line 75. *)
Definition Update_until_purge (W : World) (index : nat) : M bool :=
  actor_id <- at_ (vehicle_id_list W) index;;
  modify (set_buffer_map (fun m =>
            match m !! actor_id with
            | None => <[actor_id := []]> m
            | Some _ => m
            end));;
  clear_stale_buffer W actor_id
    (SimulationState.GetLocation (simulation_state W) actor_id);;
  purge_buffer W actor_id
    (SimulationState.GetLocation (simulation_state W) actor_id)
    (SimulationState.GetHeading (simulation_state W) actor_id)
    (horizon_square_of W (SimulationState.GetSpeed (simulation_state W) actor_id)).

(** The back of a buffer is within the horizon of its front (an empty
    buffer is). *)
Definition within_horizon (g : SimpleWaypoint.Graph) (horizon_square : Q)
    (b : Buffer) : Prop :=
  ∀ front_waypoint back_waypoint,
    head b = Some front_waypoint → last b = Some back_waypoint →
    (SimpleWaypoint.DistanceSquared g back_waypoint front_waypoint <= horizon_square)%Q.

(** The test of the purge of lines 63-72 at a waypoint: the waypoint is
    not ahead of the vehicle. *)
Definition passed (W : World) (actor_id : ActorId) (w : WaypointId) : bool :=
  Qleb (DeviationDotProduct W
          (SimulationState.GetLocation (simulation_state W) actor_id)
          (SimulationState.GetHeading (simulation_state W) actor_id)
          (SimpleWaypoint.GetLocation (graph W) w)) 0.

(** A buffer without its leading passed waypoints, and those waypoints. *)
Fixpoint drop_passed (W : World) (actor_id : ActorId) (l : Buffer) : Buffer :=
  match l with
  | [] => []
  | w :: rest => if passed W actor_id w then drop_passed W actor_id rest else l
  end.

Fixpoint take_passed (W : World) (actor_id : ActorId) (l : Buffer) : Buffer :=
  match l with
  | [] => []
  | w :: rest => if passed W actor_id w then w :: take_passed W actor_id rest else []
  end.

(** A second actor, 8, beside actor 7: it has a buffer, an entry in the
    lane-change memory, is tracked at a junction, and has the output
    record at index 1. *)
Definition two_actor_stage : Stage :=
  {| buffer_map := {[ 7%N := [0%N; 1%N]; 8%N := [5%N; 6%N] ]};
     track_traffic := Sample.no_traffic;
     output_array := [Sample.no_output; Sample.stale_output];
     last_lane_change_location := {[ 8%N := mkLoc 50 0 0 ]};
     vehicles_at_junction := {[ 8%N ]};
     rand_calls := 0 |}.

(** ** Predicates on runs and stages *)

(** [preserves f m]: a run of [m] that returns leaves the view [f] of the
    stage as it was. *)
Definition preserves {A X} (f : Stage -> X) (m : M A) : Prop :=
  ∀ s a s', m s = Ok (a, s') → f s' = f s.

(** A run that does not look at the stage: it returns [r] in whatever
    stage it is started. *)
Definition pure_res {A} (r : Res A) : M A :=
  fun s => match r with
           | Ok a => Ok (a, s)
           | Err f => Err f
           end.

(** [returns P m]: the value of a run of [m] that returns satisfies [P]. *)
Definition returns {A} (P : A -> Prop) (m : M A) : Prop :=
  ∀ s a s', m s = Ok (a, s') → P a.

(** What the junction handling keeps between ticks and what it writes. *)
Definition junction_view (s : Stage) : list LocalizationData * gset ActorId :=
  (output_array s, vehicles_at_junction s).

(** What the search keeps true of its variables: the safe point is set
    when found, which happens past the junction only, and the junction end
    is set once past the junction. *)
Definition scan_ok (st : JunctionScan) : Prop :=
  (safe_point_found st = true →
     past_junction st = true ∧ is_Some (safe_point_after_junction st))
  ∧ (past_junction st = true → is_Some (junction_end st)).

(** The buffer of the actor has only been appended to. *)
Definition buffer_extended (actor_id : ActorId) (s s' : Stage) : Prop :=
  ∀ b, buffer_map s !! actor_id = Some b →
       ∃ ext, buffer_map s' !! actor_id = Some (b ++ ext).

(** ** Reasoning in the monad *)

Lemma bind_Ok {A B} (m : M A) (k : A -> M B) s a s1 :
  m s = Ok (a, s1) → bind m k s = k a s1.
Proof. intros H. unfold bind. by rewrite H. Qed.

Lemma bind_ret {A B} (a : A) (k : A -> M B) s : bind (ret a) k s = k a s.
Proof. reflexivity. Qed.

Lemma bind_Err {A B} (m : M A) (k : A -> M B) s f :
  m s = Err f → bind m k s = Err f.
Proof. intros H. unfold bind. by rewrite H. Qed.

Lemma bind_Ok_inv {A B} (m : M A) (k : A -> M B) s b s2 :
  bind m k s = Ok (b, s2) → ∃ a s1, m s = Ok (a, s1) ∧ k a s1 = Ok (b, s2).
Proof.
  unfold bind. destruct (m s) as [[a s1]|f]; [eauto | discriminate].
Qed.

Lemma deref_Ok_inv p s w s' : deref p s = Ok (w, s') → p = Some w ∧ s' = s.
Proof. destruct p; unfold deref, ret, fault; intros H; by simplify_eq. Qed.

Lemma front_Ok_inv {A} (l : list A) s x s' :
  front l s = Ok (x, s') → head l = Some x ∧ s' = s.
Proof. destruct l; unfold front, ret, fault; intros H; by simplify_eq. Qed.

Lemma back_Ok_inv {A} (l : list A) s x s' :
  back l s = Ok (x, s') → last l = Some x ∧ s' = s.
Proof.
  unfold back. destruct (last l); unfold ret, fault; intros H; by simplify_eq.
Qed.

Lemma at_Ok_inv {A} (l : list A) i s x s' :
  at_ l i s = Ok (x, s') → l !! i = Some x ∧ s' = s.
Proof.
  unfold at_. destruct (l !! i); unfold ret, fault; intros H; by simplify_eq.
Qed.

Lemma buffer_at_Ok_inv a s b s' :
  buffer_at a s = Ok (b, s') → buffer_map s !! a = Some b ∧ s' = s.
Proof.
  unfold buffer_at. destruct (buffer_map s !! a); intros H; by simplify_eq.
Qed.

Lemma buffer_at_Ok a s b : buffer_map s !! a = Some b → buffer_at a s = Ok (b, s).
Proof. intros H. unfold buffer_at. by rewrite H. Qed.

Lemma at_Ok {A} (l : list A) i x s : l !! i = Some x → at_ l i s = Ok (x, s).
Proof. intros H. unfold at_. by rewrite H. Qed.

Lemma modify_Ok f s : modify f s = Ok (tt, f s).
Proof. reflexivity. Qed.

Section Preserves.
Context {X : Type} (f : Stage -> X).

Lemma preserves_ret {A} (a : A) : preserves f (ret a).
Proof. intros s a' s' H. unfold ret in H. by simplify_eq. Qed.

Lemma preserves_fault {A} e : preserves f (@fault A e).
Proof. intros s a' s' H. discriminate. Qed.

Lemma preserves_gets {A} (g : Stage -> A) : preserves f (gets g).
Proof. intros s a' s' H. unfold gets in H. by simplify_eq. Qed.

Lemma preserves_bind {A B} (m : M A) (k : A -> M B) :
  preserves f m → (∀ a, preserves f (k a)) → preserves f (bind m k).
Proof.
  intros Hm Hk s b s2 H.
  apply bind_Ok_inv in H as (a & s1 & H1 & H2).
  rewrite (Hk _ _ _ _ H2). eauto.
Qed.

Lemma preserves_modify (g : Stage -> Stage) :
  (∀ s, f (g s) = f s) → preserves f (modify g).
Proof. intros Hg s a' s' H. unfold modify in H. by simplify_eq. Qed.

Lemma preserves_deref p : preserves f (deref p).
Proof. destruct p; [apply preserves_ret | apply preserves_fault]. Qed.

Lemma preserves_front {A} (l : list A) : preserves f (front l).
Proof. destruct l; [apply preserves_fault | apply preserves_ret]. Qed.

Lemma preserves_back {A} (l : list A) : preserves f (back l).
Proof.
  unfold back. destruct (last l); [apply preserves_ret | apply preserves_fault].
Qed.

Lemma preserves_at {A} (l : list A) i : preserves f (at_ l i).
Proof.
  unfold at_. destruct (l !! i); [apply preserves_ret | apply preserves_fault].
Qed.

Lemma preserves_buffer_at a : preserves f (buffer_at a).
Proof. intros s b s' H. apply buffer_at_Ok_inv in H as [_ ->]. done. Qed.
End Preserves.

Create HintDb frame.
#[export] Hint Resolve preserves_ret preserves_fault preserves_gets preserves_deref
  preserves_front preserves_back preserves_at preserves_buffer_at : frame.

(** One step of a frame proof: follow the shape of the program. *)
Ltac frame_step :=
  lazymatch goal with
  | |- preserves _ (bind _ _) => apply preserves_bind; [ | intros ? ]
  | |- preserves _ (match ?x with _ => _ end) => destruct x
  | |- preserves _ (modify _) => apply preserves_modify; intros []; reflexivity
  | |- preserves _ _ => solve [ eauto with frame ]
  end.
Ltac frame := repeat frame_step.

Section ReadOnly.
Context (W : World).

Lemma check_blocking_vehicle_read_only loc cur other acc :
  preserves id (check_blocking_vehicle W loc cur other acc).
Proof. unfold check_blocking_vehicle. frame. Qed.
Hint Resolve check_blocking_vehicle_read_only : frame.

Lemma scan_blocking_vehicles_read_only force loc cur l acc :
  preserves id (scan_blocking_vehicles W force loc cur l acc).
Proof. revert acc. induction l as [|o l IH]; intros acc; simpl; frame. Qed.

Lemma lane_free_read_only p : preserves id (lane_free p).
Proof. unfold lane_free. frame. Qed.

Lemma advance_change_over_read_only fuel start p d :
  preserves id (advance_change_over W fuel start p d).
Proof. revert p. induction fuel as [|n IH]; intros p; simpl; frame. Qed.
Hint Resolve scan_blocking_vehicles_read_only lane_free_read_only
  advance_change_over_read_only : frame.

Lemma choose_change_over_point_read_only force direction scan left right :
  preserves id (choose_change_over_point W force direction scan left right).
Proof. unfold choose_change_over_point. frame. Qed.
Hint Resolve choose_change_over_point_read_only : frame.

Lemma AssignLaneChange_preserves_stage fuel a loc speed force dir :
  preserves id (AssignLaneChange W fuel a loc speed force dir).
Proof. unfold AssignLaneChange. frame. Qed.
End ReadOnly.

(** ** [RemoveActor] *)

(** C5. [RemoveActor] never faults; calling it twice in succession on an
    actor id leaves the stage exactly as calling it once does; and it
    leaves the stage as it is when the actor has an entry neither in the
    lane-change memory nor in the junction-tracking set. *)
Theorem RemoveActor_idempotent (actor_id : ActorId) (s : Stage) :
  ∃ s1, RemoveActor actor_id s = Ok (tt, s1)
        ∧ (RemoveActor actor_id;; RemoveActor actor_id) s = Ok (tt, s1)
        ∧ (last_lane_change_location s !! actor_id = None →
           actor_id ∉ vehicles_at_junction s → s1 = s).
Proof.
  destruct s as [bm tt out llc vj rc].
  unfold RemoveActor, bind, modify, set_last_lane_change_location,
    set_vehicles_at_junction; simpl.
  eexists. split; [reflexivity |]. split.
  - f_equal. f_equal. f_equal.
    + destruct (llc !! actor_id) eqn:E.
      * by rewrite lookup_delete_eq.
      * by rewrite E.
    + destruct (bool_decide (actor_id ∈ vj)) eqn:E.
      * rewrite bool_decide_eq_false_2; [done |].
        rewrite elem_of_difference, elem_of_singleton. by intros [_ Hn].
      * by rewrite E.
  - intros Hnone Hnotin.
    rewrite Hnone. by rewrite bool_decide_eq_false_2.
Qed.

Lemma RemoveActor_idempotent_witness :
  ∃ s1, RemoveActor 7%N (Sample.stage None Sample.no_output) = Ok (tt, s1)
        ∧ s1 = Sample.stage None Sample.no_output.
Proof.
  destruct (RemoveActor_idempotent 7%N (Sample.stage None Sample.no_output))
    as (s1 & H1 & _ & H3).
  exists s1. split; [exact H1 |].
  apply H3; [reflexivity | vm_compute; set_solver].
Defined.

(** ** [AssignLaneChange] *)

(** C9. [AssignLaneChange] is read-only: whatever it is called with, when
    it returns (a change-over point or none) the stage is the one it was
    called in; so is every waypoint buffer and every cell of the
    track-traffic registry. *)
Theorem AssignLaneChange_read_only (W : World) fuel actor_id vehicle_location
    vehicle_speed force direction (s s' : Stage) change_over_point :
  AssignLaneChange W fuel actor_id vehicle_location vehicle_speed force direction s
    = Ok (change_over_point, s') →
  s' = s ∧ buffer_map s' = buffer_map s ∧ track_traffic s' = track_traffic s.
Proof.
  intros H. apply AssignLaneChange_preserves_stage in H. unfold id in H.
  by subst.
Qed.

Lemma AssignLaneChange_read_only_witness :
  ∃ s', AssignLaneChange (Sample.world Sample.right_lane_road 0) 5 7%N
          (mkLoc 0 0 0) 20 true true (Sample.stage (Some [0%N]) Sample.no_output)
        = Ok (Some 101%N, s')
      ∧ s' = Sample.stage (Some [0%N]) Sample.no_output.
Proof.
  eexists. split; [vm_compute; reflexivity |].
  eapply (AssignLaneChange_read_only (Sample.world Sample.right_lane_road 0) 5 7%N
            (mkLoc 0 0 0) 20 true true).
  vm_compute; reflexivity.
Defined.

Section LaneChange.
Context (W : World).
Let G := graph W.

Lemma advance_change_over_pure fuel start p d :
  ∃ r, ∀ s, advance_change_over W fuel start p d s = pure_res r s.
Proof.
  revert p. induction fuel as [|n IH]; intros p; simpl.
  - destruct (_ && _); [by exists (Err OutOfFuel) | by exists (Ok p)].
  - destruct (_ && _); [| by exists (Ok p)].
    destruct (SimpleWaypoint.GetNextWaypoint (graph W) p) as [|[w|] l].
    + by exists (Err EmptyContainer).
    + destruct (IH w) as [r Hr]. exists r. intros s. apply Hr.
    + by exists (Err NullPointer).
Qed.

(** With [force] set the scan of the blocking vehicles does not run. *)
Lemma scan_blocking_vehicles_forced loc cur l acc s :
  scan_blocking_vehicles W true loc cur l acc s = Ok (acc, s).
Proof. destruct l; simpl; [done |]. by rewrite andb_false_r. Qed.

Lemma AssignLaneChange_forced_eq fuel a loc speed direction s front_waypoint rest :
  buffer_map s !! a = Some (front_waypoint :: rest) →
  AssignLaneChange W fuel a loc speed true direction s =
  match (if direction then SimpleWaypoint.GetRightWaypoint G front_waypoint
         else SimpleWaypoint.GetLeftWaypoint G front_waypoint) with
  | Some starting_point =>
      (w <- advance_change_over W fuel starting_point starting_point
              (Clamp ((3 # 2) * speed) 3 20);;
       ret (Some w)) s
  | None => Ok (None, s)
  end.
Proof.
  intros Hbuf. unfold AssignLaneChange.
  rewrite (bind_Ok _ _ _ _ _ (buffer_at_Ok _ _ _ Hbuf)).
  unfold gets at 1. unfold bind at 1.
  rewrite (bind_Ok _ _ _ _ _ (scan_blocking_vehicles_forced _ _ _ _ _)).
  unfold choose_change_over_point.
  cbn [obstacle_too_close obstacle_actor_id negb andb].
  subst G.
  destruct direction; cbn [negb andb].
  - destruct (SimpleWaypoint.GetRightWaypoint (graph W) front_waypoint); done.
  - destruct (SimpleWaypoint.GetLeftWaypoint (graph W) front_waypoint); done.
Qed.
End LaneChange.

(** C6. A forced lane change for an actor with a non-empty buffer: asked
    to the right when the front waypoint has no right neighbour, or to the
    left when it has no left neighbour, [AssignLaneChange] returns none and
    leaves the stage, hence the buffer, as it is, and so does the
    lane-change step of [Update].  The registry has no say in a forced
    change: the result is the same whatever the registry holds, and it is
    the neighbour on the chosen side, advanced by the change-over loop. *)
Theorem AssignLaneChange_forced (W : World) fuel actor_id vehicle_location
    vehicle_speed (s : Stage) front_waypoint rest :
  buffer_map s !! actor_id = Some (front_waypoint :: rest) →
  (SimpleWaypoint.GetRightWaypoint (graph W) front_waypoint = None →
     AssignLaneChange W fuel actor_id vehicle_location vehicle_speed true true s
       = Ok (None, s)
     ∧ (Parameters.GetForceLaneChange (parameters W) actor_id = (true, true) →
        lane_change W fuel actor_id vehicle_location vehicle_speed s = Ok (tt, s)))
  ∧ (SimpleWaypoint.GetLeftWaypoint (graph W) front_waypoint = None →
     AssignLaneChange W fuel actor_id vehicle_location vehicle_speed true false s
       = Ok (None, s)
     ∧ (Parameters.GetForceLaneChange (parameters W) actor_id = (true, false) →
        lane_change W fuel actor_id vehicle_location vehicle_speed s = Ok (tt, s)))
  ∧ (∀ direction (registry : TrackTraffic),
       result_of (AssignLaneChange W fuel actor_id vehicle_location vehicle_speed
                    true direction (set_track_traffic (fun _ => registry) s))
       = result_of (AssignLaneChange W fuel actor_id vehicle_location vehicle_speed
                      true direction s))
  ∧ (∀ (direction : bool) neighbour,
       (if direction then SimpleWaypoint.GetRightWaypoint (graph W) front_waypoint
        else SimpleWaypoint.GetLeftWaypoint (graph W) front_waypoint) = Some neighbour →
       AssignLaneChange W fuel actor_id vehicle_location vehicle_speed true direction s
       = (w <- advance_change_over W fuel neighbour neighbour
                 (Clamp ((3 # 2) * vehicle_speed) 3 20);;
          ret (Some w)) s).
Proof.
  intros Hbuf.
  assert (Hnone : ∀ direction : bool,
    (if direction then SimpleWaypoint.GetRightWaypoint (graph W) front_waypoint
     else SimpleWaypoint.GetLeftWaypoint (graph W) front_waypoint) = None →
    AssignLaneChange W fuel actor_id vehicle_location vehicle_speed true direction s
      = Ok (None, s)
    ∧ (Parameters.GetForceLaneChange (parameters W) actor_id = (true, direction) →
       lane_change W fuel actor_id vehicle_location vehicle_speed s = Ok (tt, s))).
  { intros direction Hn.
    assert (Hret : AssignLaneChange W fuel actor_id vehicle_location vehicle_speed
                     true direction s = Ok (None, s)).
    { rewrite (AssignLaneChange_forced_eq W _ _ _ _ _ _ _ _ Hbuf). by rewrite Hn. }
    split; [exact Hret |]. intros Hforce.
    unfold lane_change. rewrite Hforce. cbn [fst snd negb].
    unfold ret at 1. unfold bind at 1.
    rewrite (bind_Ok _ _ _ _ _ (buffer_at_Ok _ _ _ Hbuf)).
    unfold front, ret at 1. unfold bind at 1.
    unfold gets at 1. unfold bind at 1.
    destruct (_ && _); [| done].
    by rewrite (bind_Ok _ _ _ _ _ Hret). }
  split; [apply (Hnone true) |]. split; [apply (Hnone false) |]. split.
  - intros direction registry.
    rewrite (AssignLaneChange_forced_eq W _ _ _ _ _ _ _ _ Hbuf).
    rewrite (AssignLaneChange_forced_eq W _ _ _ _ _ _ front_waypoint rest)
      by (destruct s; exact Hbuf).
    destruct (if direction then _ else _) as [start|]; [| done].
    destruct (advance_change_over_pure W fuel start start
                (Clamp ((3 # 2) * vehicle_speed) 3 20)) as [r Hr].
    unfold bind. rewrite !Hr. by destruct r.
  - intros direction neighbour Hn.
    rewrite (AssignLaneChange_forced_eq W _ _ _ _ _ _ _ _ Hbuf). by rewrite Hn.
Qed.

Lemma AssignLaneChange_forced_witness :
  AssignLaneChange (Sample.world_with (true, true) Sample.straight_road 0) 5 7%N
    (mkLoc 0 0 0) 0 true true (Sample.stage (Some [0%N; 1%N]) Sample.no_output)
  = Ok (None, Sample.stage (Some [0%N; 1%N]) Sample.no_output)
  ∧ lane_change (Sample.world_with (true, true) Sample.straight_road 0) 5 7%N
      (mkLoc 0 0 0) 0 (Sample.stage (Some [0%N; 1%N]) Sample.no_output)
    = Ok (tt, Sample.stage (Some [0%N; 1%N]) Sample.no_output).
Proof.
  destruct (AssignLaneChange_forced
              (Sample.world_with (true, true) Sample.straight_road 0) 5 7%N
              (mkLoc 0 0 0) 0 (Sample.stage (Some [0%N; 1%N]) Sample.no_output)
              0%N [1%N]) as [Hright _]; [reflexivity |].
  destruct Hright as [H1 H2]; [reflexivity |].
  split; [exact H1 | apply H2; reflexivity].
Defined.

Section ChangeOverPoint.
Context (W : World).

Lemma advance_change_over_stops fuel start p d s w s' :
  advance_change_over W fuel start p d s = Ok (w, s') →
  ∃ k, (k ≤ fuel)%nat
       ∧ nth_successor (graph W) k p = Some w
       ∧ (∀ i q, (i < k)%nat → nth_successor (graph W) i p = Some q →
                 keeps_advancing (graph W) start d q = true)
       ∧ keeps_advancing (graph W) start d w = false.
Proof.
  revert p s. induction fuel as [|n IH]; intros p s; simpl;
    fold (keeps_advancing (graph W) start d p);
    destruct (keeps_advancing (graph W) start d p) eqn:Hk;
    unfold ret, fault; intros H; simplify_eq.
  - exists 0%nat. split; [lia |]. split; [done |]. split; [intros; lia | done].
  - apply bind_Ok_inv in H as (nx & s1 & Hfront & H).
    apply front_Ok_inv in Hfront as [Hhead ->].
    apply bind_Ok_inv in H as (w1 & s2 & Hderef & H).
    apply deref_Ok_inv in Hderef as [-> ->].
    apply IH in H as (k & Hle & Hnth & Hbefore & Hstop).
    assert (Hfs : first_successor (graph W) p = Some w1).
    { unfold first_successor.
      destruct (SimpleWaypoint.GetNextWaypoint (graph W) p); by simplify_eq/=. }
    exists (S k). split; [lia |]. split; [simpl; by rewrite Hfs |].
    split; [| done].
    intros [|i] q Hi Hq; simpl in Hq.
    + by simplify_eq.
    + rewrite Hfs in Hq. apply (Hbefore i); [lia | done].
  - exists 0%nat. split; [lia |]. split; [done |]. split; [intros; lia | done].
Qed.

Lemma advance_change_over_reaches k fuel start p d s w :
  (k ≤ fuel)%nat →
  nth_successor (graph W) k p = Some w →
  (∀ i q, (i < k)%nat → nth_successor (graph W) i p = Some q →
          keeps_advancing (graph W) start d q = true) →
  keeps_advancing (graph W) start d w = false →
  advance_change_over W fuel start p d s = Ok (w, s).
Proof.
  revert fuel p. induction k as [|k IH]; intros fuel p Hle Hnth Hbefore Hstop.
  - simpl in Hnth. simplify_eq.
    destruct fuel; simpl; fold (keeps_advancing (graph W) start d w);
      by rewrite Hstop.
  - destruct fuel as [|n]; [lia |].
    simpl. fold (keeps_advancing (graph W) start d p).
    rewrite (Hbefore 0%nat p) by (done || lia).
    simpl in Hnth. unfold first_successor in Hnth.
    destruct (SimpleWaypoint.GetNextWaypoint (graph W) p) as [|[nx|] l] eqn:Hnext;
      try discriminate.
    unfold front, deref, ret, bind. 
    apply IH; [lia | done | | done].
    intros i q Hi Hq. apply (Hbefore (S i)); [lia |].
    simpl. unfold first_successor. by rewrite Hnext.
Qed.
End ChangeOverPoint.

Lemma returns_ret {A} (P : A -> Prop) a : P a → returns P (ret a).
Proof. intros HP s a' s' H. unfold ret in H. by simplify_eq. Qed.

Lemma returns_fault {A} (P : A -> Prop) e : returns P (fault e).
Proof. intros s a' s' H. discriminate. Qed.

Lemma returns_bind {A B} (P : B -> Prop) (m : M A) (k : A -> M B) :
  (∀ a, returns P (k a)) → returns P (bind m k).
Proof.
  intros Hk s b s2 H. apply bind_Ok_inv in H as (a & s1 & _ & H2).
  by apply (Hk a s1 b s2).
Qed.

Ltac returns_step :=
  lazymatch goal with
  | |- returns _ (bind _ _) => apply returns_bind; intros ?
  | |- returns _ (match ?x with _ => _ end) => destruct x eqn:?
  | |- returns _ (ret _) => apply returns_ret
  | |- returns _ (fault _) => apply returns_fault
  end.

Section ChangeOverChoice.
Context (W : World).

Lemma choose_change_over_point_returns force direction scan left right :
  returns (fun c => c = None ∨ c = left ∨ c = right)
          (choose_change_over_point W force direction scan left right).
Proof. unfold choose_change_over_point. repeat returns_step; auto. Qed.

(** A change-over point that [AssignLaneChange] returns is what the loop
    of lines 401-405 makes of the left or of the right neighbour of the
    front waypoint. *)
Lemma AssignLaneChange_Some_inv fuel a loc speed force direction s w s' :
  AssignLaneChange W fuel a loc speed force direction s = Ok (Some w, s') →
  ∃ front_waypoint rest starting_point,
    buffer_map s !! a = Some (front_waypoint :: rest)
    ∧ (SimpleWaypoint.GetLeftWaypoint (graph W) front_waypoint = Some starting_point
       ∨ SimpleWaypoint.GetRightWaypoint (graph W) front_waypoint = Some starting_point)
    ∧ advance_change_over W fuel starting_point starting_point
        (Clamp ((3 # 2) * speed) 3 20) s = Ok (w, s).
Proof.
  intros H. unfold AssignLaneChange in H.
  apply bind_Ok_inv in H as (b & s1 & Hb & H).
  apply buffer_at_Ok_inv in Hb as [Hb ->].
  destruct b as [|front_waypoint rest]; [unfold ret in H; by simplify_eq |].
  exists front_waypoint, rest.
  apply bind_Ok_inv in H as (tt & s1 & Htt & H).
  unfold gets in Htt. injection Htt as <- <-.
  apply bind_Ok_inv in H as (scan & s2 & Hscan & H).
  apply scan_blocking_vehicles_read_only in Hscan as Hs. unfold id in Hs. subst s2.
  apply bind_Ok_inv in H as (cop & s3 & Hcop & H).
  apply choose_change_over_point_read_only in Hcop as Hs. unfold id in Hs. subst s3.
  apply choose_change_over_point_returns in Hcop.
  destruct cop as [starting_point|]; [| unfold ret in H; by simplify_eq].
  exists starting_point. split; [done |].
  split; [destruct Hcop as [?|[?|?]]; by auto |].
  apply bind_Ok_inv in H as (w' & s4 & Hadv & H).
  unfold ret in H. injection H as -> ->.
  apply advance_change_over_read_only in Hadv as Hs. unfold id in Hs. by subst.
Qed.
End ChangeOverChoice.

Lemma Qltb_true a b : Qltb a b = true ↔ (a < b)%Q.
Proof.
  unfold Qltb. rewrite negb_true_iff, <- not_true_iff_false, Qle_bool_iff.
  split; [apply Qnot_le_lt | apply Qlt_not_le].
Qed.

Lemma Qltb_false a b : Qltb a b = false ↔ (b <= a)%Q.
Proof. unfold Qltb. by rewrite negb_false_iff, Qle_bool_iff. Qed.

Lemma Qleb_true a b : Qleb a b = true ↔ (a <= b)%Q.
Proof. apply Qle_bool_iff. Qed.

Lemma Qleb_false a b : Qleb a b = false ↔ (b < a)%Q.
Proof.
  unfold Qleb. rewrite <- not_true_iff_false, Qle_bool_iff.
  split; [apply Qnot_le_lt | apply Qlt_not_le].
Qed.

Lemma keeps_advancing_true g start d q :
  keeps_advancing g start d q = true ↔
  (SimpleWaypoint.DistanceSquared g q start < SQUARE d)%Q
  ∧ SimpleWaypoint.CheckJunction g q = false.
Proof.
  unfold keeps_advancing. by rewrite andb_true_iff, Qltb_true, negb_true_iff.
Qed.

Lemma keeps_advancing_false g start d q :
  keeps_advancing g start d q = false ↔
  (SQUARE d <= SimpleWaypoint.DistanceSquared g q start)%Q
  ∨ SimpleWaypoint.CheckJunction g q = true.
Proof.
  unfold keeps_advancing. by rewrite andb_false_iff, Qltb_false, negb_false_iff.
Qed.

(** C8, as the code has it.  A change-over point that [AssignLaneChange]
    returns is a point [w] on the chain of first successors of the left or
    right neighbour of the front waypoint, such that every earlier point of
    the chain is closer to the neighbour than [Clamp (1.5 * speed) 3 20]
    (squared distance against the square of it) and is no junction
    waypoint, and [w] itself is at least that far or is a junction
    waypoint: the first junction waypoint of the chain may be returned, no
    point after it.  Conversely a forced change whose side has a neighbour
    with such a point within the fuel returns it. *)
Theorem AssignLaneChange_change_over_point (W : World) fuel actor_id
    vehicle_location vehicle_speed (s : Stage) :
  (∀ force direction w s',
     AssignLaneChange W fuel actor_id vehicle_location vehicle_speed force direction s
       = Ok (Some w, s') →
     ∃ front_waypoint rest neighbour k,
       buffer_map s !! actor_id = Some (front_waypoint :: rest)
       ∧ (SimpleWaypoint.GetLeftWaypoint (graph W) front_waypoint = Some neighbour
          ∨ SimpleWaypoint.GetRightWaypoint (graph W) front_waypoint = Some neighbour)
       ∧ (k ≤ fuel)%nat
       ∧ stops_at (graph W) neighbour (Clamp ((3 # 2) * vehicle_speed) 3 20) k w)
  ∧ (∀ (direction : bool) front_waypoint rest neighbour k w,
       buffer_map s !! actor_id = Some (front_waypoint :: rest) →
       (if direction then SimpleWaypoint.GetRightWaypoint (graph W) front_waypoint
        else SimpleWaypoint.GetLeftWaypoint (graph W) front_waypoint) = Some neighbour →
       (k ≤ fuel)%nat →
       stops_at (graph W) neighbour (Clamp ((3 # 2) * vehicle_speed) 3 20) k w →
       AssignLaneChange W fuel actor_id vehicle_location vehicle_speed true direction s
         = Ok (Some w, s)).
Proof.
  split.
  - intros force direction w s' H.
    apply AssignLaneChange_Some_inv in H as (fw & rest & start & Hb & Hside & Hadv).
    apply advance_change_over_stops in Hadv as (k & Hle & Hnth & Hbefore & Hstop).
    exists fw, rest, start, k. split; [done |]. split; [done |].
    split; [done |]. split; [done |]. split.
    + intros i q Hi Hq. apply keeps_advancing_true, (Hbefore i); done.
    + by apply keeps_advancing_false.
  - intros direction fw rest start k w Hb Hside Hle (Hnth & Hbefore & Hstop).
    rewrite (AssignLaneChange_forced_eq W _ _ _ _ _ _ _ _ Hb), Hside.
    erewrite bind_Ok; [reflexivity |].
    apply (advance_change_over_reaches W k); [done | done | | ].
    + intros i q Hi Hq. apply keeps_advancing_true. by apply (Hbefore i).
    + by apply keeps_advancing_false.
Qed.

Lemma AssignLaneChange_change_over_point_witness :
  AssignLaneChange (Sample.world Sample.right_lane_road 0) 5 7%N
    (mkLoc 0 0 0) 20 true true (Sample.stage (Some [0%N]) Sample.no_output)
  = Ok (Some 101%N, Sample.stage (Some [0%N]) Sample.no_output).
Proof.
  apply (AssignLaneChange_change_over_point (Sample.world Sample.right_lane_road 0)
           5 7%N (mkLoc 0 0 0) 20 (Sample.stage (Some [0%N]) Sample.no_output))
    with (front_waypoint := 0%N) (rest := []) (neighbour := 100%N) (k := 1%nat).
  - reflexivity.
  - reflexivity.
  - lia.
  - split; [reflexivity |]. split.
    + intros i q Hi Hq. assert (i = 0%nat) as -> by lia.
      simpl in Hq. injection Hq as <-. split; [by vm_compute | reflexivity].
    + right. reflexivity.
Defined.

(** C8, the counterexample.  On the sample road the right neighbour of the
    front waypoint is waypoint 100, no junction waypoint; its successor 101
    is one, 10 away, and the change-over distance at speed 20 is 20.  The
    forced change to the right returns waypoint 101: a point inside the
    junction. *)
Lemma AssignLaneChange_returns_junction_waypoint :
  AssignLaneChange (Sample.world Sample.right_lane_road 0) 5 7%N (mkLoc 0 0 0) 20
    true true (Sample.stage (Some [0%N]) Sample.no_output)
  = Ok (Some 101%N, Sample.stage (Some [0%N]) Sample.no_output)
  ∧ SimpleWaypoint.GetRightWaypoint Sample.right_lane_road 0%N = Some 100%N
  ∧ SimpleWaypoint.CheckJunction Sample.right_lane_road 100%N = false
  ∧ SimpleWaypoint.CheckJunction Sample.right_lane_road 101%N = true.
Proof. repeat split; vm_compute; reflexivity. Qed.

(** ** The phases of [Update] *)

Lemma preserves_read_only {A X} (f : Stage -> X) (m : M A) :
  preserves id m → preserves f m.
Proof. intros Hm s a s' H. apply Hm in H. unfold id in H. by subst. Qed.

Lemma PushWaypoint_Ok a w b s :
  buffer_map s !! a = Some b →
  PushWaypoint a (Some w) s
  = Ok (tt, set_track_traffic (TrackTrafficOps.UpdatePassingVehicle w a)
              (set_buffer_map <[a := b ++ [w]]> s)).
Proof.
  intros Hb. unfold PushWaypoint, deref. unfold ret at 1. unfold bind at 1.
  by rewrite (bind_Ok _ _ _ _ _ (buffer_at_Ok _ _ _ Hb)).
Qed.

Lemma PushWaypoint_Ok_inv a p s u s' :
  PushWaypoint a p s = Ok (u, s') →
  ∃ w b, p = Some w ∧ buffer_map s !! a = Some b
         ∧ s' = set_track_traffic (TrackTrafficOps.UpdatePassingVehicle w a)
                  (set_buffer_map <[a := b ++ [w]]> s).
Proof.
  intros H. unfold PushWaypoint in H.
  apply bind_Ok_inv in H as (w & s1 & Hw & H).
  apply deref_Ok_inv in Hw as [-> ->].
  apply bind_Ok_inv in H as (b & s2 & Hb & H).
  apply buffer_at_Ok_inv in Hb as [Hb ->].
  exists w, b. unfold bind, modify in H. by simplify_eq.
Qed.

Lemma PopWaypoint_front_Ok a w b s :
  buffer_map s !! a = Some (w :: b) →
  PopWaypoint a true s
  = Ok (tt, set_track_traffic (TrackTrafficOps.RemovePassingVehicle w a)
              (set_buffer_map <[a := b]> s)).
Proof.
  intros Hb. unfold PopWaypoint.
  by rewrite (bind_Ok _ _ _ _ _ (buffer_at_Ok _ _ _ Hb)).
Qed.

Section Frames.
Context (W : World).

Lemma rand_junction_view : preserves junction_view (rand W).
Proof. intros s r s' H. unfold rand in H. by simplify_eq. Qed.

Lemma PushWaypoint_junction_view a p : preserves junction_view (PushWaypoint a p).
Proof. unfold PushWaypoint. frame. Qed.

Lemma PopWaypoint_junction_view a fb : preserves junction_view (PopWaypoint a fb).
Proof. unfold PopWaypoint. frame. Qed.
Hint Resolve rand_junction_view PushWaypoint_junction_view
  PopWaypoint_junction_view : frame.

Lemma pop_all_junction_view n a : preserves junction_view (pop_all n a).
Proof. induction n; simpl; frame. Qed.
Hint Resolve pop_all_junction_view : frame.

Lemma clear_stale_buffer_junction_view a loc :
  preserves junction_view (clear_stale_buffer W a loc).
Proof. unfold clear_stale_buffer. frame. Qed.

Lemma purge_passed_junction_view n a loc h d :
  preserves junction_view (purge_passed W n a loc h d).
Proof. revert d. induction n; intros d; simpl; frame. Qed.

Lemma purge_far_junction_view n a e h2 :
  preserves junction_view (purge_far W n a e h2).
Proof. induction n; simpl; frame. Qed.
Hint Resolve clear_stale_buffer_junction_view purge_passed_junction_view
  purge_far_junction_view : frame.

Lemma purge_buffer_junction_view a loc h h2 :
  preserves junction_view (purge_buffer W a loc h h2).
Proof. unfold purge_buffer. frame. Qed.

Lemma initialize_buffer_junction_view a loc :
  preserves junction_view (initialize_buffer W a loc).
Proof. unfold initialize_buffer. frame. Qed.

Lemma AssignLaneChange_junction_view fuel a loc speed force dir :
  preserves junction_view (AssignLaneChange W fuel a loc speed force dir).
Proof. apply preserves_read_only, AssignLaneChange_preserves_stage. Qed.
Hint Resolve purge_buffer_junction_view initialize_buffer_junction_view
  AssignLaneChange_junction_view : frame.

Lemma lane_change_junction_view fuel a loc speed :
  preserves junction_view (lane_change W fuel a loc speed).
Proof. unfold lane_change. frame. Qed.

Lemma populate_buffer_junction_view fuel a h2 :
  preserves junction_view (populate_buffer W fuel a h2).
Proof. induction fuel; simpl; frame. Qed.
Hint Resolve lane_change_junction_view populate_buffer_junction_view : frame.

End Frames.

(** ** The safe-point search *)

Lemma buffer_extended_refl a s : buffer_extended a s s.
Proof. intros b Hb. exists []. by rewrite app_nil_r. Qed.

Lemma buffer_extended_trans a s1 s2 s3 :
  buffer_extended a s1 s2 → buffer_extended a s2 s3 → buffer_extended a s1 s3.
Proof.
  intros H12 H23 b Hb. destruct (H12 b Hb) as [e1 H1].
  destruct (H23 _ H1) as [e2 H2]. exists (e1 ++ e2). by rewrite app_assoc.
Qed.

Lemma PushWaypoint_buffer_extended a p s u s' :
  PushWaypoint a p s = Ok (u, s') → buffer_extended a s s'.
Proof.
  intros H. apply PushWaypoint_Ok_inv in H as (w & b & -> & Hb & ->).
  intros b' Hb'. exists [w]. simpl. rewrite lookup_insert_eq. congruence.
Qed.

Section SafePointSearch.
Context (W : World).

Lemma scan_point_read_only safe2 wp st : preserves id (scan_point W safe2 wp st).
Proof. unfold scan_point. frame. Qed.
Hint Resolve scan_point_read_only : frame.

Lemma scan_buffer_read_only safe2 l st : preserves id (scan_buffer W safe2 l st).
Proof. revert st. induction l; intros st; simpl; frame. Qed.

Lemma scan_point_ok safe2 wp st :
  scan_ok st → returns scan_ok (scan_point W safe2 wp st).
Proof.
  intros [? ?]. unfold scan_point.
  destruct st as [entered past found cur jend sp]; simpl in *.
  destruct (SimpleWaypoint.CheckJunction (graph W) wp), entered, past;
    simpl; repeat returns_step; unfold scan_ok; simpl;
    try (destruct jend; [| discriminate]);
    intuition (try discriminate; eauto).
Qed.

Lemma scan_buffer_ok safe2 l st :
  scan_ok st → returns scan_ok (scan_buffer W safe2 l st).
Proof.
  revert st. induction l as [|wp l IH]; intros st Hst; simpl.
  - by apply returns_ret.
  - destruct (negb (safe_point_found st)); [| by apply returns_ret].
    intros s x s' H. apply bind_Ok_inv in H as (st1 & s1 & H1 & H2).
    apply scan_point_ok in H1; [| done]. by apply (IH st1 H1 s1 x s').
Qed.

Lemma extend_past_junction_junction_view fuel a st :
  preserves junction_view (extend_past_junction W fuel a st).
Proof.
  revert st. induction fuel; intros st; simpl; frame.
  apply PushWaypoint_junction_view.
Qed.

Lemma extend_to_safe_point_junction_view fuel a safe2 st :
  preserves junction_view (extend_to_safe_point W fuel a safe2 st).
Proof.
  revert st. induction fuel; intros st; simpl; frame.
  apply PushWaypoint_junction_view.
Qed.

Lemma extend_past_junction_spec fuel a st s st' s' :
  extend_past_junction W fuel a st s = Ok (st', s') →
  scan_ok st →
  scan_ok st' ∧ past_junction st' = true
  ∧ safe_point_found st' = safe_point_found st
  ∧ buffer_extended a s s'.
Proof.
  revert st s. induction fuel as [|n IH]; intros st s H Hok; simpl in H;
    destruct (past_junction st) eqn:Hpast; simpl in H;
    try (unfold ret in H; injection H as <- <-;
         split; [done |]; split; [done |]; split; [done |];
         apply buffer_extended_refl);
    try discriminate.
  apply bind_Ok_inv in H as (cur & s1 & Hcur & H).
  apply deref_Ok_inv in Hcur as [Hcur ->].
  apply bind_Ok_inv in H as (next & s2 & Hnext & H).
  apply front_Ok_inv in Hnext as [Hnext ->].
  apply bind_Ok_inv in H as (u & s3 & Hpush & H).
  apply PushWaypoint_buffer_extended in Hpush.
  apply bind_Ok_inv in H as (w & s4 & Hw & H).
  apply deref_Ok_inv in Hw as [-> ->].
  apply IH in H as (Hok' & Hpast' & Hfound' & Hext).
  - split; [done |]. split; [done |]. split; [done |].
    by apply (buffer_extended_trans _ _ s3).
  - destruct Hok as [Hf Hp]. split; simpl.
    + intros Hfound. destruct (Hf Hfound) as [Hp' _]. congruence.
    + intros Hl. rewrite Hl. eauto.
Qed.

Lemma extend_to_safe_point_spec fuel a safe2 st s st' s' :
  extend_to_safe_point W fuel a safe2 st s = Ok (st', s') →
  scan_ok st → past_junction st = true →
  scan_ok st' ∧ safe_point_found st' = true
  ∧ junction_end st' = junction_end st
  ∧ buffer_extended a s s'.
Proof.
  revert st s. induction fuel as [|n IH]; intros st s H Hok Hpast; simpl in H;
    destruct (safe_point_found st) eqn:Hfound; simpl in H;
    try (unfold ret in H; injection H as <- <-;
         split; [done |]; split; [done |]; split; [done |];
         apply buffer_extended_refl);
    try discriminate.
  apply bind_Ok_inv in H as (cur & s1 & Hcur & H).
  apply deref_Ok_inv in Hcur as [Hcur ->].
  apply bind_Ok_inv in H as (j & s2 & Hj & H).
  apply deref_Ok_inv in Hj as [Hj ->].
  destruct (_ || _).
  - apply IH in H as (Hok' & Hfound' & Hjend & Hext); [done | | done].
    split; simpl; [eauto | by rewrite Hj].
  - apply bind_Ok_inv in H as (next & s3 & Hnext & H).
    apply front_Ok_inv in Hnext as [Hnext ->].
    apply bind_Ok_inv in H as (u & s4 & Hpush & H).
    apply PushWaypoint_buffer_extended in Hpush.
    apply IH in H as (Hok' & Hfound' & Hjend & Hext).
    + split; [done |]. split; [done |]. split; [done |].
      by apply (buffer_extended_trans _ _ s4).
    + split; simpl; [done | by rewrite Hj].
    + done.
Qed.

Lemma extend_to_find_safe_point_spec fuel a safe2 st s st' s' :
  extend_to_find_safe_point W fuel a safe2 st s = Ok (st', s') →
  scan_ok st →
  (∃ j p, junction_end st' = Some j ∧ safe_point_after_junction st' = Some p)
  ∧ junction_view s' = junction_view s
  ∧ buffer_extended a s s'.
Proof.
  intros H Hok. unfold extend_to_find_safe_point in H.
  destruct (safe_point_found st) eqn:Hfound; simpl in H.
  - unfold ret in H. injection H as <- <-.
    destruct Hok as [Hf Hp]. destruct (Hf Hfound) as [Hpast [p Hsp]].
    destruct (Hp Hpast) as [j Hj].
    split; [by exists j, p |]. split; [done | apply buffer_extended_refl].
  - apply bind_Ok_inv in H as (st1 & s1 & H1 & H2).
    pose proof (extend_past_junction_junction_view _ _ _ _ _ _ H1) as Hv1.
    pose proof (extend_to_safe_point_junction_view _ _ _ _ _ _ _ H2) as Hv2.
    apply extend_past_junction_spec in H1 as (Hok1 & Hpast1 & _ & Hext1); [| done].
    apply extend_to_safe_point_spec in H2 as (Hok2 & Hfound2 & _ & Hext2);
      [| done | done].
    destruct Hok2 as [Hf Hp]. destruct (Hf Hfound2) as [Hpast [p Hsp]].
    destruct (Hp Hpast) as [j Hj].
    split; [by exists j, p |]. split; [congruence |].
    by apply (buffer_extended_trans _ _ s1).
Qed.
End SafePointSearch.

Section JunctionExtension.
Context (W : World).

Lemma write_output_Ok_inv index data s u s' :
  write_output index data s = Ok (u, s') →
  (index < length (output_array s))%nat
  ∧ s' = set_output_array <[index := data]> s.
Proof.
  intros H. unfold write_output in H.
  apply bind_Ok_inv in H as (out & s1 & Hout & H).
  unfold gets in Hout. injection Hout as <- <-.
  apply bind_Ok_inv in H as (d & s2 & Hat & H).
  apply at_Ok_inv in Hat as [Hat ->].
  unfold modify in H. injection H as _ <-.
  split; [by eapply lookup_lt_Some | done].
Qed.

(** The three ways [Update] leaves its junction handling, lines 168-247:
    the actor is newly tracked and its full record written; the actor is
    no longer tracked and its empty record written; or nothing happens. *)
Lemma junction_extension_spec fuel index a entrance s u s' :
  junction_extension W fuel index a entrance s = Ok (u, s') →
  (entrance = true ∧ (a ∉ vehicles_at_junction s)
   ∧ vehicles_at_junction s' = vehicles_at_junction s ∪ {[a]}
   ∧ (∃ j p, output_array s'
             = <[index := {| is_at_junction_entrance := true;
                             junction_end_point := Some j;
                             safe_point := Some p |}]> (output_array s))
   ∧ (index < length (output_array s))%nat
   ∧ buffer_extended a s s')
  ∨ (entrance = false ∧ (a ∈ vehicles_at_junction s)
     ∧ vehicles_at_junction s' = vehicles_at_junction s ∖ {[a]}
     ∧ output_array s'
       = <[index := {| is_at_junction_entrance := false;
                       junction_end_point := None;
                       safe_point := None |}]> (output_array s)
     ∧ (index < length (output_array s))%nat
     ∧ buffer_map s' = buffer_map s)
  ∨ ((entrance = true ↔ a ∈ vehicles_at_junction s) ∧ s' = s).
Proof.
  intros H. unfold junction_extension in H.
  apply bind_Ok_inv in H as (tracked & s0 & Htr & H).
  unfold gets in Htr. injection Htr as <- <-.
  destruct entrance; simpl in H; case_bool_decide as Hin; simpl in H.
  - left.
    apply bind_Ok_inv in H as (u1 & s1 & Hmod & H).
    unfold modify in Hmod. injection Hmod as _ <-.
    apply bind_Ok_inv in H as (b & s2 & Hb & H).
    apply buffer_at_Ok_inv in Hb as [Hb ->].
    apply bind_Ok_inv in H as (st1 & s3 & Hscan & H).
    pose proof (scan_buffer_read_only _ _ _ _ _ _ _ Hscan) as Hs3.
    unfold id in Hs3. subst s3.
    apply scan_buffer_ok in Hscan;
      [| split; simpl; intros; discriminate].
    apply bind_Ok_inv in H as (st2 & s4 & Hext & H).
    apply extend_to_find_safe_point_spec in Hext
      as ((j & p & Hj & Hp) & Hview & Hgrow); [| done].
    apply write_output_Ok_inv in H as [Hlt ->].
    unfold junction_view in Hview. simpl in Hview.
    injection Hview as Hout Hvj.
    split; [done |]. split; [done |]. split; [done |].
    split; [exists j, p; simpl; by rewrite Hj, Hp, Hout |].
    split; [by rewrite Hout in Hlt |].
    intros b0 Hb0. apply (Hgrow b0). exact Hb0.
  - right. right. unfold ret in H. injection H as _ <-.
    split; [| done]. split; [intros _; exact Hin | done].
  - right. left.
    apply bind_Ok_inv in H as (u1 & s1 & Hmod & H).
    unfold modify in Hmod. injection Hmod as _ <-.
    apply write_output_Ok_inv in H as [Hlt ->]. done.
  - right. right. unfold ret in H. injection H as _ <-. done.
Qed.

(** When the populate loop of lines 142-166 is left, the back of the
    buffer is farther from its front than the horizon. *)
Lemma populate_buffer_spec fuel a h2 s u s' :
  populate_buffer W fuel a h2 s = Ok (u, s') →
  ∃ b front_waypoint back_waypoint,
    buffer_map s' !! a = Some b
    ∧ head b = Some front_waypoint ∧ last b = Some back_waypoint
    ∧ (h2 < SimpleWaypoint.DistanceSquared (graph W) back_waypoint front_waypoint)%Q.
Proof.
  revert s. induction fuel as [|n IH]; intros s H; simpl in H;
    apply bind_Ok_inv in H as (b & s1 & Hb & H);
    apply buffer_at_Ok_inv in Hb as [Hb ->];
    apply bind_Ok_inv in H as (bk & s2 & Hbk & H);
    apply back_Ok_inv in Hbk as [Hbk ->];
    apply bind_Ok_inv in H as (fr & s3 & Hfr & H);
    apply front_Ok_inv in Hfr as [Hfr ->];
    destruct (Qleb _ _) eqn:Hcmp; try discriminate;
    try (unfold ret in H; injection H as _ <-;
         exists b, fr, bk; by rewrite <- Qleb_false).
  apply bind_Ok_inv in H as (i & s4 & _ & H).
  apply bind_Ok_inv in H as (nx & s5 & _ & H).
  apply bind_Ok_inv in H as (u1 & s6 & _ & H).
  by apply IH in H.
Qed.
End JunctionExtension.

Section UpdateShape.
Context (W : World).

(** A run of [Update] that returns, cut at the populate loop and at the
    junction handling. *)
Lemma Update_Ok_inv fuel index s u s' :
  Update W fuel index s = Ok (u, s') →
  ∃ a entrance s1 s2 s3 b,
    vehicle_id_list W !! index = Some a
    ∧ junction_view s1 = junction_view s
    ∧ populate_buffer W fuel a
        (horizon_square_of W (SimulationState.GetSpeed (simulation_state W) a)) s1
      = Ok (tt, s2)
    ∧ junction_extension W fuel index a entrance s2 = Ok (tt, s3)
    ∧ buffer_map s3 !! a = Some b
    ∧ s' = set_track_traffic
             (TrackTrafficOps.UpdateGridPosition (graph W) a b) s3.
Proof.
  intros H. unfold Update in H.
  apply bind_Ok_inv in H as (a & s0 & Ha & H).
  apply at_Ok_inv in Ha as [Ha ->].
  apply bind_Ok_inv in H as (u1 & t1 & H1 & H).
  unfold modify in H1. injection H1 as _ <-.
  apply bind_Ok_inv in H as (u2 & t2 & H2 & H).
  apply clear_stale_buffer_junction_view in H2.
  apply bind_Ok_inv in H as (entrance & t3 & H3 & H).
  apply purge_buffer_junction_view in H3.
  apply bind_Ok_inv in H as (u4 & t4 & H4 & H).
  apply initialize_buffer_junction_view in H4.
  unfold Update_from_lane_change in H.
  apply bind_Ok_inv in H as (u5 & t5 & H5 & H).
  apply lane_change_junction_view in H5.
  apply bind_Ok_inv in H as ([] & t6 & H6 & H).
  apply bind_Ok_inv in H as ([] & t7 & H7 & H).
  apply bind_Ok_inv in H as (b & t8 & H8 & H).
  apply buffer_at_Ok_inv in H8 as [H8 ->].
  unfold modify in H. injection H as _ <-.
  exists a, entrance, t5, t6, t7, b.
  split; [done |]. split; [by rewrite H5, H4, H3, H2 |]. done.
Qed.
End UpdateShape.

(** ** The phases of [Update] and the horizon *)

Section UpdatePhases.
Context (W : World).

(** A run of [Update] that returns, cut at each of its phases. *)
Lemma Update_Ok_phases fuel index s u s' :
  Update W fuel index s = Ok (u, s') →
  ∃ a entrance sp si sl s2 s3 b,
    vehicle_id_list W !! index = Some a
    ∧ Update_until_purge W index s = Ok (entrance, sp)
    ∧ initialize_buffer W a
        (SimulationState.GetLocation (simulation_state W) a) sp = Ok (tt, si)
    ∧ lane_change W fuel a
        (SimulationState.GetLocation (simulation_state W) a)
        (SimulationState.GetSpeed (simulation_state W) a) si = Ok (tt, sl)
    ∧ junction_view sl = junction_view s
    ∧ populate_buffer W fuel a
        (horizon_square_of W (SimulationState.GetSpeed (simulation_state W) a)) sl
      = Ok (tt, s2)
    ∧ junction_extension W fuel index a entrance s2 = Ok (tt, s3)
    ∧ buffer_map s3 !! a = Some b
    ∧ s' = set_track_traffic
             (TrackTrafficOps.UpdateGridPosition (graph W) a b) s3.
Proof.
  intros H. unfold Update in H.
  apply bind_Ok_inv in H as (a & s0 & Ha & H).
  pose proof Ha as Hat. apply at_Ok_inv in Ha as [Ha ->].
  apply bind_Ok_inv in H as ([] & t1 & H1 & H).
  pose proof H1 as Hmod. unfold modify in H1. injection H1 as <-.
  apply bind_Ok_inv in H as ([] & t2 & H2 & H).
  apply bind_Ok_inv in H as (entrance & t3 & H3 & H).
  apply bind_Ok_inv in H as ([] & t4 & H4 & H).
  unfold Update_from_lane_change in H.
  apply bind_Ok_inv in H as ([] & t5 & H5 & H).
  apply bind_Ok_inv in H as ([] & t6 & H6 & H).
  apply bind_Ok_inv in H as ([] & t7 & H7 & H).
  apply bind_Ok_inv in H as (b & t8 & H8 & H).
  apply buffer_at_Ok_inv in H8 as [H8 ->].
  unfold modify in H. injection H as _ <-.
  exists a, entrance, t3, t4, t5, t6, t7, b.
  split; [done |]. split.
  { unfold Update_until_purge.
    rewrite (bind_Ok _ _ _ _ _ Hat), (bind_Ok _ _ _ _ _ Hmod).
    by rewrite (bind_Ok _ _ _ _ _ H2). }
  do 2 (split; [done |]). split; [| done].
  rewrite (lane_change_junction_view _ _ _ _ _ _ _ _ H5).
  rewrite (initialize_buffer_junction_view _ _ _ _ _ _ H4).
  rewrite (purge_buffer_junction_view _ _ _ _ _ _ _ _ H3).
  by rewrite (clear_stale_buffer_junction_view _ _ _ _ _ _ H2).
Qed.

(** The loop of lines 78-83, when the vehicle is not at a junction
    entrance, leaves the back of the buffer within the horizon. *)
Lemma purge_far_within n a h2 s u s' b :
  purge_far W n a false h2 s = Ok (u, s') →
  buffer_map s' !! a = Some b →
  within_horizon (graph W) h2 b.
Proof.
  revert s. induction n as [|n IH]; intros s H Hb; simpl in H;
    apply bind_Ok_inv in H as (b0 & s1 & Hb0 & H);
    apply buffer_at_Ok_inv in Hb0 as [Hb0 ->];
    (destruct b0 as [|f r];
     [unfold ret in H; injection H as _ <-; rewrite Hb0 in Hb;
      injection Hb as <-; by intros fw bw Hh |]);
    (destruct (last (f :: r)) as [l|] eqn:Hl;
     [| unfold ret in H; injection H as _ <-; rewrite Hb0 in Hb;
        injection Hb as <-; intros fw bw _ Hbw; congruence]);
    simpl in H; destruct (Qgtb _ _) eqn:Hd; try discriminate;
    try (unfold ret in H; injection H as _ <-; rewrite Hb0 in Hb;
         injection Hb as <-; intros fw bw Hfw Hbw;
         simpl in Hfw; injection Hfw as <-; rewrite Hl in Hbw;
         injection Hbw as <-; by apply Qltb_false in Hd).
  apply bind_Ok_inv in H as ([] & s1 & _ & H). by eapply IH.
Qed.

(** So do lines 26-84 as a whole. *)
Lemma Update_until_purge_within index a s sp b :
  vehicle_id_list W !! index = Some a →
  Update_until_purge W index s = Ok (false, sp) →
  buffer_map sp !! a = Some b →
  within_horizon (graph W)
    (horizon_square_of W (SimulationState.GetSpeed (simulation_state W) a)) b.
Proof.
  intros Ha H Hb. unfold Update_until_purge in H.
  rewrite (bind_Ok _ _ _ _ _ (at_Ok _ _ _ _ Ha)) in H.
  rewrite (bind_Ok _ _ _ _ _ (modify_Ok _ _)) in H.
  apply bind_Ok_inv in H as ([] & s0 & _ & H).
  unfold purge_buffer in H.
  apply bind_Ok_inv in H as (b0 & s1 & Hb0 & H).
  apply buffer_at_Ok_inv in Hb0 as [Hb0 ->].
  destruct b0 as [|f r].
  { unfold ret in H. injection H as <-. rewrite Hb0 in Hb. injection Hb as <-.
    by intros fw bw Hh. }
  apply bind_Ok_inv in H as ([] & s1 & _ & H).
  apply bind_Ok_inv in H as (b1 & s2 & Hb1 & H).
  apply buffer_at_Ok_inv in Hb1 as [Hb1 ->].
  apply bind_Ok_inv in H as (fw1 & s2 & Hfw1 & H).
  apply front_Ok_inv in Hfw1 as [Hfw1 ->].
  apply bind_Ok_inv in H as (e & s2 & He & H).
  assert (s2 = s1) as ->.
  { destruct (negb _); [| unfold ret in He; by simplify_eq].
    apply bind_Ok_inv in He as (la & s3 & Hla & He).
    apply deref_Ok_inv in Hla as [_ ->]. unfold ret in He. by simplify_eq. }
  apply bind_Ok_inv in H as ([] & s2 & Hfar & H).
  unfold ret in H. injection H as -> <-.
  by eapply purge_far_within.
Qed.

Lemma pop_all_drop n a s u s' b :
  pop_all n a s = Ok (u, s') → buffer_map s !! a = Some b →
  buffer_map s' !! a = Some (drop n b).
Proof.
  revert s b. induction n as [|n IH]; intros s b H Hb; simpl in H.
  - unfold ret in H. injection H as _ <-. by rewrite drop_0.
  - apply bind_Ok_inv in H as ([] & s1 & H1 & H).
    destruct b as [|w b].
    { unfold PopWaypoint in H1.
      rewrite (bind_Ok _ _ _ _ _ (buffer_at_Ok _ _ _ Hb)) in H1. discriminate. }
    rewrite (PopWaypoint_front_Ok _ _ _ _ Hb) in H1. injection H1 as <-.
    apply (IH _ b) in H; [done |]. simpl. apply lookup_insert_eq.
Qed.

(** After the initialization of lines 86-95 the buffer is the one it was,
    or a single waypoint. *)
Lemma initialize_buffer_shape a loc s u s' b :
  initialize_buffer W a loc s = Ok (u, s') → buffer_map s !! a = Some b →
  buffer_map s' !! a = Some b ∨ ∃ w, buffer_map s' !! a = Some [w].
Proof.
  intros H Hb. unfold initialize_buffer in H.
  rewrite (bind_Ok _ _ _ _ _ (buffer_at_Ok _ _ _ Hb)) in H.
  destruct b as [|x b]; [| unfold ret in H; injection H as _ <-; by left].
  apply PushWaypoint_Ok_inv in H as (w & b0 & _ & Hb0 & ->).
  rewrite Hb in Hb0. injection Hb0 as <-.
  right. exists w. simpl. apply lookup_insert_eq.
Qed.

(** So it is after the lane change of lines 97-140. *)
Lemma lane_change_shape fuel a loc speed s u s' b :
  lane_change W fuel a loc speed s = Ok (u, s') → buffer_map s !! a = Some b →
  buffer_map s' !! a = Some b ∨ ∃ w, buffer_map s' !! a = Some [w].
Proof.
  intros H Hb. unfold lane_change in H.
  apply bind_Ok_inv in H as (request & s1 & Hreq & H).
  assert (buffer_map s1 = buffer_map s) as Hs1.
  { destruct (negb _); [| unfold ret in Hreq; by simplify_eq].
    destruct (Qleb 0 _); [| unfold ret in Hreq; by simplify_eq].
    apply bind_Ok_inv in Hreq as (r & s0 & Hr & Hreq).
    unfold rand in Hr. injection Hr as _ <-.
    destruct (Qleb _ _); unfold ret in Hreq; by simplify_eq. }
  rewrite <- Hs1 in Hb.
  apply bind_Ok_inv in H as (b0 & s2 & Hb0 & H).
  apply buffer_at_Ok_inv in Hb0 as [_ ->].
  apply bind_Ok_inv in H as (fw & s2 & Hfw & H).
  apply front_Ok_inv in Hfw as [_ ->].
  apply bind_Ok_inv in H as (memory & s2 & Hm & H).
  unfold gets in Hm. injection Hm as _ <-.
  destruct (_ && _); [| unfold ret in H; injection H as _ <-; by left].
  apply bind_Ok_inv in H as (cop & s2 & Hcop & H).
  apply AssignLaneChange_preserves_stage in Hcop. unfold id in Hcop. subst s2.
  destruct cop as [w|]; [| unfold ret in H; injection H as _ <-; by left].
  rewrite (bind_Ok _ _ _ _ _ (modify_Ok _ _)) in H.
  erewrite bind_Ok in H by (apply buffer_at_Ok; simpl; exact Hb).
  apply bind_Ok_inv in H as ([] & s2 & Hpop & H).
  eapply pop_all_drop in Hpop; [| simpl; exact Hb].
  rewrite drop_all in Hpop.
  apply PushWaypoint_Ok_inv in H as (w' & b1 & _ & Hb1 & ->).
  rewrite Hpop in Hb1. injection Hb1 as <-.
  right. exists w'. simpl. apply lookup_insert_eq.
Qed.

(** The populate loop of lines 142-166 pushes one waypoint at a time, and
    only while the back is within the horizon: started on a buffer whose
    back is within the horizon, or that exceeds it by its last waypoint
    only, it leaves a buffer that exceeds the horizon by its last waypoint
    only. *)
Lemma populate_buffer_overshoot fuel a h2 s u s' b :
  populate_buffer W fuel a h2 s = Ok (u, s') →
  buffer_map s !! a = Some b →
  within_horizon (graph W) h2 b ∨ within_horizon (graph W) h2 (removelast b) →
  ∃ b', buffer_map s' !! a = Some b'
        ∧ within_horizon (graph W) h2 (removelast b').
Proof.
  revert s b. induction fuel as [|n IH]; intros s b H Hb Hin; simpl in H;
    apply bind_Ok_inv in H as (b0 & s1 & Hb0 & H);
    apply buffer_at_Ok_inv in Hb0 as [Hb0 ->];
    rewrite Hb in Hb0; injection Hb0 as <-;
    apply bind_Ok_inv in H as (bk & s1 & Hbk & H);
    apply back_Ok_inv in Hbk as [Hbk ->];
    apply bind_Ok_inv in H as (fr & s1 & Hfr & H);
    apply front_Ok_inv in Hfr as [Hfr ->];
    destruct (Qleb _ _) eqn:Hcmp; try discriminate;
    try (unfold ret in H; injection H as _ <-; exists b; split; [done |];
         destruct Hin as [Hin | Hin]; [| done];
         apply Qleb_false in Hcmp; specialize (Hin fr bk Hfr Hbk);
         by apply Qlt_not_le in Hcmp).
  apply Qleb_true in Hcmp.
  apply bind_Ok_inv in H as (i & s1 & Hi & H).
  assert (buffer_map s1 = buffer_map s) as Hs1.
  { destruct (bool_decide _).
    - apply bind_Ok_inv in Hi as (r & s0 & Hr & Hi).
      unfold rand in Hr. unfold ret in Hi. by simplify_eq.
    - unfold ret in Hi. by simplify_eq. }
  apply bind_Ok_inv in H as (nw & s2 & Hnw & H).
  apply at_Ok_inv in Hnw as [_ ->].
  apply bind_Ok_inv in H as ([] & s2 & Hpush & H).
  apply PushWaypoint_Ok_inv in Hpush as (w & b1 & _ & Hb1 & ->).
  rewrite Hs1, Hb in Hb1. injection Hb1 as <-.
  eapply (IH _ (b ++ [w])) in H; [done | simpl; apply lookup_insert_eq |].
  right. rewrite removelast_last. intros fw bw Hfw Hbw.
  rewrite Hfr in Hfw. rewrite Hbk in Hbw. by simplify_eq.
Qed.

End UpdatePhases.

(** ** The horizon after [Update] *)

Lemma last_removelast_head {A} (b : list A) w :
  last (removelast b) = Some w → head (removelast b) = head b.
Proof. destruct b as [|x [|y l]]; simpl; intros H; by simplify_eq. Qed.

(** C1, as the code has it.  When [Update] returns, the buffer of the actor
    is not empty, and the squared distance from its back to its front is
    strictly greater than the horizon squared (the populate loop stops only
    then), unless the actor was newly tracked at a junction entrance in
    this tick, in which case its record says so and the buffer may have
    been extended further.  The bound that does hold is one waypoint
    short: unless the actor is marked at a junction entrance (it is in the
    tracking set when [Update] returns), the buffer exceeds the horizon by
    its last waypoint only, that is, the waypoint before the back, if there
    is one, is within the horizon of the front. *)
Theorem Update_buffer_beyond_horizon (W : World) fuel index actor_id (s s' : Stage) :
  vehicle_id_list W !! index = Some actor_id →
  Update W fuel index s = Ok (tt, s') →
  ∃ b front_waypoint back_waypoint,
    buffer_map s' !! actor_id = Some b
    ∧ head b = Some front_waypoint ∧ last b = Some back_waypoint
    ∧ ((horizon_square_of W (SimulationState.GetSpeed (simulation_state W) actor_id)
          < SimpleWaypoint.DistanceSquared (graph W) back_waypoint front_waypoint)%Q
       ∨ ((actor_id ∉ vehicles_at_junction s)
          ∧ (actor_id ∈ vehicles_at_junction s')
          ∧ is_at_junction_entrance <$> output_array s' !! index = Some true))
    ∧ (actor_id ∈ vehicles_at_junction s'
       ∨ ∀ w, last (removelast b) = Some w →
           (SimpleWaypoint.DistanceSquared (graph W) w front_waypoint
            <= horizon_square_of W
                 (SimulationState.GetSpeed (simulation_state W) actor_id))%Q).
Proof.
  intros Hactor H.
  apply Update_Ok_phases in H
    as (a & e & sp & si & sl & s2 & s3 & b3 & Ha & Hpre & Hinit & Hlc & Hview
        & Hpop & Hjx & Hb3 & ->).
  rewrite Hactor in Ha. injection Ha as <-.
  pose proof (populate_buffer_junction_view _ _ _ _ _ _ _ Hpop) as Hview2.
  pose proof Hpop as Hshoot.
  apply populate_buffer_spec in Hpop as (b & fw & bw & Hb & Hhead & Hlast & Hfar).
  assert (Hvj : vehicles_at_junction s2 = vehicles_at_junction s).
  { unfold junction_view in *. congruence. }
  assert (Hshort : e = false →
            within_horizon (graph W)
              (horizon_square_of W
                 (SimulationState.GetSpeed (simulation_state W) actor_id))
              (removelast b)).
  { intros ->.
    destruct (buffer_map sp !! actor_id) as [bp|] eqn:Hbp.
    2:{ unfold initialize_buffer, bind, buffer_at in Hinit.
        rewrite Hbp in Hinit. discriminate. }
    pose proof (Update_until_purge_within W _ _ _ _ _ Hactor Hpre Hbp) as Hin.
    assert (∃ bl, buffer_map sl !! actor_id = Some bl
                  ∧ (within_horizon (graph W)
                       (horizon_square_of W
                          (SimulationState.GetSpeed (simulation_state W) actor_id)) bl
                     ∨ within_horizon (graph W)
                         (horizon_square_of W
                            (SimulationState.GetSpeed (simulation_state W) actor_id))
                         (removelast bl))) as (bl & Hbl & Hq).
    { destruct (initialize_buffer_shape W _ _ _ _ _ _ Hinit Hbp) as [Hbi | [w Hbi]];
        (destruct (lane_change_shape W _ _ _ _ _ _ _ _ Hlc Hbi) as [Hbl | [w' Hbl]];
         eexists; (split; [exact Hbl |])); try (by left);
        right; by intros ? ? ?. }
    destruct (populate_buffer_overshoot W _ _ _ _ _ _ _ Hshoot Hbl Hq)
      as (b' & Hb' & Hshort).
    rewrite Hb in Hb'. by injection Hb' as <-. }
  simpl.
  apply junction_extension_spec in Hjx
    as [(He & Hnew & Hvj' & (j & p & Hout) & Hlt & Hgrow)
       |[(He & _ & Hvj' & _ & _ & Hbm)|(He & ->)]].
  - assert (Hin : actor_id ∈ vehicles_at_junction s3)
      by (rewrite Hvj', elem_of_union, elem_of_singleton; by right).
    destruct (Hgrow b Hb) as [ext Hb']. rewrite Hb' in Hb3. injection Hb3 as <-.
    destruct b as [|x b]; [discriminate |]. simpl in Hhead. injection Hhead as ->.
    destruct (last ((fw :: b) ++ ext)) as [bw'|] eqn:Hl.
    + exists ((fw :: b) ++ ext), fw, bw'. split; [done |]. split; [done |].
      split; [done |]. split; [| by left]. right. rewrite <- Hvj.
      split; [done |]. split; [done |].
      rewrite Hout, list_lookup_insert_eq by done. done.
    + apply last_None in Hl. discriminate.
  - rewrite Hbm, Hb in Hb3. injection Hb3 as <-.
    exists b, fw, bw. split; [by rewrite Hbm |]. do 2 (split; [done |]).
    split; [by left |]. right. intros w Hw.
    apply (Hshort He); [| done].
    by rewrite (last_removelast_head _ _ Hw).
  - rewrite Hb in Hb3. injection Hb3 as <-. exists b, fw, bw.
    do 3 (split; [done |]). split; [by left |].
    destruct e.
    + left. by apply He.
    + right. intros w Hw. apply (Hshort eq_refl); [| done].
      by rewrite (last_removelast_head _ _ Hw).
Qed.

Lemma Update_buffer_beyond_horizon_witness :
  ∃ s' b front_waypoint back_waypoint,
    Update (Sample.world Sample.straight_road (-5)) 10 0
      (Sample.stage None Sample.no_output) = Ok (tt, s')
    ∧ buffer_map s' !! 7%N = Some b
    ∧ head b = Some front_waypoint ∧ last b = Some back_waypoint
    ∧ ∀ w, last (removelast b) = Some w →
        (SimpleWaypoint.DistanceSquared Sample.straight_road w front_waypoint
         <= horizon_square_of (Sample.world Sample.straight_road (-5)) 0)%Q.
Proof.
  assert (∃ s', Update (Sample.world Sample.straight_road (-5)) 10 0
                  (Sample.stage None Sample.no_output) = Ok (tt, s')) as [s' E]
    by (eexists; vm_compute; reflexivity).
  destruct (Update_buffer_beyond_horizon
              (Sample.world Sample.straight_road (-5)) 10 0 7%N
              (Sample.stage None Sample.no_output) s' eq_refl E)
    as (b & fw & bw & Hb & Hh & Hl & _ & [Hin | Hshort]).
  - exfalso. revert Hin. vm_compute in E. injection E as <-.
    vm_compute. intros Hin. discriminate Hin.
  - by exists s', b, fw, bw.
Defined.

(** C1, the counterexample.  On the straight sample road, for a vehicle at
    rest (horizon 20, squared 400) that starts without a buffer, [Update]
    returns with the buffer [0; 1; 2; 3]: its back is 30 from its front,
    900 squared, and the actor is not marked at a junction entrance, neither
    in its record nor in the tracking set. *)
Lemma Update_leaves_buffer_beyond_horizon :
  ∃ s', Update (Sample.world Sample.straight_road (-5)) 10 0
          (Sample.stage None Sample.no_output) = Ok (tt, s')
        ∧ buffer_map s' !! 7%N = Some [0%N; 1%N; 2%N; 3%N]
        ∧ ¬ (SimpleWaypoint.DistanceSquared Sample.straight_road 3%N 0%N
             <= horizon_square_of (Sample.world Sample.straight_road (-5)) 0)%Q
        ∧ vehicles_at_junction s' = ∅
        ∧ output_array s' = [Sample.no_output].
Proof.
  eexists. split; [vm_compute; reflexivity |].
  split; [vm_compute; reflexivity |].
  split; [apply Qlt_not_le; reflexivity |].
  split; reflexivity.
Qed.

(** ** The output record *)

(** C4, as the code has it.  [Update] writes the record of the actor only
    in a tick in which the actor enters or leaves the junction-tracking
    set, and then it does write it.  With the flag [is_at_junction_entrance]
    as lines 26-84 compute it: when [Update] returns the actor is in the
    tracking set exactly when the flag is set, and no other actor has
    entered or left the set; a vehicle at a junction entrance that was not
    tracked has its record written (at junction entrance, with junction end
    and safe point); a tracked vehicle that is no longer at a junction
    entrance has the empty record written; in every other tick the output
    array and the tracking set are what the tick found. *)
Theorem Update_writes_output_on_change (W : World) fuel index actor_id (s s' : Stage) :
  vehicle_id_list W !! index = Some actor_id →
  Update W fuel index s = Ok (tt, s') →
  ∃ at_junction_entrance s1,
    Update_until_purge W index s = Ok (at_junction_entrance, s1)
    ∧ (actor_id ∈ vehicles_at_junction s' ↔ at_junction_entrance = true)
    ∧ (∀ other, other ≠ actor_id →
         (other ∈ vehicles_at_junction s' ↔ other ∈ vehicles_at_junction s))
    ∧ (at_junction_entrance = true → actor_id ∉ vehicles_at_junction s →
       (index < length (output_array s))%nat
       ∧ ∃ j p, output_array s'
                = <[index := {| is_at_junction_entrance := true;
                                junction_end_point := Some j;
                                safe_point := Some p |}]> (output_array s))
    ∧ (at_junction_entrance = false → actor_id ∈ vehicles_at_junction s →
       (index < length (output_array s))%nat
       ∧ output_array s'
         = <[index := {| is_at_junction_entrance := false;
                         junction_end_point := None;
                         safe_point := None |}]> (output_array s))
    ∧ ((at_junction_entrance = true ↔ actor_id ∈ vehicles_at_junction s) →
       vehicles_at_junction s' = vehicles_at_junction s
       ∧ output_array s' = output_array s).
Proof.
  intros Hactor H.
  apply Update_Ok_phases in H
    as (a & e & sp & si & sl & s2 & s3 & b3 & Ha & Hpre & Hinit & Hlc & Hview
        & Hpop & Hjx & Hb3 & ->).
  rewrite Hactor in Ha. injection Ha as <-.
  apply populate_buffer_junction_view in Hpop.
  assert (Hv : junction_view s2 = junction_view s) by congruence.
  unfold junction_view in Hv. injection Hv as Hout Hvj.
  exists e, sp. split; [done |]. simpl.
  apply junction_extension_spec in Hjx
    as [(-> & Hnew & Hvj' & (j & p & Hout') & Hlt & _)
       |[(-> & Hold & Hvj' & Hout' & Hlt & _)|(He & ->)]].
  - rewrite Hvj in Hnew, Hvj'. rewrite Hout in Hout', Hlt. rewrite Hvj'.
    split; [split; [done | intros _; apply elem_of_union; right;
                                by apply elem_of_singleton] |].
    split; [intros other Hne; rewrite elem_of_union, elem_of_singleton; tauto |].
    split; [intros _ _; split; [done | by exists j, p] |].
    split; [discriminate |].
    intros [Hin _]. by destruct Hnew; apply Hin.
  - rewrite Hvj in Hold, Hvj'. rewrite Hout in Hout', Hlt. rewrite Hvj'.
    split; [rewrite elem_of_difference, elem_of_singleton;
            split; [intros [_ Hn]; by destruct Hn | discriminate] |].
    split; [intros other Hne; rewrite elem_of_difference, elem_of_singleton;
            tauto |].
    split; [discriminate |].
    split; [done |].
    intros [_ Hin]. by specialize (Hin Hold).
  - rewrite Hvj in He. rewrite Hvj, Hout.
    split; [by symmetry |].
    split; [done |].
    split; [intros He1 Hn; by apply He in He1 |].
    split; [intros He1 Hin; apply He in Hin; congruence |].
    done.
Qed.

Lemma Update_writes_output_on_change_witness :
  ∃ s' j p,
    Update (Sample.world Sample.junction_road 5) 10 0
      (Sample.stage (Some [0; 1; 2; 3]%N) Sample.no_output) = Ok (tt, s')
    ∧ (7%N ∈ vehicles_at_junction s')
    ∧ output_array s'
      = [ {| is_at_junction_entrance := true;
             junction_end_point := Some j;
             safe_point := Some p |} ].
Proof.
  assert (∃ s', Update (Sample.world Sample.junction_road 5) 10 0
                  (Sample.stage (Some [0; 1; 2; 3]%N) Sample.no_output)
                = Ok (tt, s')) as [s' E]
    by (eexists; vm_compute; reflexivity).
  destruct (Update_writes_output_on_change
              (Sample.world Sample.junction_road 5) 10 0 7%N
              (Sample.stage (Some [0; 1; 2; 3]%N) Sample.no_output) s' eq_refl E)
    as (e & s1 & Hpre & Hin & _ & Hwrite & _).
  vm_compute in Hpre. injection Hpre as <- _.
  destruct (Hwrite eq_refl) as (_ & j & p & Hout);
    [simpl; apply not_elem_of_empty |].
  exists s', j, p. split; [exact E |]. split; [by apply Hin | exact Hout].
Defined.

(** C4, the counterexample.  The record of the actor says: at a junction
    entrance, junction end 5, safe point 9, left by an earlier tick.  In
    this tick the actor is on a straight road, far from any junction, and
    is not tracked; [Update] returns and the record is still the old one. *)
Lemma Update_keeps_previous_output :
  ∃ s', Update (Sample.world Sample.straight_road (-5)) 10 0
          (Sample.stage None Sample.stale_output) = Ok (tt, s')
        ∧ output_array s'
          = [ {| is_at_junction_entrance := true;
                 junction_end_point := Some 5%N;
                 safe_point := Some 9%N |} ].
Proof. eexists. split; vm_compute; reflexivity. Qed.

(** ** A stale buffer *)

Section StaleBuffer.
Context (W : World).

Lemma pop_all_Ok a b s :
  buffer_map s !! a = Some b →
  pop_all (length b) a s
  = Ok (tt, set_track_traffic
              (fun registry =>
                 foldl (fun acc w => TrackTrafficOps.RemovePassingVehicle w a acc)
                       registry b)
              (set_buffer_map <[a := []]> s)).
Proof.
  revert s. induction b as [|w b IH]; intros s Hb; simpl.
  - unfold ret. do 2 f_equal. destruct s; unfold set_track_traffic, set_buffer_map;
      simpl in *. f_equal. symmetry. by apply insert_id.
  - rewrite (bind_Ok _ _ _ _ _ (PopWaypoint_front_Ok _ _ _ _ Hb)).
    rewrite IH by (simpl; apply lookup_insert_eq).
    do 2 f_equal. destruct s; unfold set_track_traffic, set_buffer_map; simpl.
    f_equal. apply insert_insert_eq.
Qed.

End StaleBuffer.

(** C7. For an actor whose buffer is not empty and whose location is
    farther from the front waypoint of the buffer than [MAX_START_DISTANCE]
    (squared distance against its square), [Update] pops every waypoint of
    the buffer, each with its registry removal, seeds the emptied buffer
    with the waypoint nearest to the actor (the one in the vicinity, else
    the one of the guaranteed lookup), with its registry add, the actor
    being at no junction entrance, and goes on from there with the lane
    change, the populate loop and the rest. *)
Theorem Update_discards_stale_buffer (W : World) fuel index actor_id (s : Stage)
    front_waypoint rest nearest :
  vehicle_id_list W !! index = Some actor_id →
  buffer_map s !! actor_id = Some (front_waypoint :: rest) →
  (SQUARE (MAX_START_DISTANCE (constants W))
   < DistanceSquared (SimpleWaypoint.GetLocation (graph W) front_waypoint)
       (SimulationState.GetLocation (simulation_state W) actor_id))%Q →
  match LocalMap.GetWaypointInVicinity (local_map W)
          (SimulationState.GetLocation (simulation_state W) actor_id) with
  | Some w => Some w
  | None => LocalMap.GetWaypoint (local_map W)
              (SimulationState.GetLocation (simulation_state W) actor_id)
  end = Some nearest →
  Update W fuel index s
  = Update_from_lane_change W fuel index actor_id false
      {| buffer_map := <[actor_id := [nearest]]> (buffer_map s);
         track_traffic :=
           TrackTrafficOps.UpdatePassingVehicle nearest actor_id
             (foldl (fun acc w => TrackTrafficOps.RemovePassingVehicle w actor_id acc)
                    (track_traffic s) (front_waypoint :: rest));
         output_array := output_array s;
         last_lane_change_location := last_lane_change_location s;
         vehicles_at_junction := vehicles_at_junction s;
         rand_calls := rand_calls s |}.
Proof.
  intros Hactor Hb Hfar Hnearest. unfold Update.
  rewrite (bind_Ok _ _ _ _ _ (at_Ok _ _ _ _ Hactor)).
  rewrite (bind_Ok _ _ _ _ _ (modify_Ok _ _)).
  assert (Hs : set_buffer_map
                 (fun m => match m !! actor_id with
                           | Some _ => m
                           | None => <[actor_id := []]> m
                           end) s = s).
  { destruct s; unfold set_buffer_map; simpl in *. by rewrite Hb. }
  rewrite Hs. clear Hs.
  (* the buffer is cleared *)
  erewrite (bind_Ok (clear_stale_buffer W actor_id _)).
  2:{ unfold clear_stale_buffer.
      rewrite (bind_Ok _ _ _ _ _ (buffer_at_Ok _ _ _ Hb)).
      apply Qltb_true in Hfar. unfold Qgtb. rewrite Hfar.
      by apply pop_all_Ok. }
  (* nothing is left to purge *)
  erewrite (bind_Ok (purge_buffer W actor_id _ _ _)).
  2:{ unfold purge_buffer.
      erewrite bind_Ok by (apply buffer_at_Ok; simpl; apply lookup_insert_eq).
      reflexivity. }
  (* the buffer is seeded *)
  erewrite (bind_Ok (initialize_buffer W actor_id _)).
  2:{ unfold initialize_buffer.
      erewrite bind_Ok by (apply buffer_at_Ok; simpl; apply lookup_insert_eq).
      rewrite Hnearest. apply (PushWaypoint_Ok _ _ []). simpl. apply lookup_insert_eq. }
  f_equal. destruct s; unfold set_track_traffic, set_buffer_map; simpl.
  f_equal. by rewrite !insert_insert_eq.
Qed.

Lemma Update_discards_stale_buffer_witness :
  Update (Sample.world Sample.straight_road 100) 10 0
    (Sample.stage (Some [0%N; 1%N; 2%N]) Sample.no_output)
  = Update_from_lane_change (Sample.world Sample.straight_road 100) 10 0 7%N false
      {| buffer_map := {[ 7%N := [10%N] ]};
         track_traffic :=
           {| waypoint_overlap_tracker := {[ 10%N := {[ 7%N ]} ]};
              actor_to_grids := ∅;
              grid_to_actors := ∅ |};
         output_array := [Sample.no_output];
         last_lane_change_location := ∅;
         vehicles_at_junction := ∅;
         rand_calls := 0 |}.
Proof.
  rewrite (Update_discards_stale_buffer (Sample.world Sample.straight_road 100)
             10 0 7%N (Sample.stage (Some [0%N; 1%N; 2%N]) Sample.no_output)
             0%N [1%N; 2%N] 10%N); [| reflexivity | reflexivity | reflexivity | reflexivity].
  f_equal.
Defined.

(** ** Where [Update] faults *)

Section PurgeToEmpty.
Context (W : World).

(** The purge of passed waypoints empties a buffer whose only waypoint is
    passed; line 75 then takes [front()] of the empty buffer. *)
Lemma purge_buffer_faults_on_last_waypoint a w s h2 :
  buffer_map s !! a = Some [w] →
  Qleb (DeviationDotProduct W (SimulationState.GetLocation (simulation_state W) a)
          (SimulationState.GetHeading (simulation_state W) a)
          (SimpleWaypoint.GetLocation (graph W) w)) 0 = true →
  purge_buffer W a (SimulationState.GetLocation (simulation_state W) a)
    (SimulationState.GetHeading (simulation_state W) a) h2 s
  = Err EmptyContainer.
Proof.
  intros Hb Hdot. unfold purge_buffer.
  rewrite (bind_Ok _ _ _ _ _ (buffer_at_Ok _ _ _ Hb)).
  erewrite bind_Ok.
  2:{ simpl. rewrite (bind_Ok _ _ _ _ _ (buffer_at_Ok _ _ _ Hb)).
      rewrite Hdot. simpl.
      rewrite (bind_Ok _ _ _ _ _ (PopWaypoint_front_Ok _ _ _ _ Hb)).
      erewrite bind_Ok by (apply buffer_at_Ok; simpl; apply lookup_insert_eq).
      erewrite bind_Ok by (apply buffer_at_Ok; simpl; apply lookup_insert_eq).
      rewrite andb_false_r. reflexivity. }
  erewrite bind_Ok by (apply buffer_at_Ok; simpl; apply lookup_insert_eq).
  reflexivity.
Qed.

End PurgeToEmpty.

(** C10, the fault.  The buffer of the actor holds one waypoint, 5 behind
    the vehicle (so within [MAX_START_DISTANCE], and passed).  [Update]
    pops it and then takes [front()] of the empty buffer, at line 75,
    before it reaches the re-seeding of lines 86-95: the run faults, for
    whatever fuel. *)
Theorem Update_faults_when_purge_empties_buffer :
  ∀ fuel, Update (Sample.world Sample.straight_road 15) fuel 0
            (Sample.stage (Some [1%N]) Sample.no_output)
          = Err EmptyContainer.
Proof.
  intros fuel. unfold Update.
  erewrite bind_Ok by (apply at_Ok; reflexivity).
  rewrite (bind_Ok _ _ _ _ _ (modify_Ok _ _)).
  erewrite (bind_Ok (clear_stale_buffer _ _ _)) by (vm_compute; reflexivity).
  apply bind_Err.
  apply (purge_buffer_faults_on_last_waypoint _ _ 1%N); reflexivity.
Qed.

(** C3, the faults and the fallback.  Waypoint 2 without any successor:
    [next_waypoints.at(0)] throws.  Waypoint 2 with a null pointer as its
    only successor: no valid candidate is found and the null pointer is
    pushed.  In neither case does [Update] return with the buffer left as
    it was.  Waypoint 2 with a null pointer and then waypoint 3 as
    successors, the null one being chosen: waypoint 3 is taken. *)
Theorem Update_faults_without_valid_successor :
  Update (Sample.world Sample.dead_end_road (-5)) 10 0
    (Sample.stage None Sample.no_output) = Err OutOfRange
  ∧ Update (Sample.world Sample.null_successor_road (-5)) 10 0
      (Sample.stage None Sample.no_output) = Err NullPointer
  ∧ ∃ s', Update (Sample.world Sample.null_then_valid_road (-5)) 10 0
            (Sample.stage None Sample.no_output) = Ok (tt, s')
          ∧ buffer_map s' !! 7%N = Some [0%N; 1%N; 2%N; 3%N].
Proof.
  split; [vm_compute; reflexivity |]. split; [vm_compute; reflexivity |].
  eexists. split; vm_compute; reflexivity.
Qed.

(** ** How far the safe-point search extends the buffer *)




Section SearchReaches.
Context (W : World).





End SearchReaches.

Section SearchLoops.
Context (W : World).


End SearchLoops.






(** ** The populate loop without a valid successor *)

Lemma first_valid_None (l : list (option N)) :
  first_valid l = None → ∀ i x, l !! i = Some x → x = None.
Proof.
  induction l as [|[w|] l IH]; intros H i x Hi; simpl in H; try discriminate.
  destruct i as [|i]; simpl in Hi; [by simplify_eq | by eapply IH].
Qed.

(** A turn of the loop of lines 142-166 at a back waypoint none of whose
    successors is valid does not leave the buffer as it is: with no
    successor at all [at(0)] throws, and with null successors only, the
    null pointer left by the search of lines 154-164 is pushed. *)
Lemma populate_buffer_faults_without_valid_successor (W : World) n a h2 s b
    front_waypoint back_waypoint :
  buffer_map s !! a = Some b →
  head b = Some front_waypoint → last b = Some back_waypoint →
  (SimpleWaypoint.DistanceSquared (graph W) back_waypoint front_waypoint <= h2)%Q →
  first_valid (SimpleWaypoint.GetNextWaypoint (graph W) back_waypoint) = None →
  populate_buffer W (S n) a h2 s
  = Err (match SimpleWaypoint.GetNextWaypoint (graph W) back_waypoint with
         | [] => OutOfRange
         | _ => NullPointer
         end).
Proof.
  intros Hb Hhead Hlast Hnear Hnone. simpl.
  rewrite (bind_Ok _ _ _ _ _ (buffer_at_Ok _ _ _ Hb)).
  unfold back. rewrite Hlast, bind_ret.
  destruct b as [|x b]; [discriminate |]. simpl in Hhead. injection Hhead as ->.
  simpl. rewrite bind_ret.
  apply Qleb_true in Hnear. rewrite Hnear.
  destruct (SimpleWaypoint.GetNextWaypoint (graph W) back_waypoint)
    as [|x0 l] eqn:Hnext.
  - rewrite bool_decide_eq_false_2 by (simpl; lia). rewrite bind_ret. reflexivity.
  - set (next := x0 :: l) in *.
    assert (Hall : ∀ i, (i < length next)%nat → next !! i = Some None).
    { intros i Hi. destruct (lookup_lt_is_Some_2 next i Hi) as [y Hy].
      by rewrite Hy, (first_valid_None _ Hnone _ _ Hy). }
    case_bool_decide as Hlen.
    + erewrite (bind_Ok (bind (rand W) _)) by reflexivity.
      unfold at_. rewrite Hall.
      * rewrite bind_ret, Hnone. reflexivity.
      * pose proof (N.mod_lt (rand_sequence W (rand_calls s))
                      (N.of_nat (length next))). lia.
    + rewrite bind_ret. unfold at_. rewrite Hall by (simpl; lia).
      rewrite bind_ret, Hnone. reflexivity.
Qed.

(** ** The purges within their bound *)

Lemma PopWaypoint_back_Ok a b w s :
  buffer_map s !! a = Some b → last b = Some w →
  PopWaypoint a false s
  = Ok (tt, set_track_traffic (TrackTrafficOps.RemovePassingVehicle w a)
              (set_buffer_map <[a := removelast b]> s)).
Proof.
  intros Hb Hl. unfold PopWaypoint.
  rewrite (bind_Ok _ _ _ _ _ (buffer_at_Ok _ _ _ Hb)).
  unfold back. by rewrite Hl.
Qed.

Section PurgeBounds.
Context (W : World).

(** The purge of passed waypoints pops at most the whole buffer: called
    with the length of the buffer as its bound, it returns. *)
Lemma purge_passed_within_bound n a loc heading dot s b :
  buffer_map s !! a = Some b → (length b ≤ n)%nat →
  ∃ s', purge_passed W n a loc heading dot s = Ok (tt, s').
Proof.
  revert dot s b. induction n as [|n IH]; intros dot s b Hb Hn; simpl;
    rewrite (bind_Ok _ _ _ _ _ (buffer_at_Ok _ _ _ Hb)).
  - destruct b; [| simpl in Hn; lia].
    rewrite andb_false_r. by eexists.
  - destruct (Qleb dot 0 && negb (bool_decide (b = []))) eqn:Hc; [| by eexists].
    destruct b as [|w b]; [by rewrite andb_false_r in Hc |].
    rewrite (bind_Ok _ _ _ _ _ (PopWaypoint_front_Ok _ _ _ _ Hb)).
    erewrite bind_Ok by (apply buffer_at_Ok; simpl; apply lookup_insert_eq).
    eapply (IH _ _ b); [simpl; apply lookup_insert_eq | simpl in Hn; lia].
Qed.

(** So does the purge of the waypoints beyond the horizon. *)
Lemma purge_far_within_bound n a entrance h2 s b :
  buffer_map s !! a = Some b → (length b ≤ n)%nat →
  ∃ s', purge_far W n a entrance h2 s = Ok (tt, s').
Proof.
  revert s b. induction n as [|n IH]; intros s b Hb Hn; simpl;
    rewrite (bind_Ok _ _ _ _ _ (buffer_at_Ok _ _ _ Hb)).
  - destruct b; [by eexists | simpl in Hn; lia].
  - destruct b as [|fw b]; [by eexists |].
    destruct (last (fw :: b)) as [bw|] eqn:Hl; [| by eexists].
    destruct (_ && _); [| by eexists].
    rewrite (bind_Ok _ _ _ _ _ (PopWaypoint_back_Ok _ _ _ _ Hb Hl)).
    eapply (IH _ (removelast (fw :: b))); [simpl; apply lookup_insert_eq |].
    assert (length (removelast (fw :: b)) = length b) as ->; [| simpl in Hn; lia].
    clear. revert fw. induction b as [|x b IHb]; intros fw; [done |].
    simpl in *. f_equal. apply IHb.
Qed.

End PurgeBounds.

(** The rebuilt path of the sample run: the vehicle stands at [x = 100],
    the buffer [0; 1; 2] is far behind; after [Update] the buffer starts
    at the nearest waypoint, 10, and reaches past the horizon. *)
Example Update_rebuilds_from_nearest_waypoint :
  ∃ s', Update (Sample.world Sample.straight_road 100) 10 0
          (Sample.stage (Some [0%N; 1%N; 2%N]) Sample.no_output) = Ok (tt, s')
        ∧ buffer_map s' !! 7%N = Some [10%N; 11%N; 12%N; 13%N]
        ∧ waypoint_overlap_tracker (track_traffic s')
          = {[ 10%N := {[ 7%N ]}; 11%N := {[ 7%N ]};
               12%N := {[ 7%N ]}; 13%N := {[ 7%N ]} ]}.
Proof. eexists. repeat split; vm_compute; reflexivity. Qed.

(** * Further results *)

(** Goals on finite sets, after unfolding the set operations. *)
Ltac set_tac := set_unfold; intuition (subst; try congruence; eauto).

(** ** [RemoveActor] and [Reset] among the rest of the stage *)

Lemma erase_if_present (m : gmap N Location) (a : N) :
  match m !! a with Some _ => delete a m | None => m end = delete a m.
Proof. destruct (m !! a) eqn:E; [done | by rewrite delete_id]. Qed.

Lemma erase_if_member (v : gset N) (a : N) :
  (if bool_decide (a ∈ v) then v ∖ {[a]} else v) = v ∖ {[a]}.
Proof. case_bool_decide; [done | set_tac]. Qed.

Lemma RemoveActor_Ok a s :
  RemoveActor a s
  = Ok (tt, set_vehicles_at_junction (fun v => v ∖ {[a]})
              (set_last_lane_change_location (delete a) s)).
Proof.
  destruct s. unfold RemoveActor, bind, modify, set_vehicles_at_junction,
    set_last_lane_change_location; simpl.
  by rewrite erase_if_present, erase_if_member.
Qed.

(** X1. [RemoveActor] forgets the actor in the lane-change memory and in
    the junction-tracking set, and nothing else: the entries of every
    other actor stay, and so do all waypoint buffers (the buffer of the
    removed actor too), the track-traffic registry and the output array.
    Removals of two actors commute. *)
Theorem RemoveActor_footprint (a : ActorId) (s : Stage) :
  ∃ s1, RemoveActor a s = Ok (tt, s1)
    ∧ last_lane_change_location s1 !! a = None
    ∧ (a ∉ vehicles_at_junction s1)
    ∧ (∀ b, b ≠ a →
         last_lane_change_location s1 !! b = last_lane_change_location s !! b
         ∧ (b ∈ vehicles_at_junction s1 ↔ b ∈ vehicles_at_junction s))
    ∧ buffer_map s1 = buffer_map s
    ∧ track_traffic s1 = track_traffic s
    ∧ output_array s1 = output_array s
    ∧ (∀ b, (RemoveActor a;; RemoveActor b) s = (RemoveActor b;; RemoveActor a) s).
Proof.
  eexists. split; [apply RemoveActor_Ok |]. simpl.
  split; [apply lookup_delete_eq |].
  split; [set_tac |].
  split; [intros b Hb; split; [by apply lookup_delete_ne | set_tac] |].
  do 3 (split; [done |]).
  intros b.
  rewrite !(bind_Ok _ _ _ _ _ (RemoveActor_Ok _ _)), !RemoveActor_Ok.
  destruct s. unfold set_vehicles_at_junction, set_last_lane_change_location; simpl.
  do 3 f_equal; [apply delete_delete | set_tac].
Qed.

(** X2. [Reset] empties the lane-change memory and the junction-tracking
    set and leaves the waypoint buffers, the registry and the output array
    (with whatever records it holds) as they are.  It absorbs
    [RemoveActor]: a removal before or after a reset changes nothing of its
    result, nor does a second reset. *)
Theorem Reset_clears_and_absorbs (a : ActorId) (s : Stage) :
  ∃ s1, Reset s = Ok (tt, s1)
    ∧ last_lane_change_location s1 = ∅
    ∧ vehicles_at_junction s1 = ∅
    ∧ buffer_map s1 = buffer_map s
    ∧ track_traffic s1 = track_traffic s
    ∧ output_array s1 = output_array s
    ∧ (RemoveActor a;; Reset) s = Ok (tt, s1)
    ∧ (Reset;; RemoveActor a) s = Ok (tt, s1)
    ∧ (Reset;; Reset) s = Ok (tt, s1).
Proof.
  eexists. split; [reflexivity |]. simpl. do 5 (split; [done |]).
  split; [| split].
  - by rewrite (bind_Ok _ _ _ _ _ (RemoveActor_Ok _ _)).
  - erewrite bind_Ok by reflexivity. rewrite RemoveActor_Ok.
    destruct s. unfold set_vehicles_at_junction, set_last_lane_change_location; simpl.
    rewrite delete_empty. do 3 f_equal. set_tac.
  - reflexivity.
Qed.

(** ** The horizon and the change-over distance *)

Lemma MIN_le_l a b : (MIN a b <= a)%Q.
Proof.
  unfold MIN. destruct (Qle_bool a b) eqn:E; [apply Qle_refl |].
  apply Qlt_le_weak, Qleb_false. exact E.
Qed.

Lemma MIN_le_r a b : (MIN a b <= b)%Q.
Proof.
  unfold MIN. destruct (Qle_bool a b) eqn:E; [by apply Qle_bool_iff | apply Qle_refl].
Qed.

Lemma MIN_glb a b c : (c <= a)%Q → (c <= b)%Q → (c <= MIN a b)%Q.
Proof. intros Ha Hb. unfold MIN. by destruct (Qle_bool a b). Qed.

Lemma MAX_le_r a b : (b <= MAX a b)%Q.
Proof.
  unfold MAX. destruct (Qle_bool a b) eqn:E; [apply Qle_refl |].
  apply Qlt_le_weak, Qleb_false. exact E.
Qed.

Lemma Clamp_bounds a lo hi : (lo <= hi)%Q → (lo <= Clamp a lo hi <= hi)%Q.
Proof.
  intros H. unfold Clamp. split; [| apply MIN_le_r].
  apply MIN_glb; [apply MAX_le_r | done].
Qed.

Lemma SQUARE_le a b : (0 <= a)%Q → (a <= b)%Q → (SQUARE a <= SQUARE b)%Q.
Proof.
  intros H0 Hab. unfold SQUARE.
  apply Qmult_le_compat_nonneg; split; done.
Qed.

(** X3. The horizon of line 35 never exceeds [MAXIMUM_HORIZON_LENGTH].
    With a rate that is not negative it grows with the speed, weakly, and
    for a speed that is not negative it is at least the smaller of
    [MINIMUM_HORIZON_LENGTH] and [MAXIMUM_HORIZON_LENGTH].  The squared
    horizon that [Update] compares with is the square of it. *)
Theorem horizon_length_bounds (W : World) (speed speed' : Q) :
  (0 <= HORIZON_RATE (constants W))%Q →
  (0 <= speed)%Q → (speed <= speed')%Q →
  horizon_square_of W speed = SQUARE (horizon_length_of W speed)
  ∧ (MIN (MINIMUM_HORIZON_LENGTH (constants W)) (MAXIMUM_HORIZON_LENGTH (constants W))
     <= horizon_length_of W speed)%Q
  ∧ (horizon_length_of W speed <= horizon_length_of W speed')%Q
  ∧ (horizon_length_of W speed' <= MAXIMUM_HORIZON_LENGTH (constants W))%Q.
Proof.
  intros Hrate Hspeed Hle. split; [reflexivity |]. unfold horizon_length_of.
  split; [| split; [| apply MIN_le_r]].
  - apply MIN_glb; [| apply MIN_le_r].
    eapply Qle_trans; [apply MIN_le_l |].
    rewrite <- (Qplus_0_l (MINIMUM_HORIZON_LENGTH (constants W))) at 1.
    apply Qplus_le_compat; [| apply Qle_refl].
    by apply Qmult_le_0_compat.
  - apply MIN_glb; [| apply MIN_le_r].
    eapply Qle_trans; [apply MIN_le_l |].
    apply Qplus_le_compat; [| apply Qle_refl].
    by apply Qmult_le_compat_r.
Qed.

Lemma horizon_length_bounds_witness :
  (20 <= horizon_length_of (Sample.world Sample.straight_road 0) 10)%Q
  ∧ (horizon_length_of (Sample.world Sample.straight_road 0) 10
     <= horizon_length_of (Sample.world Sample.straight_road 0) 30)%Q
  ∧ (horizon_length_of (Sample.world Sample.straight_road 0) 30 <= 40)%Q.
Proof.
  destruct (horizon_length_bounds (Sample.world Sample.straight_road 0) 10 30)
    as (_ & H1 & H2 & H3); [by vm_compute | by vm_compute | by vm_compute |].
  split; [exact H1 |]. split; [exact H2 | exact H3].
Defined.

(** X4. Whatever the speed, a change-over point that [AssignLaneChange]
    returns is at least 3 away from the neighbour it was advanced from
    (squared distance at least 9) unless it is a junction waypoint, and
    every waypoint passed over on the way was closer than 20 to that
    neighbour (squared distance below 400) and no junction waypoint. *)
Theorem AssignLaneChange_change_over_range (W : World) fuel actor_id
    vehicle_location vehicle_speed force direction (s s' : Stage) w :
  AssignLaneChange W fuel actor_id vehicle_location vehicle_speed force direction s
    = Ok (Some w, s') →
  ∃ front_waypoint rest neighbour k,
    buffer_map s !! actor_id = Some (front_waypoint :: rest)
    ∧ (SimpleWaypoint.GetLeftWaypoint (graph W) front_waypoint = Some neighbour
       ∨ SimpleWaypoint.GetRightWaypoint (graph W) front_waypoint = Some neighbour)
    ∧ nth_successor (graph W) k neighbour = Some w
    ∧ ((9 <= SimpleWaypoint.DistanceSquared (graph W) w neighbour)%Q
       ∨ SimpleWaypoint.CheckJunction (graph W) w = true)
    ∧ (∀ i q, (i < k)%nat → nth_successor (graph W) i neighbour = Some q →
              (SimpleWaypoint.DistanceSquared (graph W) q neighbour < 400)%Q
              ∧ SimpleWaypoint.CheckJunction (graph W) q = false).
Proof.
  intros H.
  apply AssignLaneChange_Some_inv in H as (fw & rest & start & Hb & Hside & Hadv).
  apply advance_change_over_stops in Hadv as (k & _ & Hnth & Hbefore & Hstop).
  destruct (Clamp_bounds ((3 # 2) * vehicle_speed) 3 20) as [Hlo Hhi]; [done |].
  set (D := Clamp ((3 # 2) * vehicle_speed) 3 20) in *.
  assert (H9 : (9 <= SQUARE D)%Q).
  { change 9%Q with (SQUARE 3). by apply SQUARE_le. }
  assert (H400 : (SQUARE D <= 400)%Q).
  { change 400%Q with (SQUARE 20). apply SQUARE_le; [| done].
    by eapply Qle_trans; [| exact Hlo]. }
  exists fw, rest, start, k. do 3 (split; [done |]). split.
  - apply keeps_advancing_false in Hstop as [Hd | Hj]; [left | by right].
    by eapply Qle_trans.
  - intros i q Hi Hq. apply (Hbefore i q Hi), keeps_advancing_true in Hq as [Hd Hj].
    split; [| done]. by eapply Qlt_le_trans.
Qed.

Lemma AssignLaneChange_change_over_range_witness :
  ∃ neighbour k,
    nth_successor Sample.right_lane_road k neighbour = Some 101%N
    ∧ ((9 <= SimpleWaypoint.DistanceSquared Sample.right_lane_road 101%N neighbour)%Q
       ∨ SimpleWaypoint.CheckJunction Sample.right_lane_road 101%N = true).
Proof.
  destruct (AssignLaneChange_change_over_range
              (Sample.world Sample.right_lane_road 0) 5 7%N (mkLoc 0 0 0) 20
              true true (Sample.stage (Some [0%N]) Sample.no_output)
              (Sample.stage (Some [0%N]) Sample.no_output) 101%N)
    as (fw & rest & nb & k & _ & _ & Hnth & Hstop & _);
    [vm_compute; reflexivity |].
  by exists nb, k.
Defined.

(** ** [DrawBuffer] *)

Lemma wrap64_small n : (n < 2 ^ 64)%N → wrap64 n = n.
Proof. intros H. unfold wrap64. by apply N.mod_small. Qed.

Lemma draw_lines_O g (b : list N) step i :
  draw_lines 0 g b step i
  = if (wrap64 (i + step) <? N.of_nat (length b))%N then Err OutOfFuel else Ok [].
Proof. reflexivity. Qed.

Lemma draw_lines_S n g (b : list N) step i :
  draw_lines (S n) g b step i
  = if (wrap64 (i + step) <? N.of_nat (length b))%N then
      match b !! N.to_nat i, b !! N.to_nat (wrap64 (i + step)) with
      | Some from, Some to =>
          match draw_lines n g b step (wrap64 (i + step)) with
          | Ok lines => Ok ((raised g from, raised g to) :: lines)
          | Err f => Err f
          end
      | _, _ => Err OutOfRange
      end
    else Ok [].
Proof. reflexivity. Qed.

(** With a step of zero the loop of line 415 stays at index 0. *)
Lemma draw_lines_stuck fuel g (b : list N) :
  (0 < length b)%nat → draw_lines fuel g b 0 0 = Err OutOfFuel.
Proof.
  intros Hlen.
  assert (Hcond : (wrap64 (0 + 0) <? N.of_nat (length b))%N = true).
  { rewrite wrap64_small by done. apply N.ltb_lt. lia. }
  induction fuel as [|n IH].
  - by rewrite draw_lines_O, Hcond.
  - rewrite draw_lines_S, Hcond. rewrite (wrap64_small (0 + 0)) by done.
    destruct b as [|x b]; [simpl in Hlen; lia |].
    change (N.to_nat (0 + 0)) with 0%nat. change (N.to_nat 0) with 0%nat.
    cbn [lookup list_lookup]. change (0 + 0)%N with 0%N. by rewrite IH.
Qed.

(** X5. [DrawBuffer] draws nothing for an empty buffer, and does not
    return for a buffer of one to nine waypoints: the step, a tenth of the
    size rounded down, is zero, and the loop of line 415 draws the line
    from the first waypoint to itself again and again. *)
Theorem DrawBuffer_short_buffer fuel g (b : list N) :
  DrawBuffer fuel g [] = Ok []
  ∧ ((0 < length b < 10)%nat → DrawBuffer fuel g b = Err OutOfFuel).
Proof.
  split; [by destruct fuel |].
  intros [H0 H10]. unfold DrawBuffer.
  rewrite N.div_small by lia. by apply draw_lines_stuck.
Qed.

Lemma DrawBuffer_short_buffer_witness :
  DrawBuffer 1000 Sample.straight_road [0%N; 1%N; 2%N] = Err OutOfFuel.
Proof.
  apply (DrawBuffer_short_buffer 1000 Sample.straight_road [0%N; 1%N; 2%N]).
  simpl. lia.
Defined.

(** The loop of line 415 from index [i] on, with a step that is not zero:
    it draws [(size - 1 - i) / step] lines, the [k]-th from the waypoint at
    [i + k step] to the waypoint at [i + (k + 1) step]. *)
Lemma draw_lines_from g (b : list N) (step : N) n :
  ∀ fuel i,
    (0 < step)%N → (N.of_nat (length b) + step < 2 ^ 64)%N →
    (i ≤ N.of_nat (length b))%N →
    N.to_nat ((N.of_nat (length b) - 1 - i) / step) = n →
    (n ≤ fuel)%nat →
    ∃ lines, draw_lines fuel g b step i = Ok lines
      ∧ length lines = n
      ∧ ∀ k, (k < n)%nat →
          ∃ p q, b !! (N.to_nat i + k * N.to_nat step)%nat = Some p
                 ∧ b !! (N.to_nat i + (k + 1) * N.to_nat step)%nat = Some q
                 ∧ lines !! k = Some (raised g p, raised g q).
Proof.
  induction n as [|n IH]; intros fuel i Hstep Hwrap Hi Hn Hfuel.
  - assert (Hd : ((N.of_nat (length b) - 1 - i) / step = 0)%N) by lia.
    apply N.div_small_iff in Hd; [| lia].
    assert (Hcond : (wrap64 (i + step) <? N.of_nat (length b))%N = false).
    { rewrite wrap64_small by lia. apply N.ltb_ge. lia. }
    exists []. split; [| split; [done | intros k Hk; lia]].
    destruct fuel; [rewrite draw_lines_O | rewrite draw_lines_S]; by rewrite Hcond.
  - destruct fuel as [|fuel]; [lia |].
    set (size := N.of_nat (length b)) in *.
    assert (Hd : (1 ≤ (size - 1 - i) / step)%N) by lia.
    assert (Hge : (step ≤ size - 1 - i)%N).
    { pose proof (N.Div0.mul_div_le (size - 1 - i) step). nia. }
    assert (Hlt : (i + step < size)%N) by lia.
    rewrite draw_lines_S. fold size. rewrite wrap64_small by lia.
    destruct (N.ltb_spec (i + step) size) as [_ | Hno]; [| lia].
    destruct (lookup_lt_is_Some_2 b (N.to_nat i)) as [p Hp]; [subst size; lia |].
    destruct (lookup_lt_is_Some_2 b (N.to_nat (i + step))) as [q Hq];
      [subst size; lia |].
    rewrite Hp, Hq.
    destruct (IH fuel (i + step)%N) as (lines & Hrun & Hlen & Hlines);
      try done; try lia.
    { fold size.
      assert (Hsplit : (size - 1 - i = (size - 1 - (i + step)) + 1 * step)%N) by lia.
      rewrite Hsplit, N.div_add in Hn by lia. lia. }
    rewrite Hrun. exists ((raised g p, raised g q) :: lines).
    split; [done |]. split; [simpl; by rewrite Hlen |].
    intros [|k] Hk.
    + exists p, q. split; [by rewrite Nat.add_0_r |]. split; [| done].
      rewrite <- Hq. f_equal. lia.
    + destruct (Hlines k) as (p' & q' & Hp' & Hq' & Hl); [lia |].
      exists p', q'. split; [rewrite <- Hp'; f_equal; lia |].
      split; [rewrite <- Hq'; f_equal; lia | done].
Qed.

(** X6. For a buffer of ten waypoints or more [DrawBuffer] returns: with
    [step], a tenth of the size rounded down, it draws
    [(size - 1) / step] lines, between 9 and 18 of them, the [k]-th from
    the waypoint at index [k step] to the one at index [(k + 1) step];
    no index is out of range. *)
Theorem DrawBuffer_lines fuel g (b : list N) :
  (10 ≤ length b)%nat → (N.of_nat (length b) < 2 ^ 63)%N → (18 ≤ fuel)%nat →
  ∃ lines, DrawBuffer fuel g b = Ok lines
    ∧ length lines = ((length b - 1) / (length b / 10))%nat
    ∧ (9 ≤ length lines ≤ 18)%nat
    ∧ ∀ k, (k < length lines)%nat →
        ∃ p q, b !! (k * (length b / 10))%nat = Some p
               ∧ b !! ((k + 1) * (length b / 10))%nat = Some q
               ∧ lines !! k = Some (raised g p, raised g q).
Proof.
  intros Hlen Hsmall Hfuel. unfold DrawBuffer.
  set (size := N.of_nat (length b)) in *.
  set (step := (size / 10)%N).
  assert (Hstep : (1 ≤ step)%N).
  { subst step. apply N.div_le_lower_bound; lia. }
  assert (Hstep10 : (10 * step ≤ size)%N).
  { subst step. apply N.Div0.mul_div_le. }
  assert (Hstep19 : (size < 10 * step + 10)%N).
  { subst step. pose proof (N.mod_lt size 10). pose proof (N.div_mod size 10). lia. }
  assert (Hcount9 : (9 ≤ (size - 1) / step)%N).
  { apply N.div_le_lower_bound; lia. }
  assert (Hcount18 : ((size - 1) / step < 19)%N).
  { apply N.Div0.div_lt_upper_bound; lia. }
  assert (Hstepnat : N.to_nat step = (length b / 10)%nat).
  { subst step size. rewrite N2Nat.inj_div, Nat2N.id. reflexivity. }
  assert (Hcountnat : N.to_nat ((size - 1) / step)
                      = ((length b - 1) / (length b / 10))%nat).
  { rewrite N2Nat.inj_div, Hstepnat. f_equal. subst size. lia. }
  destruct (draw_lines_from g b step (N.to_nat ((size - 1) / step)) fuel 0%N)
    as (lines & Hrun & Hl & Hlines); try lia.
  { fold size. by rewrite N.sub_0_r. }
  exists lines. split; [exact Hrun |]. split; [by rewrite Hl |].
  split; [lia |].
  intros k Hk. destruct (Hlines k) as (p & q & Hp & Hq & Hline); [lia |].
  exists p, q. rewrite Hstepnat in Hp, Hq. simpl in Hp, Hq. done.
Qed.

Lemma DrawBuffer_lines_witness :
  ∃ lines, DrawBuffer 18 Sample.straight_road (N.of_nat <$> seq 0 25) = Ok lines
    ∧ length lines = 12%nat.
Proof.
  destruct (DrawBuffer_lines 18 Sample.straight_road (N.of_nat <$> seq 0 25))
    as (lines & Hrun & Hl & _); [simpl; lia | by vm_compute | lia |].
  exists lines. split; [exact Hrun | exact Hl].
Defined.

(** ** What [Update] leaves alone *)

(** A view of the stage that does not see what [Update] may write for the
    actor at hand is left alone by every phase of [Update]. *)
Section Footprint.
Context (W : World) (a : ActorId) {X : Type} (f : Stage -> X).
Hypothesis f_buffer : ∀ x s, f (set_buffer_map <[a := x]> s) = f s.
Hypothesis f_traffic : ∀ g s, f (set_track_traffic g s) = f s.
Hypothesis f_rand : ∀ g s, f (set_rand_calls g s) = f s.

Ltac footprint_step :=
  lazymatch goal with
  | |- preserves _ (bind _ _) => apply preserves_bind; [ | intros ? ]
  | |- preserves _ (match ?x with _ => _ end) => destruct x
  | |- preserves _ (modify _) => apply preserves_modify; intros ?; solve [eauto]
  | |- preserves _ _ => solve [ eauto with frame ]
  end.
Ltac footprint := repeat footprint_step.

Lemma rand_footprint : preserves f (rand W).
Proof. intros s r s' H. unfold rand in H. simplify_eq. apply f_rand. Qed.

Lemma PushWaypoint_footprint p : preserves f (PushWaypoint a p).
Proof. unfold PushWaypoint. footprint. Qed.

Lemma PopWaypoint_footprint fb : preserves f (PopWaypoint a fb).
Proof. unfold PopWaypoint. footprint. Qed.
Hint Resolve rand_footprint PushWaypoint_footprint PopWaypoint_footprint : frame.

Lemma pop_all_footprint n : preserves f (pop_all n a).
Proof. induction n; simpl; footprint. Qed.
Hint Resolve pop_all_footprint : frame.

Lemma clear_stale_buffer_footprint loc : preserves f (clear_stale_buffer W a loc).
Proof. unfold clear_stale_buffer. footprint. Qed.

Lemma purge_passed_footprint n loc h d : preserves f (purge_passed W n a loc h d).
Proof. revert d. induction n; intros d; simpl; footprint. Qed.

Lemma purge_far_footprint n e h2 : preserves f (purge_far W n a e h2).
Proof. induction n; simpl; footprint. Qed.
Hint Resolve clear_stale_buffer_footprint purge_passed_footprint
  purge_far_footprint : frame.

Lemma purge_buffer_footprint loc h h2 : preserves f (purge_buffer W a loc h h2).
Proof. unfold purge_buffer. footprint. Qed.

Lemma initialize_buffer_footprint loc : preserves f (initialize_buffer W a loc).
Proof. unfold initialize_buffer. footprint. Qed.

Lemma AssignLaneChange_footprint fuel loc speed force dir :
  preserves f (AssignLaneChange W fuel a loc speed force dir).
Proof. apply preserves_read_only, AssignLaneChange_preserves_stage. Qed.

Lemma populate_buffer_footprint fuel h2 : preserves f (populate_buffer W fuel a h2).
Proof. induction fuel; simpl; footprint. Qed.

Lemma scan_buffer_footprint safe2 l st : preserves f (scan_buffer W safe2 l st).
Proof. apply preserves_read_only, scan_buffer_read_only. Qed.

Lemma extend_past_junction_footprint fuel st :
  preserves f (extend_past_junction W fuel a st).
Proof. revert st. induction fuel; intros st; simpl; footprint. Qed.

Lemma extend_to_safe_point_footprint fuel safe2 st :
  preserves f (extend_to_safe_point W fuel a safe2 st).
Proof. revert st. induction fuel; intros st; simpl; footprint. Qed.
Hint Resolve purge_buffer_footprint initialize_buffer_footprint
  AssignLaneChange_footprint populate_buffer_footprint scan_buffer_footprint
  extend_past_junction_footprint extend_to_safe_point_footprint : frame.

Lemma extend_to_find_safe_point_footprint fuel safe2 st :
  preserves f (extend_to_find_safe_point W fuel a safe2 st).
Proof. unfold extend_to_find_safe_point. footprint. Qed.
Hint Resolve extend_to_find_safe_point_footprint : frame.

(** The lane change writes the entry of the actor in the lane-change
    memory, the junction handling its membership in the tracking set and
    its output record. *)
Hypothesis f_memory :
  ∀ x s, f (set_last_lane_change_location <[a := x]> s) = f s.

Lemma lane_change_footprint fuel loc speed :
  preserves f (lane_change W fuel a loc speed).
Proof. unfold lane_change. footprint. Qed.
Hint Resolve lane_change_footprint : frame.

Context (index : nat).
Hypothesis f_enter : ∀ s, f (set_vehicles_at_junction (fun v => v ∪ {[a]}) s) = f s.
Hypothesis f_leave : ∀ s, f (set_vehicles_at_junction (fun v => v ∖ {[a]}) s) = f s.
Hypothesis f_output : ∀ d s, f (set_output_array <[index := d]> s) = f s.

Lemma write_output_footprint d : preserves f (write_output index d).
Proof. unfold write_output. footprint. Qed.
Hint Resolve write_output_footprint : frame.

Lemma junction_extension_footprint fuel e :
  preserves f (junction_extension W fuel index a e).
Proof. unfold junction_extension. footprint. Qed.
Hint Resolve junction_extension_footprint : frame.

Lemma Update_from_lane_change_footprint fuel e :
  preserves f (Update_from_lane_change W fuel index a e).
Proof. unfold Update_from_lane_change. footprint. Qed.

Lemma Update_footprint_of_view fuel s s' :
  vehicle_id_list W !! index = Some a →
  Update W fuel index s = Ok (tt, s') → f s' = f s.
Proof.
  intros Ha H. unfold Update in H.
  rewrite (bind_Ok _ _ _ _ _ (at_Ok _ _ _ _ Ha)) in H.
  rewrite (bind_Ok _ _ _ _ _ (modify_Ok _ _)) in H.
  assert (Hfirst : f (set_buffer_map
                        (fun m => match m !! a with
                                  | Some _ => m
                                  | None => <[a := []]> m
                                  end) s) = f s).
  { destruct (buffer_map s !! a) eqn:E.
    - f_equal. destruct s; unfold set_buffer_map; simpl in *. by rewrite E.
    - rewrite <- (f_buffer [] s). f_equal.
      destruct s; unfold set_buffer_map; simpl in *. by rewrite E. }
  rewrite <- Hfirst. revert H. generalize (set_buffer_map
      (fun m => match m !! a with Some _ => m | None => <[a := []]> m end) s).
  intros s0 H.
  assert (Hrest : preserves f
            (clear_stale_buffer W a (SimulationState.GetLocation (simulation_state W) a);;
             e <- purge_buffer W a (SimulationState.GetLocation (simulation_state W) a)
                    (SimulationState.GetHeading (simulation_state W) a)
                    (horizon_square_of W (SimulationState.GetSpeed (simulation_state W) a));;
             initialize_buffer W a (SimulationState.GetLocation (simulation_state W) a);;
             Update_from_lane_change W fuel index a e)).
  { pose proof Update_from_lane_change_footprint. footprint. }
  by apply Hrest in H.
Qed.

End Footprint.

(** X7. [Update] for the actor at [index] leaves everything of the other
    actors alone: their waypoint buffers, their entries in the lane-change
    memory, their membership in the junction-tracking set, and the output
    records at the other indices; the output array keeps its size. *)
Theorem Update_touches_one_actor (W : World) fuel index actor_id (s s' : Stage) :
  vehicle_id_list W !! index = Some actor_id →
  Update W fuel index s = Ok (tt, s') →
  (∀ b, b ≠ actor_id →
     buffer_map s' !! b = buffer_map s !! b
     ∧ last_lane_change_location s' !! b = last_lane_change_location s !! b
     ∧ (b ∈ vehicles_at_junction s' ↔ b ∈ vehicles_at_junction s))
  ∧ (∀ j, j ≠ index → output_array s' !! j = output_array s !! j)
  ∧ length (output_array s') = length (output_array s).
Proof.
  intros Ha H. split; [| split].
  - intros b Hb. split; [| split].
    + apply (Update_footprint_of_view W actor_id (fun s => buffer_map s !! b))
        with (index := index) (fuel := fuel); try done.
      intros x t. simpl. by apply lookup_insert_ne.
    + apply (Update_footprint_of_view W actor_id
               (fun s => last_lane_change_location s !! b))
        with (index := index) (fuel := fuel); try done.
      intros x t. simpl. by apply lookup_insert_ne.
    + pose (tracked := fun t : Stage => bool_decide (b ∈ vehicles_at_junction t)).
      assert (Hbool : tracked s' = tracked s).
      { apply (Update_footprint_of_view W actor_id tracked)
          with (index := index) (fuel := fuel); try done.
        - intros t. apply bool_decide_ext. simpl. set_tac.
        - intros t. apply bool_decide_ext. simpl. set_tac. }
      unfold tracked in Hbool.
      split; intros Hin; apply (bool_decide_unpack _);
        [rewrite <- Hbool | rewrite Hbool]; by apply bool_decide_pack.
  - intros j Hj.
    apply (Update_footprint_of_view W actor_id (fun s => output_array s !! j))
      with (index := index) (fuel := fuel); try done.
    intros d t. simpl. by apply list_lookup_insert_ne.
  - apply (Update_footprint_of_view W actor_id (fun s => length (output_array s)))
      with (index := index) (fuel := fuel); try done.
    intros d t. simpl. apply length_insert.
Qed.

Lemma Update_touches_one_actor_witness :
  ∃ s', Update (Sample.world Sample.straight_road (-5)) 10 0 two_actor_stage
        = Ok (tt, s')
    ∧ buffer_map s' !! 8%N = Some [5%N; 6%N]
    ∧ output_array s' !! 1%nat = Some Sample.stale_output.
Proof.
  assert (∃ s', Update (Sample.world Sample.straight_road (-5)) 10 0 two_actor_stage
                = Ok (tt, s')) as [s' E]
    by (eexists; vm_compute; reflexivity).
  destruct (Update_touches_one_actor (Sample.world Sample.straight_road (-5))
              10 0 7%N two_actor_stage s' eq_refl E) as (Hother & Hout & _).
  exists s'. split; [exact E |]. split.
  - destruct (Hother 8%N) as (Hb & _); [done |]. by rewrite Hb.
  - by rewrite (Hout 1%nat).
Defined.

(** ** Contiguous buffers *)

Lemma contiguous_tail g x l : contiguous g (x :: l) → contiguous g l.
Proof. destruct l; simpl; [done | by intros [_ H]]. Qed.

Lemma contiguous_removelast g l : contiguous g l → contiguous g (removelast l).
Proof.
  induction l as [|x l IH]; [done |].
  destruct l as [|y l]; [done |]. intros [Hxy Hl].
  destruct l as [|z l]; [done |].
  change (removelast (x :: y :: z :: l)) with (x :: y :: removelast (z :: l)).
  split; [done |]. by apply IH.
Qed.

Lemma contiguous_snoc g l w :
  contiguous g l →
  (∀ x, last l = Some x → Some w ∈ SimpleWaypoint.GetNextWaypoint g x) →
  contiguous g (l ++ [w]).
Proof.
  induction l as [|x l IH]; [done |]. intros Hl Hlast.
  destruct l as [|y l].
  - simpl. split; [by apply Hlast | done].
  - destruct Hl as [Hxy Hl]. change ((x :: y :: l) ++ [w]) with (x :: (y :: l) ++ [w]).
    simpl. split; [done |]. apply IH; [done |].
    intros z Hz. apply Hlast. by rewrite last_cons_cons.
Qed.

Lemma first_valid_elem (l : list (option N)) w :
  first_valid l = Some w → Some w ∈ l.
Proof.
  induction l as [|[x|] l IH]; simpl; intros H; [done | |].
  - simplify_eq. apply list_elem_of_here.
  - apply list_elem_of_further. by apply IH.
Qed.

Lemma keeps_ret {A} I (a : A) : keeps I (ret a).
Proof. intros s x s' H. unfold ret in H. by simplify_eq. Qed.

Lemma keeps_fault {A} I e : keeps I (@fault A e).
Proof. intros s x s' H. discriminate. Qed.

Lemma keeps_bind {A B} I (m : M A) (k : A -> M B) :
  keeps I m → (∀ a, keeps I (k a)) → keeps I (bind m k).
Proof.
  intros Hm Hk s b s2 H HI. apply bind_Ok_inv in H as (a & s1 & H1 & H2).
  eapply Hk; [exact H2 |]. by eapply Hm.
Qed.

Lemma keeps_read_only {A} I (m : M A) : preserves id m → keeps I m.
Proof. intros Hm s a s' H HI. apply Hm in H. unfold id in H. by subst. Qed.

Lemma keeps_modify I (g : Stage -> Stage) :
  (∀ s, I s → I (g s)) → keeps I (modify g).
Proof. intros Hg s a s' H HI. unfold modify in H. simplify_eq. by apply Hg. Qed.

Lemma PopWaypoint_Ok_inv a fb s u s' :
  PopWaypoint a fb s = Ok (u, s') →
  ∃ b w, buffer_map s !! a = Some b
    ∧ s' = set_track_traffic (TrackTrafficOps.RemovePassingVehicle w a)
             (set_buffer_map <[a := if fb then tail b else removelast b]> s).
Proof.
  intros H. unfold PopWaypoint in H.
  apply bind_Ok_inv in H as (b & s1 & Hb & H).
  apply buffer_at_Ok_inv in Hb as [Hb ->].
  apply bind_Ok_inv in H as (w & s2 & Hw & H).
  assert (s2 = s) as ->.
  { destruct fb; [by apply front_Ok_inv in Hw as [_ ->]
                 | by apply back_Ok_inv in Hw as [_ ->]]. }
  exists b, w. unfold bind, modify in H. by simplify_eq.
Qed.

Lemma buffers_contiguous_insert g a b s f :
  buffers_contiguous g s → contiguous g b →
  buffers_contiguous g (set_track_traffic f (set_buffer_map <[a := b]> s)).
Proof.
  intros HI Hb c bc. simpl. destruct (decide (c = a)) as [-> | Hne].
  - rewrite lookup_insert_eq. intros ?. by simplify_eq.
  - rewrite lookup_insert_ne by done. apply HI.
Qed.

Lemma buffers_contiguous_set_buffer g a b s :
  buffers_contiguous g s → contiguous g b →
  buffers_contiguous g (set_buffer_map <[a := b]> s).
Proof.
  intros HI Hb.
  exact (buffers_contiguous_insert g a b s (fun t => t) HI Hb).
Qed.

Create HintDb keep.

Ltac keeps_step :=
  first
    [ solve [ eauto with keep ]
    | lazymatch goal with
      | |- keeps _ (bind _ _) => apply keeps_bind; [ | intros ? ]
      | |- keeps _ (match ?x with _ => _ end) => destruct x
      | |- keeps _ (modify _) => apply keeps_modify; intros ? HI; exact HI
      | |- keeps _ _ => solve [ apply keeps_read_only; eauto with frame ]
      end ].
Ltac keeps_all := repeat keeps_step.

Section Contiguity.
Context (W : World) (a : ActorId).

Lemma rand_keeps : keeps (buffers_contiguous (graph W)) (rand W).
Proof. intros s r s' H HI. unfold rand in H. simplify_eq. exact HI. Qed.

Lemma PopWaypoint_keeps fb : keeps (buffers_contiguous (graph W)) (PopWaypoint a fb).
Proof.
  intros s u s' H HI. apply PopWaypoint_Ok_inv in H as (b & w & Hb & ->).
  apply buffers_contiguous_insert; [done |].
  specialize (HI a b Hb). destruct fb.
  - destruct b; [done | by eapply contiguous_tail].
  - by apply contiguous_removelast.
Qed.
Hint Resolve rand_keeps PopWaypoint_keeps : keep.

Lemma pop_all_keeps n : keeps (buffers_contiguous (graph W)) (pop_all n a).
Proof. induction n; simpl; keeps_all. Qed.
Hint Resolve pop_all_keeps : keep.

Lemma clear_stale_buffer_keeps loc :
  keeps (buffers_contiguous (graph W)) (clear_stale_buffer W a loc).
Proof. unfold clear_stale_buffer. keeps_all. Qed.

Lemma purge_passed_keeps n loc h d :
  keeps (buffers_contiguous (graph W)) (purge_passed W n a loc h d).
Proof. revert d. induction n; intros d; simpl; keeps_all. Qed.

Lemma purge_far_keeps n e h2 :
  keeps (buffers_contiguous (graph W)) (purge_far W n a e h2).
Proof. induction n; simpl; keeps_all. Qed.
Hint Resolve clear_stale_buffer_keeps purge_passed_keeps purge_far_keeps : keep.

Lemma purge_buffer_keeps loc h h2 :
  keeps (buffers_contiguous (graph W)) (purge_buffer W a loc h h2).
Proof. unfold purge_buffer. keeps_all. Qed.

(** A push keeps the buffers contiguous when the waypoint pushed is a
    successor of the back of the buffer. *)
Lemma PushWaypoint_keeps p s u s' :
  PushWaypoint a p s = Ok (u, s') →
  buffers_contiguous (graph W) s →
  (∀ b w x, buffer_map s !! a = Some b → p = Some w → last b = Some x →
            Some w ∈ SimpleWaypoint.GetNextWaypoint (graph W) x) →
  buffers_contiguous (graph W) s'.
Proof.
  intros H HI Hsucc. apply PushWaypoint_Ok_inv in H as (w & b & -> & Hb & ->).
  apply buffers_contiguous_insert; [done |].
  apply contiguous_snoc; [by apply (HI a) |]. intros x Hx. by eapply Hsucc.
Qed.

(** The buffer is seeded anew: emptied, then one waypoint pushed. *)
Lemma reseed_keeps p :
  keeps (buffers_contiguous (graph W))
    (waypoint_buffer <- buffer_at a;;
     pop_all (length waypoint_buffer) a;;
     PushWaypoint a p).
Proof.
  intros s u s' H HI.
  apply bind_Ok_inv in H as (b & s1 & Hb & H).
  apply buffer_at_Ok_inv in Hb as [Hb ->].
  rewrite (bind_Ok _ _ _ _ _ (pop_all_Ok _ _ _ Hb)) in H.
  eapply PushWaypoint_keeps; [exact H | |].
  - by apply buffers_contiguous_insert.
  - intros b' w x Hb' _ Hlast. simpl in Hb'. rewrite lookup_insert_eq in Hb'.
    by simplify_eq.
Qed.

Lemma initialize_buffer_keeps loc :
  keeps (buffers_contiguous (graph W)) (initialize_buffer W a loc).
Proof.
  intros s u s' H HI. unfold initialize_buffer in H.
  apply bind_Ok_inv in H as (b & s1 & Hb & H).
  apply buffer_at_Ok_inv in Hb as [Hb ->].
  destruct b; [| unfold ret in H; by simplify_eq].
  eapply PushWaypoint_keeps; [exact H | done |].
  intros b' w x Hb' _ Hlast. rewrite Hb in Hb'. by simplify_eq.
Qed.
Hint Resolve purge_buffer_keeps reseed_keeps initialize_buffer_keeps : keep.

Lemma AssignLaneChange_keeps fuel loc speed force dir :
  keeps (buffers_contiguous (graph W)) (AssignLaneChange W fuel a loc speed force dir).
Proof. apply keeps_read_only, AssignLaneChange_preserves_stage. Qed.
Hint Resolve AssignLaneChange_keeps : keep.

Lemma lane_change_keeps fuel loc speed :
  keeps (buffers_contiguous (graph W)) (lane_change W fuel a loc speed).
Proof. unfold lane_change. keeps_all. Qed.

Lemma populate_buffer_keeps fuel h2 :
  keeps (buffers_contiguous (graph W)) (populate_buffer W fuel a h2).
Proof.
  induction fuel as [|n IH]; intros s u s' H HI; simpl in H;
    apply bind_Ok_inv in H as (b & s1 & Hb & H);
    apply buffer_at_Ok_inv in Hb as [Hb ->];
    apply bind_Ok_inv in H as (bk & s2 & Hbk & H);
    apply back_Ok_inv in Hbk as [Hbk ->];
    apply bind_Ok_inv in H as (fr & s3 & Hfr & H);
    apply front_Ok_inv in Hfr as [Hfr ->];
    destruct (Qleb _ _); try discriminate;
    try (unfold ret in H; by simplify_eq).
  apply bind_Ok_inv in H as (i & s1 & Hi & H).
  assert (buffers_contiguous (graph W) s1 ∧ buffer_map s1 !! a = Some b) as [HI1 Hb1].
  { destruct (bool_decide _).
    - apply bind_Ok_inv in Hi as (r & s0 & Hr & Hi).
      unfold rand in Hr. unfold ret in Hi. by simplify_eq.
    - unfold ret in Hi. by simplify_eq. }
  apply bind_Ok_inv in H as (nw & s2 & Hnw & H).
  apply at_Ok_inv in Hnw as [Hnw ->].
  apply bind_Ok_inv in H as ([] & s2 & Hpush & H).
  eapply IH; [exact H |].
  eapply PushWaypoint_keeps; [exact Hpush | exact HI1 |].
  intros b' w x Hb' Hw Hx. rewrite Hb1 in Hb'. simplify_eq.
  destruct nw as [wp|].
  - simplify_eq. by eapply list_elem_of_lookup_2.
  - by apply first_valid_elem.
Qed.

(** While the safe point has not been found, the scan of the buffer
    stands at the last point it has read. *)
Lemma scan_buffer_current safe2 l st s st' s' :
  scan_buffer W safe2 l st s = Ok (st', s') →
  safe_point_found st' = false →
  current_waypoint st' = from_option Some (current_waypoint st) (last l).
Proof.
  revert st. induction l as [|wp l IH]; intros st H Hnot; simpl in H.
  - unfold ret in H. by simplify_eq.
  - destruct (safe_point_found st) eqn:Hfound; simpl in H.
    { unfold ret in H. simplify_eq. congruence. }
    apply bind_Ok_inv in H as (st1 & s1 & H1 & H).
    assert (current_waypoint st1 = Some wp ∧ s1 = s) as [Hcur ->].
    { unfold scan_point in H1.
      destruct (past_junction st || _).
      - apply bind_Ok_inv in H1 as (j & s2 & Hj & H1).
        apply deref_Ok_inv in Hj as [_ ->].
        destruct (Qgtb _ _); unfold ret in H1; by simplify_eq.
      - unfold ret in H1. by simplify_eq. }
    rewrite (IH _ H Hnot), Hcur, last_cons. by destruct (last l).
Qed.

Lemma extension_push_keeps cur next s u s1 st :
  head (SimpleWaypoint.GetNextWaypoint (graph W) cur) = Some next →
  PushWaypoint a next s = Ok (u, s1) →
  current_waypoint st = Some cur →
  buffers_contiguous (graph W) s → at_back a s st →
  ∃ w, next = Some w ∧ buffers_contiguous (graph W) s1
       ∧ ∃ b, buffer_map s1 !! a = Some (b ++ [w]).
Proof.
  intros Hnext Hpush Hcur HI Hback.
  pose proof Hpush as Hinv.
  apply PushWaypoint_Ok_inv in Hinv as (w & b & -> & Hb & ->).
  exists w. split; [done |]. split.
  - eapply PushWaypoint_keeps; [exact Hpush | exact HI |].
    intros b' w' x Hb' Hw Hx.
    rewrite (Hback _ _ Hb' Hcur) in Hx. simplify_eq.
    apply head_Some_elem_of in Hnext. exact Hnext.
  - exists b. simpl. by rewrite lookup_insert_eq.
Qed.

Lemma at_back_pushed s b w st :
  buffer_map s !! a = Some (b ++ [w]) → current_waypoint st = Some w →
  at_back a s st.
Proof.
  intros Hb Hcur b' c Hb' Hc. rewrite Hb in Hb'. rewrite Hcur in Hc.
  simplify_eq. apply last_snoc.
Qed.

Lemma extend_past_junction_keeps fuel st s st' s' :
  extend_past_junction W fuel a st s = Ok (st', s') →
  buffers_contiguous (graph W) s → at_back a s st →
  buffers_contiguous (graph W) s' ∧ at_back a s' st'.
Proof.
  revert st s. induction fuel as [|n IH]; intros st s H HI Hback; simpl in H;
    destruct (past_junction st); simpl in H;
    try (unfold ret in H; by simplify_eq); try discriminate.
  apply bind_Ok_inv in H as (cur & s1 & Hcur & H).
  apply deref_Ok_inv in Hcur as [Hcur ->].
  apply bind_Ok_inv in H as (next & s1 & Hnext & H).
  apply front_Ok_inv in Hnext as [Hnext ->].
  apply bind_Ok_inv in H as ([] & s1 & Hpush & H).
  apply bind_Ok_inv in H as (w & s2 & Hw & H).
  apply deref_Ok_inv in Hw as [-> ->].
  destruct (extension_push_keeps _ _ _ _ _ _ Hnext Hpush Hcur HI Hback)
    as (w' & Hw' & HI1 & b & Hb1).
  simplify_eq. eapply IH; [exact H | exact HI1 |].
  by eapply at_back_pushed.
Qed.

Lemma extend_to_safe_point_keeps fuel safe2 st s st' s' :
  extend_to_safe_point W fuel a safe2 st s = Ok (st', s') →
  buffers_contiguous (graph W) s → at_back a s st →
  buffers_contiguous (graph W) s' ∧ at_back a s' st'.
Proof.
  revert st s. induction fuel as [|n IH]; intros st s H HI Hback; simpl in H;
    destruct (safe_point_found st); simpl in H;
    try (unfold ret in H; by simplify_eq); try discriminate.
  apply bind_Ok_inv in H as (cur & s1 & Hcur & H).
  apply deref_Ok_inv in Hcur as [Hcur ->].
  apply bind_Ok_inv in H as (j & s1 & Hj & H).
  apply deref_Ok_inv in Hj as [Hj ->].
  destruct (_ || _).
  - eapply IH; [exact H | exact HI |].
    intros b c Hb Hc. simpl in Hc. simplify_eq. by eapply Hback.
  - apply bind_Ok_inv in H as (next & s1 & Hnext & H).
    apply front_Ok_inv in Hnext as [Hnext ->].
    apply bind_Ok_inv in H as ([] & s1 & Hpush & H).
    destruct (extension_push_keeps _ _ _ _ _ _ Hnext Hpush Hcur HI Hback)
      as (w' & -> & HI1 & b & Hb1).
    eapply IH; [exact H | exact HI1 |].
    by eapply at_back_pushed.
Qed.

Lemma junction_extension_keeps fuel index entrance :
  keeps (buffers_contiguous (graph W)) (junction_extension W fuel index a entrance).
Proof.
  intros s u s' H HI. unfold junction_extension in H.
  apply bind_Ok_inv in H as (tracked & s0 & Ht & H).
  unfold gets in Ht. injection Ht as <- <-.
  destruct (entrance && _).
  - rewrite (bind_Ok _ _ _ _ _ (modify_Ok _ _)) in H.
    apply bind_Ok_inv in H as (b & s1 & Hb & H).
    apply buffer_at_Ok_inv in Hb as [Hb ->].
    apply bind_Ok_inv in H as (st & s1 & Hscan & H).
    pose proof (scan_buffer_read_only W _ _ _ _ _ _ Hscan) as Hs1.
    unfold id in Hs1. subst s1.
    apply bind_Ok_inv in H as (st1 & s1 & Hext & H).
    apply write_output_Ok_inv in H as [_ ->].
    change (buffers_contiguous (graph W) s1).
    unfold extend_to_find_safe_point in Hext.
    destruct (safe_point_found st) eqn:Hfound; simpl in Hext.
    { unfold ret in Hext. by simplify_eq. }
    apply bind_Ok_inv in Hext as (st0 & s0 & Hpast & Hsafe).
    apply (scan_buffer_current _ _ _ _ _ _ Hscan) in Hfound. simpl in Hfound.
    apply extend_past_junction_keeps in Hpast as [HI0 Hback0]; [| exact HI |].
    + by apply (extend_to_safe_point_keeps _ _ _ _ _ _ Hsafe).
    + intros b' c Hb' Hc. simpl in Hb, Hb'. rewrite Hb in Hb'. simplify_eq.
      rewrite Hfound in Hc. by destruct (last b').
  - destruct (negb entrance && _).
    + rewrite (bind_Ok _ _ _ _ _ (modify_Ok _ _)) in H.
      apply write_output_Ok_inv in H as [_ ->]. exact HI.
    + unfold ret in H. by simplify_eq.
Qed.
Hint Resolve lane_change_keeps populate_buffer_keeps junction_extension_keeps : keep.

Lemma Update_from_lane_change_keeps fuel index entrance :
  keeps (buffers_contiguous (graph W))
    (Update_from_lane_change W fuel index a entrance).
Proof. unfold Update_from_lane_change. keeps_all. Qed.

End Contiguity.

(** X8. [Update] keeps every waypoint buffer a path of the road graph:
    if, in each buffer, each waypoint is among the successors of the one
    before it, the same holds of each buffer after the update. *)
Theorem Update_keeps_buffers_contiguous (W : World) (fuel index : nat) (s s' : Stage) :
  Update W fuel index s = Ok (tt, s') →
  buffers_contiguous (graph W) s →
  buffers_contiguous (graph W) s'.
Proof.
  intros H HI. unfold Update in H.
  apply bind_Ok_inv in H as (a & s0 & Ha & H).
  apply at_Ok_inv in Ha as [Ha ->].
  rewrite (bind_Ok _ _ _ _ _ (modify_Ok _ _)) in H.
  lazymatch type of H with
  | ?m _ = _ => assert (keeps (buffers_contiguous (graph W)) m) as Hk
  end.
  { apply keeps_bind; [apply clear_stale_buffer_keeps | intros []].
    apply keeps_bind; [apply purge_buffer_keeps | intros entrance].
    apply keeps_bind; [apply initialize_buffer_keeps | intros []].
    apply Update_from_lane_change_keeps. }
  apply (Hk _ _ _ H). intros c b. simpl.
  destruct (buffer_map s !! a) eqn:Hb; [apply HI |].
  apply (buffers_contiguous_set_buffer _ a [] s HI I).
Qed.

Lemma Update_keeps_buffers_contiguous_witness :
  ∃ s', Update (Sample.world Sample.straight_road (-5)) 10 0 two_actor_stage
        = Ok (tt, s')
    ∧ buffers_contiguous Sample.straight_road two_actor_stage
    ∧ buffers_contiguous Sample.straight_road s'.
Proof.
  assert (∃ s', Update (Sample.world Sample.straight_road (-5)) 10 0 two_actor_stage
                = Ok (tt, s')) as [s' E]
    by (eexists; vm_compute; reflexivity).
  assert (buffers_contiguous Sample.straight_road two_actor_stage) as HI.
  { intros c b Hb. unfold two_actor_stage in Hb. simpl in Hb.
    apply lookup_insert_Some in Hb as [[<- <-] | [_ Hb]].
    - split; [apply list_elem_of_here | done].
    - apply lookup_singleton_Some in Hb as [<- <-].
      split; [apply list_elem_of_here | done]. }
  exists s'. split; [exact E |]. split; [exact HI |].
  exact (Update_keeps_buffers_contiguous
           (Sample.world Sample.straight_road (-5)) 10 0 two_actor_stage s' E HI).
Defined.

(** ** The purge of the buffer *)

Lemma set_buffer_twice a b1 b2 f1 f2 s :
  set_track_traffic f2 (set_buffer_map <[a := b2]>
    (set_track_traffic f1 (set_buffer_map <[a := b1]> s)))
  = set_track_traffic (fun t => f2 (f1 t)) (set_buffer_map <[a := b2]> s).
Proof.
  destruct s. unfold set_track_traffic, set_buffer_map. simpl.
  f_equal. apply insert_insert_eq.
Qed.

Lemma set_buffer_same a b s :
  buffer_map s !! a = Some b →
  s = set_track_traffic (fun t => t) (set_buffer_map <[a := b]> s).
Proof.
  intros Hb. destruct s. unfold set_track_traffic, set_buffer_map. simpl in *.
  f_equal. symmetry. by apply insert_id.
Qed.

Lemma head_removelast {A} (x y : A) l : head (removelast (x :: l)) = Some y → y = x.
Proof. destruct l; simpl; intros H; by simplify_eq. Qed.

Lemma removelast_take {A} (l : list A) : removelast l = take (length l - 1) l.
Proof.
  rewrite removelast_firstn_len. f_equal. lia.
Qed.

Section Purge.
Context (W : World) (a : ActorId).

(** The loop of lines 64-72 leaves the buffer without its leading passed
    waypoints. *)
Lemma purge_passed_result n dot s b :
  buffer_map s !! a = Some b → (length b ≤ n)%nat →
  (∀ w rest, b = w :: rest → Qleb dot 0 = passed W a w) →
  ∃ f, purge_passed W n a (SimulationState.GetLocation (simulation_state W) a)
         (SimulationState.GetHeading (simulation_state W) a) dot s
       = Ok (tt, set_track_traffic f (set_buffer_map <[a := drop_passed W a b]> s)).
Proof.
  revert dot s b. induction n as [|n IH]; intros dot s b Hb Hn Hdot; simpl;
    rewrite (bind_Ok _ _ _ _ _ (buffer_at_Ok _ _ _ Hb)).
  - destruct b; [| simpl in Hn; lia].
    rewrite andb_false_r. exists (fun t => t). unfold ret. simpl.
    by rewrite <- set_buffer_same.
  - destruct b as [|w b].
    { rewrite andb_false_r. exists (fun t => t). unfold ret. simpl.
      by rewrite <- set_buffer_same. }
    rewrite (Hdot w b eq_refl). simpl. destruct (passed W a w) eqn:Hw; simpl.
    + rewrite (bind_Ok _ _ _ _ _ (PopWaypoint_front_Ok _ _ _ _ Hb)).
      erewrite bind_Ok by (apply buffer_at_Ok; simpl; apply lookup_insert_eq).
      edestruct (IH (match b with
                     | w' :: _ => DeviationDotProduct W (SimulationState.GetLocation (simulation_state W) a)
         (SimulationState.GetHeading (simulation_state W) a)
                                    (SimpleWaypoint.GetLocation (graph W) w')
                     | [] => dot
                     end) (set_track_traffic (TrackTrafficOps.RemovePassingVehicle w a)
                             (set_buffer_map <[a := b]> s)) b) as [f Hf].
      * simpl. apply lookup_insert_eq.
      * simpl in Hn. lia.
      * intros w' rest ->. reflexivity.
      * rewrite Hf, set_buffer_twice. by eexists.
    + exists (fun t => t). unfold ret. by rewrite <- set_buffer_same.
Qed.

(** The loop of lines 78-83 leaves a prefix of the buffer: all of it at
    a junction entrance; otherwise the longest prefix whose back is
    within the horizon of the front waypoint [fw] (or nothing). *)
Lemma purge_far_result n entrance h2 fw s b :
  buffer_map s !! a = Some b → (length b ≤ n)%nat →
  (∀ x, head b = Some x → x = fw) →
  ∃ k f, (k ≤ length b)%nat
    ∧ purge_far W n a entrance h2 s
      = Ok (tt, set_track_traffic f (set_buffer_map <[a := take k b]> s))
    ∧ (entrance = true → k = length b)
    ∧ (entrance = false → ∀ bw, last (take k b) = Some bw →
         (SimpleWaypoint.DistanceSquared (graph W) bw fw <= h2)%Q)
    ∧ (∀ j bw, (k < j ≤ length b)%nat → last (take j b) = Some bw →
         (h2 < SimpleWaypoint.DistanceSquared (graph W) bw fw)%Q).
Proof.
  revert s b. induction n as [|n IH]; intros s b Hb Hn Hfw; simpl;
    rewrite (bind_Ok _ _ _ _ _ (buffer_at_Ok _ _ _ Hb)).
  - destruct b; [| simpl in Hn; lia].
    exists 0%nat, (fun t => t). split; [done |]. unfold ret. simpl.
    rewrite <- set_buffer_same by done. split; [done |].
    split; [done |]. split; [done |]. intros j bw Hj. simpl in Hj. lia.
  - destruct b as [|x b].
    { exists 0%nat, (fun t => t). split; [done |]. unfold ret. simpl.
      rewrite <- set_buffer_same by done. split; [done |].
      split; [done |]. split; [done |]. intros j bw Hj. simpl in Hj. lia. }
    pose proof (Hfw x eq_refl) as ->.
    destruct (last (fw :: b)) as [bw|] eqn:Hl;
      [| by rewrite last_cons in Hl; destruct (last b)].
    destruct (negb entrance && Qgtb _ _) eqn:Hc.
    + apply andb_true_iff in Hc as [He Hd].
      apply negb_true_iff in He. subst entrance.
      apply Qltb_true in Hd.
      rewrite (bind_Ok _ _ _ _ _ (PopWaypoint_back_Ok _ _ _ _ Hb Hl)).
      assert (Hlen : length (removelast (fw :: b)) = length b).
      { rewrite removelast_take, length_take. simpl. lia. }
      edestruct (IH (set_track_traffic (TrackTrafficOps.RemovePassingVehicle bw a)
                       (set_buffer_map <[a := removelast (fw :: b)]> s))
                    (removelast (fw :: b)))
        as (k & f & Hk & Hrun & _ & Hnear & Hfar).
      * simpl. apply lookup_insert_eq.
      * rewrite Hlen. simpl in Hn. lia.
      * intros y. apply head_removelast.
      * rewrite Hlen in Hk, Hfar.
        assert (Htake : ∀ j, (j ≤ length b)%nat →
                   take j (removelast (fw :: b)) = take j (fw :: b)).
        { intros j Hj. rewrite removelast_take, take_take. f_equal. simpl. lia. }
        exists k, (fun t => f (TrackTrafficOps.RemovePassingVehicle bw a t)).
        split; [simpl; lia |].
        split; [by rewrite Hrun, set_buffer_twice, Htake |].
        split; [done |]. split.
        -- intros _ bw' Hbw'. apply (Hnear eq_refl). by rewrite Htake.
        -- intros j bw' Hj Hbw'. simpl in Hj.
           destruct (decide (j ≤ length b)%nat) as [Hle | Hgt].
           ++ apply (Hfar j); [lia |]. by rewrite Htake.
           ++ assert (j = length (fw :: b)) as -> by (simpl; lia).
              rewrite firstn_all in Hbw'. rewrite Hl in Hbw'. by simplify_eq.
    + exists (length (fw :: b)), (fun t => t). split; [done |].
      unfold ret. rewrite firstn_all, <- set_buffer_same by done.
      split; [done |]. split; [done |]. split.
      * intros -> bw' Hbw'. rewrite Hl in Hbw'. simplify_eq.
        simpl in Hc. by apply Qltb_false in Hc.
      * intros j bw' Hj. lia.
Qed.

End Purge.

(** X9. The purge of lines 58-84, for a buffer [b] with a waypoint that is
    still ahead of the vehicle: the leading passed waypoints go, [fw], the
    first one ahead, becomes the front, and of what remains the purge keeps
    a prefix, the first [k] waypoints.  At a junction entrance (the front
    is no junction waypoint, the look-ahead point is one) it keeps all of
    them; otherwise the back of what it keeps is within the horizon of
    [fw], and every longer prefix ends beyond it.  Nothing but the buffer
    of the actor and the registry changes. *)
Theorem purge_buffer_result (W : World) (a : ActorId) (h2 : Q) (s : Stage)
    (b : Buffer) (fw : WaypointId) (rest : Buffer) :
  buffer_map s !! a = Some b →
  drop_passed W a b = fw :: rest →
  (SimpleWaypoint.CheckJunction (graph W) fw = false →
   is_Some (GetTargetWaypoint W (fw :: rest) (JUNCTION_LOOK_AHEAD (constants W)))) →
  ∃ entrance k f,
    purge_buffer W a (SimulationState.GetLocation (simulation_state W) a)
      (SimulationState.GetHeading (simulation_state W) a) h2 s
    = Ok (entrance,
          set_track_traffic f (set_buffer_map <[a := take k (fw :: rest)]> s))
    ∧ entrance
      = negb (SimpleWaypoint.CheckJunction (graph W) fw)
        && from_option (SimpleWaypoint.CheckJunction (graph W)) false
             (GetTargetWaypoint W (fw :: rest) (JUNCTION_LOOK_AHEAD (constants W)))
    ∧ (k ≤ length (fw :: rest))%nat
    ∧ (entrance = true → k = length (fw :: rest))
    ∧ (entrance = false → ∀ bw, last (take k (fw :: rest)) = Some bw →
         (SimpleWaypoint.DistanceSquared (graph W) bw fw <= h2)%Q)
    ∧ (∀ j bw, (k < j ≤ length (fw :: rest))%nat →
         last (take j (fw :: rest)) = Some bw →
         (h2 < SimpleWaypoint.DistanceSquared (graph W) bw fw)%Q).
Proof.
  intros Hb Hdrop Hlook. unfold purge_buffer.
  rewrite (bind_Ok _ _ _ _ _ (buffer_at_Ok _ _ _ Hb)).
  destruct b as [|w0 b0]; [discriminate |].
  destruct (purge_passed_result W a (length (w0 :: b0))
              (DeviationDotProduct W
                 (SimulationState.GetLocation (simulation_state W) a)
                 (SimulationState.GetHeading (simulation_state W) a)
                 (SimpleWaypoint.GetLocation (graph W) w0)) s (w0 :: b0) Hb)
    as [f1 Hrun1]; [done | by intros w r [= <- <-] |].
  rewrite (bind_Ok _ _ _ _ _ Hrun1), Hdrop.
  erewrite bind_Ok by (apply buffer_at_Ok; simpl; apply lookup_insert_eq).
  cbv zeta. erewrite (bind_Ok (front _)) by reflexivity.
  set (entrance := negb (SimpleWaypoint.CheckJunction (graph W) fw)
                   && from_option (SimpleWaypoint.CheckJunction (graph W)) false
                        (GetTargetWaypoint W (fw :: rest)
                           (JUNCTION_LOOK_AHEAD (constants W)))).
  erewrite (bind_Ok _ _ _ entrance).
  2:{ subst entrance.
      destruct (SimpleWaypoint.CheckJunction (graph W) fw) eqn:Hj; simpl; [done |].
      destruct (Hlook eq_refl) as [p ->]. reflexivity. }
  edestruct (purge_far_result W a (length (fw :: rest)) entrance h2 fw
               (set_track_traffic f1 (set_buffer_map <[a := fw :: rest]> s))
               (fw :: rest))
    as (k & f2 & Hk & Hrun2 & Hall & Hnear & Hfar).
  - simpl. apply lookup_insert_eq.
  - done.
  - by intros x [= <-].
  - exists entrance, k, (fun t => f2 (f1 t)).
    rewrite (bind_Ok _ _ _ _ _ Hrun2), set_buffer_twice. done.
Qed.

Lemma purge_buffer_result_witness :
  ∃ entrance k f,
    purge_buffer (Sample.world Sample.straight_road 15) 7 (mkLoc 15 0 0)
      (mkLoc 1 0 0) 400
      (Sample.stage (Some [0; 1; 2; 3; 4; 5; 6; 7; 8]%N) Sample.no_output)
    = Ok (entrance,
          set_track_traffic f
            (set_buffer_map <[7%N := take k [2; 3; 4; 5; 6; 7; 8]%N]>
               (Sample.stage (Some [0; 1; 2; 3; 4; 5; 6; 7; 8]%N) Sample.no_output)))
    ∧ entrance = false ∧ k = 3%nat.
Proof.
  destruct (purge_buffer_result (Sample.world Sample.straight_road 15) 7 400
              (Sample.stage (Some [0; 1; 2; 3; 4; 5; 6; 7; 8]%N) Sample.no_output)
              [0; 1; 2; 3; 4; 5; 6; 7; 8]%N 2%N [3; 4; 5; 6; 7; 8]%N)
    as (entrance & k & f & Hrun & He & Hk & _ & Hnear & Hfar);
    [reflexivity | reflexivity | by eexists |].
  exists entrance, k, f. split; [exact Hrun |]. split; [exact He |].
  change (entrance = false) in He. specialize (Hnear He). simpl in Hk.
  destruct (decide (k = 3%nat)) as [-> | Hne]; [done |]. exfalso.
  destruct (decide (k < 3)%nat) as [Hlt | Hge].
  - specialize (Hfar 3%nat 4%N). simpl in Hfar.
    assert (400 < 400)%Q as Habs by (apply Hfar; [lia | done]).
    by apply Qlt_irrefl in Habs.
  - assert (k = 4 ∨ k = 5 ∨ k = 6 ∨ k = 7)%nat as [-> | [-> | [-> | ->]]] by lia;
      (assert (400 < 400)%Q as Habs;
       [eapply Qlt_le_trans; [| apply (Hnear _ eq_refl)]; by vm_compute |
        by apply Qlt_irrefl in Habs]).
Defined.

(** X10. When the buffer of the actor is not empty, its front waypoint is
    within [MAX_START_DISTANCE] of the vehicle, and none of its waypoints
    is ahead of the vehicle any more, the purge of lines 64-72 empties the
    buffer and the [front()] of line 75 is taken of an empty buffer:
    [Update] faults, for any fuel. *)
Theorem Update_faults_when_all_waypoints_passed (W : World) (fuel index : nat)
    (a : ActorId) (s : Stage) (w : WaypointId) (b : Buffer) :
  vehicle_id_list W !! index = Some a →
  buffer_map s !! a = Some (w :: b) →
  Qgtb (DistanceSquared (SimpleWaypoint.GetLocation (graph W) w)
          (SimulationState.GetLocation (simulation_state W) a))
       (SQUARE (MAX_START_DISTANCE (constants W))) = false →
  drop_passed W a (w :: b) = [] →
  Update W fuel index s = Err EmptyContainer.
Proof.
  intros Ha Hb Hnear Hdrop. unfold Update.
  rewrite (bind_Ok _ _ _ _ _ (at_Ok _ _ _ _ Ha)).
  rewrite (bind_Ok _ _ _ _ _ (modify_Ok _ _)).
  assert (Hs0 : set_buffer_map
                  (fun m => match m !! a with
                            | Some _ => m
                            | None => <[a := []]> m
                            end) s = s).
  { destruct s. unfold set_buffer_map. simpl in *. by rewrite Hb. }
  rewrite Hs0.
  erewrite (bind_Ok (clear_stale_buffer _ _ _)).
  2:{ unfold clear_stale_buffer.
      rewrite (bind_Ok _ _ _ _ _ (buffer_at_Ok _ _ _ Hb)).
      by rewrite Hnear. }
  apply bind_Err. unfold purge_buffer.
  rewrite (bind_Ok _ _ _ _ _ (buffer_at_Ok _ _ _ Hb)).
  destruct (purge_passed_result W a (length (w :: b))
              (DeviationDotProduct W
                 (SimulationState.GetLocation (simulation_state W) a)
                 (SimulationState.GetHeading (simulation_state W) a)
                 (SimpleWaypoint.GetLocation (graph W) w)) s (w :: b) Hb)
    as [f1 Hrun1]; [done | by intros w' r [= <- <-] |].
  rewrite (bind_Ok _ _ _ _ _ Hrun1), Hdrop.
  erewrite bind_Ok by (apply buffer_at_Ok; simpl; apply lookup_insert_eq).
  reflexivity.
Qed.

Lemma Update_faults_when_all_waypoints_passed_witness :
  Update (Sample.world Sample.straight_road 25) 10 0
    (Sample.stage (Some [1; 2]%N) Sample.no_output) = Err EmptyContainer.
Proof.
  apply (Update_faults_when_all_waypoints_passed
           (Sample.world Sample.straight_road 25) 10 0 7%N
           (Sample.stage (Some [1; 2]%N) Sample.no_output) 1%N [2%N]);
    reflexivity.
Defined.

(** ** The lane change of [Update] *)

(** X11. The lane-change step of lines 97-140 does all or nothing.  Either
    it leaves the buffers, the registry and the lane-change memory as they
    are; or it replaces the buffer of the actor by one waypoint, a
    change-over point in a neighbour lane of the front waypoint, and
    records the vehicle location as that of the last lane change.  It does
    the latter only when the front waypoint is no junction waypoint and
    the last recorded lane change, if there is one, lies farther back than
    the inter-lane-change distance.  The output array and the junction
    tracking are not touched. *)
Theorem lane_change_all_or_nothing (W : World) (fuel : nat) (a : ActorId)
    (loc : Location) (speed : Q) (s s' : Stage) :
  lane_change W fuel a loc speed s = Ok (tt, s') →
  output_array s' = output_array s
  ∧ vehicles_at_junction s' = vehicles_at_junction s
  ∧ ((buffer_map s' = buffer_map s
      ∧ track_traffic s' = track_traffic s
      ∧ last_lane_change_location s' = last_lane_change_location s)
     ∨ (∃ fw rest neighbour k w,
          buffer_map s !! a = Some (fw :: rest)
          ∧ SimpleWaypoint.CheckJunction (graph W) fw = false
          ∧ (∀ l, last_lane_change_location s !! a = Some l →
               (SQUARE (MAX (10 * speed) (INTER_LANE_CHANGE_DISTANCE (constants W)))
                < DistanceSquared l loc)%Q)
          ∧ (SimpleWaypoint.GetLeftWaypoint (graph W) fw = Some neighbour
             ∨ SimpleWaypoint.GetRightWaypoint (graph W) fw = Some neighbour)
          ∧ nth_successor (graph W) k neighbour = Some w
          ∧ buffer_map s' = <[a := [w]]> (buffer_map s)
          ∧ last_lane_change_location s'
            = <[a := loc]> (last_lane_change_location s))).
Proof.
  intros H. unfold lane_change in H.
  apply bind_Ok_inv in H as (request & s1 & Hreq & H).
  assert (∃ g, s1 = set_rand_calls g s) as [g ->].
  { destruct (negb _); [| unfold ret in Hreq; simplify_eq; exists (fun c => c); by destruct s1].
    destruct (Qleb 0 _);
      [| unfold ret in Hreq; simplify_eq; exists (fun c => c); by destruct s1].
    apply bind_Ok_inv in Hreq as (r & s0 & Hr & Hreq).
    unfold rand in Hr. injection Hr as <- <-.
    destruct (Qleb _ _); unfold ret in Hreq; simplify_eq; by exists S. }
  apply bind_Ok_inv in H as (b & s1 & Hb & H).
  apply buffer_at_Ok_inv in Hb as [Hb ->].
  apply bind_Ok_inv in H as (fw & s1 & Hfw & H).
  apply front_Ok_inv in Hfw as [Hfw ->].
  apply bind_Ok_inv in H as (memory & s1 & Hm & H).
  unfold gets in Hm. injection Hm as <- <-. simpl in Hb, H.
  destruct b as [|fw' rest]; [discriminate |]. injection Hfw as ->.
  destruct (_ && _) eqn:Hgate;
    [| unfold ret in H; simplify_eq; split; [done |]; split; [done |]; by left].
  apply andb_true_iff in Hgate as [Hgate Hfar].
  apply andb_true_iff in Hgate as [_ Hjunction].
  apply negb_true_iff in Hjunction.
  apply bind_Ok_inv in H as (cop & s1 & Hcop & H).
  pose proof (AssignLaneChange_preserves_stage W _ _ _ _ _ _ _ _ _ Hcop) as Hs1.
  unfold id in Hs1. subst s1.
  destruct cop as [w|];
    [| unfold ret in H; simplify_eq; split; [done |]; split; [done |]; by left].
  apply AssignLaneChange_Some_inv in Hcop as (fw0 & rest0 & neighbour & Hb0 & Hside & Hadv).
  simpl in Hb0. rewrite Hb in Hb0. injection Hb0 as <- <-.
  apply advance_change_over_stops in Hadv as (k & _ & Hnth & _).
  rewrite (bind_Ok _ _ _ _ _ (modify_Ok _ _)) in H.
  erewrite bind_Ok in H by (apply buffer_at_Ok; simpl; exact Hb).
  erewrite bind_Ok in H by (apply pop_all_Ok; simpl; exact Hb).
  apply PushWaypoint_Ok_inv in H as (w' & b' & [= <-] & Hb' & ->).
  simpl in Hb'. rewrite lookup_insert_eq in Hb'. injection Hb' as <-.
  simpl. split; [done |]. split; [done |]. right.
  exists fw, rest, neighbour, k, w.
  split; [done |]. split; [done |]. split.
  - intros l Hl. rewrite Hl in Hfar. by apply Qltb_true in Hfar.
  - split; [done |]. split; [done |]. split; [apply insert_insert_eq | done].
Qed.

Lemma lane_change_all_or_nothing_witness :
  ∃ s', lane_change (Sample.world_with (true, true) Sample.right_lane_road 0) 5 7%N
          (mkLoc 0 0 0) 20 (Sample.stage (Some [0; 1; 2]%N) Sample.no_output)
        = Ok (tt, s')
    ∧ output_array s' = [Sample.no_output]
    ∧ vehicles_at_junction s' = ∅.
Proof.
  assert (∃ s', lane_change (Sample.world_with (true, true) Sample.right_lane_road 0)
                  5 7%N (mkLoc 0 0 0) 20
                  (Sample.stage (Some [0; 1; 2]%N) Sample.no_output) = Ok (tt, s'))
    as [s' E] by (eexists; vm_compute; reflexivity).
  exists s'. split; [exact E |].
  destruct (lane_change_all_or_nothing _ _ _ _ _ _ _ E) as (Hout & Hjunction & _).
  by rewrite Hout, Hjunction.
Defined.

(** ** The scan of the blocking vehicles *)

Section ObstacleScanning.
Context (W : World) (loc : Location) (cur : WaypointId).

Lemma scan_inv_too_close s seen seen' acc acc' :
  scan_inv W loc cur s seen acc →
  obstacle_too_close acc' = true →
  obstacle_actor_id acc' = obstacle_actor_id acc →
  minimum_squared_distance acc' = minimum_squared_distance acc →
  (∀ x, x ∈ seen → x ∈ seen') →
  scan_inv W loc cur s seen' acc'.
Proof.
  intros [Hid _] Hclose Heq Hmin Hsub. split; [| by rewrite Hclose].
  rewrite Heq, Hmin. intros Hne. destruct (Hid Hne) as [Hin Hrest].
  split; [by apply Hsub | done].
Qed.

Lemma scan_inv_skip s seen o acc :
  scan_inv W loc cur s seen acc →
  (∀ ow r, buffer_map s !! o = Some (ow :: r) →
     in_lane_obstacle W cur ow = true →
     (SQUARE (MINIMUM_LANE_CHANGE_DISTANCE (constants W))
      < obstacle_distance W loc ow)%Q
     ∧ ((obstacle_distance W loc ow
         < SQUARE (MAXIMUM_LANE_OBSTACLE_DISTANCE (constants W)))%Q →
        ∃ m, minimum_squared_distance acc = Some m
             ∧ (m <= obstacle_distance W loc ow)%Q)) →
  scan_inv W loc cur s (seen ++ [o]) acc.
Proof.
  intros [Hid Hall] Ho. split.
  - intros Hne. destruct (Hid Hne) as [Hin Hrest].
    split; [apply elem_of_app; by left | done].
  - intros Hclose o' ow r Hin Hb Hobs.
    apply elem_of_app in Hin as [Hin | Hin].
    + by eapply Hall.
    + apply list_elem_of_singleton in Hin as ->. by eapply Ho.
Qed.

Lemma check_blocking_vehicle_inv o acc s acc' s' seen :
  check_blocking_vehicle W loc cur o acc s = Ok (acc', s') →
  scan_inv W loc cur s seen acc →
  s' = s ∧ scan_inv W loc cur s (seen ++ [o]) acc'.
Proof.
  intros H HI. unfold check_blocking_vehicle in H.
  apply bind_Ok_inv in H as (bm & s1 & Hbm & H).
  unfold gets in Hbm. injection Hbm as <- <-.
  destruct (buffer_map s !! o) as [[|ow r]|] eqn:Ho;
    try (unfold ret in H; injection H as <- <-; split; [done |];
         apply scan_inv_skip; [done | intros; congruence]).
  fold (in_lane_obstacle W cur ow) in H.
  fold (obstacle_distance W loc ow) in H.
  destruct (in_lane_obstacle W cur ow) eqn:Hobs.
  2:{ unfold ret in H. injection H as <- <-. split; [done |].
      apply scan_inv_skip; [done |]. intros ow' r' Hb. simplify_eq. congruence. }
  destruct (Qgtb _ _) eqn:Hmin.
  2:{ unfold ret in H. injection H as <- <-. split; [done |].
      eapply scan_inv_too_close; [exact HI | done.. |];
        intros x Hx; apply elem_of_app; by left. }
  apply Qltb_true in Hmin.
  destruct (_ && _) eqn:Hc.
  - unfold ret in H. injection H as <- <-. split; [done |].
    apply andb_true_iff in Hc as [Hnearer Hmax]. apply Qltb_true in Hmax.
    destruct HI as [Hid Hall]. split; simpl.
    + intros _. split; [apply elem_of_app; right; apply list_elem_of_here |].
      by exists ow, r.
    + intros Hclose o' ow' r' Hin Hb' Hobs'.
      apply elem_of_app in Hin as [Hin | Hin].
      * destruct (Hall Hclose o' ow' r' Hin Hb' Hobs') as [Hmin' Hmax'].
        split; [done |]. intros Hlt. destruct (Hmax' Hlt) as (m & Hm & Hle).
        rewrite Hm in Hnearer. apply Qltb_true in Hnearer.
        eexists. split; [done |].
        apply Qlt_le_weak. eapply Qlt_le_trans; [exact Hnearer | exact Hle].
      * apply list_elem_of_singleton in Hin as ->. simplify_eq.
        split; [done |]. intros _. eexists. split; [done | apply Qle_refl].
  - unfold ret in H. injection H as <- <-. split; [done |].
    apply scan_inv_skip; [done |]. intros ow' r' Hb' _. simplify_eq.
    split; [done |]. intros Hmax. apply Qltb_true in Hmax.
    rewrite Hmax, andb_true_r in Hc.
    destruct (minimum_squared_distance acc) as [m|]; [| discriminate].
    apply Qltb_false in Hc. by exists m.
Qed.

Lemma scan_blocking_vehicles_inv l acc s acc' s' seen :
  scan_blocking_vehicles W false loc cur l acc s = Ok (acc', s') →
  scan_inv W loc cur s seen acc →
  s' = s ∧ scan_inv W loc cur s (seen ++ l) acc'.
Proof.
  revert acc seen. induction l as [|o l IH]; intros acc seen H HI; simpl in H.
  - unfold ret in H. injection H as <- <-. by rewrite app_nil_r.
  - rewrite andb_true_r in H. destruct (obstacle_too_close acc) eqn:Hclose; simpl in H.
    + unfold ret in H. injection H as <- <-. split; [done |].
      eapply scan_inv_too_close; [exact HI | done.. |];
        intros x Hx; apply elem_of_app; by left.
    + apply bind_Ok_inv in H as (acc1 & s1 & H1 & H).
      eapply check_blocking_vehicle_inv in H1 as [-> HI1]; [| exact HI].
      apply IH with (seen := seen ++ [o]) in H; [| done].
      by rewrite <- app_assoc in H.
Qed.

End ObstacleScanning.

Section UnforcedLaneChange.
Context (W : World).

Lemma check_blocking_vehicle_total loc cur o acc s :
  ∃ acc', check_blocking_vehicle W loc cur o acc s = Ok (acc', s).
Proof.
  unfold check_blocking_vehicle, gets, bind.
  destruct (buffer_map s !! o) as [[|ow r]|]; try by eexists.
  repeat (match goal with |- context [if ?c then _ else _] => destruct c end);
    by eexists.
Qed.

Lemma scan_blocking_vehicles_total force loc cur l acc s :
  ∃ acc', scan_blocking_vehicles W force loc cur l acc s = Ok (acc', s).
Proof.
  revert acc. induction l as [|o l IH]; intros acc; simpl; [by eexists |].
  destruct (_ && _); [| by eexists].
  destruct (check_blocking_vehicle_total loc cur o acc s) as [acc1 H1].
  rewrite (bind_Ok _ _ _ _ _ H1). apply IH.
Qed.

Lemma scan_inv_start loc cur s :
  scan_inv W loc cur s []
    {| obstacle_too_close := false; minimum_squared_distance := None;
       obstacle_actor_id := 0%N |}.
Proof.
  split; simpl; [done |]. intros _ o ow r Hin. by apply elem_of_nil in Hin.
Qed.

Lemma lane_free_Ok_inv p s free s' :
  lane_free p s = Ok (free, s') →
  s' = s
  ∧ (free = true →
     ∃ w, p = Some w
          ∧ size (TrackTrafficOps.GetPassingVehicles w (track_traffic s)) = 0%nat).
Proof.
  unfold lane_free. destruct p as [w|]; unfold gets, bind, ret; intros H;
    simplify_eq; (split; [done |]); [| done].
  intros Hfree. apply bool_decide_eq_true in Hfree. by exists w.
Qed.

(** Without force the side is chosen at lines 344-384 only where both the
    lane beside the obstacle and the lane beside the vehicle are free. *)
Lemma choose_change_over_point_unforced direction scan left right s start s' :
  choose_change_over_point W false direction scan left right s = Ok (Some start, s') →
  obstacle_too_close scan = false
  ∧ obstacle_actor_id scan ≠ 0%N
  ∧ ∃ other_current_waypoint other_rest beside,
      buffer_map s !! obstacle_actor_id scan
      = Some (other_current_waypoint :: other_rest)
      ∧ size (TrackTrafficOps.GetPassingVehicles start (track_traffic s)) = 0%nat
      ∧ size (TrackTrafficOps.GetPassingVehicles beside (track_traffic s)) = 0%nat
      ∧ ((right = Some start
          ∧ SimpleWaypoint.GetRightWaypoint (graph W) other_current_waypoint
            = Some beside)
         ∨ (left = Some start
            ∧ SimpleWaypoint.GetLeftWaypoint (graph W) other_current_waypoint
              = Some beside)).
Proof.
  intros H. unfold choose_change_over_point in H.
  rewrite andb_true_r in H.
  destruct (obstacle_too_close scan); simpl in H; [unfold ret in H; by simplify_eq |].
  destruct (bool_decide (obstacle_actor_id scan = 0%N)) eqn:Hid; simpl in H;
    [unfold ret in H; by simplify_eq |].
  apply bool_decide_eq_false in Hid.
  split; [done |]. split; [done |].
  apply bind_Ok_inv in H as (ob & s1 & Hob & H).
  apply buffer_at_Ok_inv in Hob as [Hob ->].
  apply bind_Ok_inv in H as (ow & s1 & How & H).
  apply front_Ok_inv in How as [How ->].
  destruct ob as [|ow' orest]; [discriminate |]. injection How as ->.
  apply bind_Ok_inv in H as (dl & s1 & Hdl & H).
  apply lane_free_Ok_inv in Hdl as [-> Hdl].
  apply bind_Ok_inv in H as (dr & s1 & Hdr & H).
  apply lane_free_Ok_inv in Hdr as [-> Hdr].
  apply bind_Ok_inv in H as (rf & s1 & Hrf & H).
  apply lane_free_Ok_inv in Hrf as [-> Hrf].
  apply bind_Ok_inv in H as (lf & s1 & Hlf & H).
  apply lane_free_Ok_inv in Hlf as [-> Hlf].
  exists ow, orest.
  destruct (dr && rf) eqn:Hright.
  - apply andb_true_iff in Hright as [-> ->].
    destruct (Hdr eq_refl) as (beside & Hbeside & Hfree).
    destruct (Hrf eq_refl) as (w & -> & Hwfree).
    unfold ret in H. injection H as <- <-. exists beside.
    split; [done |]. split; [done |]. split; [done |]. left. by split.
  - destruct (dl && lf) eqn:Hleft; [| unfold ret in H; by simplify_eq].
    apply andb_true_iff in Hleft as [-> ->].
    destruct (Hdl eq_refl) as (beside & Hbeside & Hfree).
    destruct (Hlf eq_refl) as (w & -> & Hwfree).
    unfold ret in H. injection H as <- <-. exists beside.
    split; [done |]. split; [done |]. split; [done |]. right. by split.
Qed.

End UnforcedLaneChange.

(** X12. A lane change that is not forced is never assigned while a
    vehicle ahead in the same lane is too close: if one of the overlapping
    vehicles has its front waypoint ahead in the lane of the vehicle, at
    most [MINIMUM_LANE_CHANGE_DISTANCE] away, [AssignLaneChange] returns
    no change-over point, whatever the order in which the overlapping
    vehicles are visited and whatever the other vehicles are. *)
Theorem AssignLaneChange_aborts_when_too_close (W : World) (fuel : nat)
    (a : ActorId) (loc : Location) (speed : Q) (direction : bool) (s : Stage)
    (cur : WaypointId) (rest : Buffer) (o : ActorId) (ow : WaypointId)
    (orest : Buffer) :
  buffer_map s !! a = Some (cur :: rest) →
  o ∈ TrackTrafficOps.GetOverlappingVehicles a (track_traffic s) →
  buffer_map s !! o = Some (ow :: orest) →
  in_lane_obstacle W cur ow = true →
  (obstacle_distance W loc ow
   <= SQUARE (MINIMUM_LANE_CHANGE_DISTANCE (constants W)))%Q →
  AssignLaneChange W fuel a loc speed false direction s = Ok (None, s).
Proof.
  intros Hb Ho Hob Hobs Hclose. unfold AssignLaneChange.
  rewrite (bind_Ok _ _ _ _ _ (buffer_at_Ok _ _ _ Hb)).
  unfold gets at 1. unfold bind at 1.
  destruct (scan_blocking_vehicles_total W false loc cur
              (elements (TrackTrafficOps.GetOverlappingVehicles a (track_traffic s)))
              {| obstacle_too_close := false; minimum_squared_distance := None;
                 obstacle_actor_id := 0%N |} s) as [scan Hscan].
  rewrite (bind_Ok _ _ _ _ _ Hscan).
  destruct (scan_blocking_vehicles_inv W loc cur _ _ _ _ _ [] Hscan
              (scan_inv_start W loc cur s)) as [_ [_ Hall]].
  assert (obstacle_too_close scan = true) as Htoo.
  { destruct (obstacle_too_close scan) eqn:E; [done |]. exfalso.
    destruct (Hall eq_refl o ow orest) as [Hfar _]; [| done | done |].
    - simpl. by apply elem_of_elements.
    - by apply Qlt_not_le in Hfar. }
  unfold choose_change_over_point. rewrite Htoo. reflexivity.
Qed.

Lemma AssignLaneChange_aborts_when_too_close_witness :
  AssignLaneChange (Sample.world two_lane_road 0) 5 7%N (mkLoc 0 0 0) 0 false true
    (shared_cell_stage [0; 1]%N [1; 2]%N)
  = Ok (None, shared_cell_stage [0; 1]%N [1; 2]%N).
Proof.
  apply (AssignLaneChange_aborts_when_too_close (Sample.world two_lane_road 0) 5
           7%N (mkLoc 0 0 0) 0 true (shared_cell_stage [0; 1]%N [1; 2]%N)
           0%N [1%N] 8%N 1%N [2%N]);
    [reflexivity | | reflexivity | reflexivity | by vm_compute].
  refine (bool_decide_unpack _ _). by vm_compute.
Defined.

(** X13. A lane change that is not forced is assigned only behind an
    obstacle and into free lanes.  When [AssignLaneChange], not forced,
    returns a change-over point, one of the overlapping vehicles, with an
    id other than 0, has its front waypoint ahead in the lane of the
    vehicle, beyond [MINIMUM_LANE_CHANGE_DISTANCE] and within
    [MAXIMUM_LANE_OBSTACLE_DISTANCE]; no in-lane vehicle ahead is nearer
    than it or within the minimum distance; the neighbour waypoint the
    change starts from, and the neighbour on the same side of the
    obstacle, have no passing vehicle; and the point returned is reached
    from that neighbour along first successors. *)
Theorem AssignLaneChange_unforced_sound (W : World) (fuel : nat) (a : ActorId)
    (loc : Location) (speed : Q) (direction : bool) (s s' : Stage) (w : WaypointId) :
  AssignLaneChange W fuel a loc speed false direction s = Ok (Some w, s') →
  ∃ cur rest o ow orest start beside k,
    buffer_map s !! a = Some (cur :: rest)
    ∧ o ≠ 0%N
    ∧ o ∈ TrackTrafficOps.GetOverlappingVehicles a (track_traffic s)
    ∧ buffer_map s !! o = Some (ow :: orest)
    ∧ in_lane_obstacle W cur ow = true
    ∧ (SQUARE (MINIMUM_LANE_CHANGE_DISTANCE (constants W))
       < obstacle_distance W loc ow)%Q
    ∧ (obstacle_distance W loc ow
       < SQUARE (MAXIMUM_LANE_OBSTACLE_DISTANCE (constants W)))%Q
    ∧ (∀ o' ow' r',
         o' ∈ TrackTrafficOps.GetOverlappingVehicles a (track_traffic s) →
         buffer_map s !! o' = Some (ow' :: r') →
         in_lane_obstacle W cur ow' = true →
         (SQUARE (MINIMUM_LANE_CHANGE_DISTANCE (constants W))
          < obstacle_distance W loc ow')%Q
         ∧ (obstacle_distance W loc ow <= obstacle_distance W loc ow')%Q)
    ∧ size (TrackTrafficOps.GetPassingVehicles start (track_traffic s)) = 0%nat
    ∧ size (TrackTrafficOps.GetPassingVehicles beside (track_traffic s)) = 0%nat
    ∧ ((SimpleWaypoint.GetRightWaypoint (graph W) cur = Some start
        ∧ SimpleWaypoint.GetRightWaypoint (graph W) ow = Some beside)
       ∨ (SimpleWaypoint.GetLeftWaypoint (graph W) cur = Some start
          ∧ SimpleWaypoint.GetLeftWaypoint (graph W) ow = Some beside))
    ∧ nth_successor (graph W) k start = Some w.
Proof.
  intros H. unfold AssignLaneChange in H.
  apply bind_Ok_inv in H as (b & s1 & Hb & H).
  apply buffer_at_Ok_inv in Hb as [Hb ->].
  destruct b as [|cur rest]; [unfold ret in H; by simplify_eq |].
  apply bind_Ok_inv in H as (tt & s1 & Htt & H).
  unfold gets in Htt. injection Htt as <- <-.
  apply bind_Ok_inv in H as (scan & s1 & Hscan & H).
  destruct (scan_blocking_vehicles_inv W loc cur _ _ _ _ _ [] Hscan
              (scan_inv_start W loc cur s)) as [-> [Hid Hall]].
  apply bind_Ok_inv in H as (cop & s1 & Hcop & H).
  destruct cop as [start|]; [| unfold ret in H; by simplify_eq].
  pose proof (choose_change_over_point_read_only W _ _ _ _ _ _ _ _ Hcop) as Hs1.
  unfold id in Hs1. subst s1.
  apply choose_change_over_point_unforced in Hcop
    as (Hclose & Hne & ow & orest & beside & Hob & Hstart & Hbeside & Hside).
  apply bind_Ok_inv in H as (w' & s1 & Hadv & H).
  unfold ret in H. injection H as <- <-.
  apply advance_change_over_stops in Hadv as (k & _ & Hnth & _).
  destruct (Hid Hne) as (Hin & ow0 & r0 & Hob0 & Hobs & Hmin & Hfar & Hnear).
  rewrite Hob in Hob0. injection Hob0 as <- <-.
  simpl in Hin. apply elem_of_elements in Hin.
  exists cur, rest, (obstacle_actor_id scan), ow, orest, start, beside, k.
  do 7 (split; [done |]). split; [| done].
  intros o' ow' r' Hin' Hb' Hobs'.
  destruct (Hall Hclose o' ow' r') as [Hfar' Hnear']; [| done | done |].
  { simpl. by apply elem_of_elements. }
  split; [done |].
  destruct (Qlt_le_dec (obstacle_distance W loc ow')
              (SQUARE (MAXIMUM_LANE_OBSTACLE_DISTANCE (constants W))))
    as [Hlt | Hge].
  - destruct (Hnear' Hlt) as (m & Hm & Hle). rewrite Hmin in Hm. by simplify_eq.
  - apply Qlt_le_weak. by eapply Qlt_le_trans.
Qed.

Lemma AssignLaneChange_unforced_sound_witness :
  ∃ cur rest o ow orest start beside k,
    buffer_map (shared_cell_stage [0; 1]%N [3; 4]%N) !! 7%N = Some (cur :: rest)
    ∧ o = 8%N ∧ ow = 3%N ∧ orest = [4%N] ∧ start = 100%N
    ∧ SimpleWaypoint.GetRightWaypoint two_lane_road ow = Some beside
    ∧ nth_successor two_lane_road k start = Some 101%N.
Proof.
  destruct (AssignLaneChange_unforced_sound (Sample.world two_lane_road 0) 5 7%N
              (mkLoc 0 0 0) 0 true (shared_cell_stage [0; 1]%N [3; 4]%N)
              (shared_cell_stage [0; 1]%N [3; 4]%N) 101%N)
    as (cur & rest & o & ow & orest & start & beside & k & Hb & Hne & Hin & Hob
        & Hobs & _ & _ & _ & _ & _ & Hside & Hnth);
    [by vm_compute |].
  injection Hb as <- <-.
  assert (o = 8%N ∧ ow = 3%N ∧ orest = [4%N]) as (-> & -> & ->).
  { assert (o = 7%N ∨ o = 8%N) as [-> | ->].
    - revert Hin. unfold TrackTrafficOps.GetOverlappingVehicles. simpl.
      rewrite lookup_singleton_eq, elements_singleton. simpl.
      rewrite lookup_singleton_eq. simpl. set_unfold. tauto.
    - injection Hob as <- <-. discriminate.
    - injection Hob as <- <-. done. }
  destruct Hside as [[Hstart Hbeside] | [Hstart _]]; [| discriminate].
  injection Hstart as <-.
  exists 0%N, [1%N], 8%N, 3%N, [4%N], 100%N, beside, k. done.
Defined.

(** ** The junction end and the safe point *)

Section SafePointSound.
Context (W : World) (safe2 : Q).

Lemma scan_sound_mono b b' st :
  (∀ x, x ∈ b → x ∈ b') → scan_sound W safe2 b st → scan_sound W safe2 b' st.
Proof.
  intros Hsub (Hcur & Hpast & Hfound). split; [| split].
  - intros c Hc. by apply Hsub, Hcur.
  - intros Hp. destruct (Hpast Hp) as (j & Hj & Hnj & Hin).
    exists j. split; [done |]. split; [done |]. by apply Hsub.
  - intros Hf. destruct (Hfound Hf) as (Hp & j & p & Hj & Hsp & Hin & Hsafe).
    split; [done |]. exists j, p. do 2 (split; [done |]).
    split; [by apply Hsub | done].
Qed.

Lemma scan_point_sound b wp st s st' s' :
  wp ∈ b → scan_sound W safe2 b st →
  scan_point W safe2 wp st s = Ok (st', s') →
  scan_sound W safe2 b st'.
Proof.
  intros Hin (Hcur & Hpast & Hfound) H. unfold scan_point in H.
  destruct st as [entered past found cur jend sp]; simpl in *.
  set (leaves := (entered || SimpleWaypoint.CheckJunction (graph W) wp)
                 && negb past
                 && negb (SimpleWaypoint.CheckJunction (graph W) wp)) in *.
  assert (Hjend : past || leaves = true →
            ∃ j, (if leaves then Some wp else jend) = Some j
                 ∧ SimpleWaypoint.CheckJunction (graph W) j = false ∧ j ∈ b).
  { intros Hp. destruct leaves eqn:Hl.
    - exists wp. split; [done |]. split; [| done].
      subst leaves. apply andb_true_iff in Hl as [_ Hl]. by apply negb_true_iff.
    - rewrite orb_false_r in Hp. by apply Hpast. }
  assert (Hold : found = true →
            past || leaves = true
            ∧ ∃ j p, (if leaves then Some wp else jend) = Some j ∧ sp = Some p
                ∧ p ∈ b
                ∧ ((safe2 < SimpleWaypoint.DistanceSquared (graph W) j p)%Q
                   ∨ (1 < length (SimpleWaypoint.GetNextWaypoint (graph W) p))%nat
                   ∨ SimpleWaypoint.CheckJunction (graph W) p = true)).
  { intros Hf. destruct (Hfound Hf) as (Hp & j & p & Hj & Hsp & Hpin & Hsafe).
    subst past. simpl. split; [done |].
    assert (leaves = false) as -> by (subst leaves; by rewrite andb_false_r).
    by exists j, p. }
  destruct (past || leaves) eqn:Hp'.
  - apply bind_Ok_inv in H as (j & s1 & Hj & H).
    apply deref_Ok_inv in Hj as [Hj ->].
    destruct (Qgtb _ _) eqn:Hd; unfold ret in H; injection H as <- <-;
      (split; [| split]); simpl; try done.
    + intros c [= <-]. done.
    + intros _. split; [done |]. exists j, wp. do 3 (split; [done |]).
      left. by apply Qltb_true in Hd.
    + intros c [= <-]. done.
  - unfold ret in H. injection H as <- <-. split; [| split]; simpl; try done.
    intros c [= <-]. done.
Qed.

Lemma scan_buffer_sound b l st s st' s' :
  (∀ wp, wp ∈ l → wp ∈ b) → scan_sound W safe2 b st →
  scan_buffer W safe2 l st s = Ok (st', s') →
  scan_sound W safe2 b st'.
Proof.
  revert st s. induction l as [|wp l IH]; intros st s Hl Hst H; simpl in H.
  - unfold ret in H. by simplify_eq.
  - destruct (negb (safe_point_found st)); [| unfold ret in H; by simplify_eq].
    apply bind_Ok_inv in H as (st1 & s1 & H1 & H).
    apply scan_point_sound with (b := b) in H1;
      [| apply Hl, list_elem_of_here | done].
    eapply IH; [| exact H1 | exact H].
    intros x Hx. by apply Hl, list_elem_of_further.
Qed.

Lemma extend_past_junction_sound fuel a st s st' s' b :
  extend_past_junction W fuel a st s = Ok (st', s') →
  buffer_map s !! a = Some b → scan_sound W safe2 b st →
  ∃ b', buffer_map s' !! a = Some b' ∧ scan_sound W safe2 b' st'
        ∧ past_junction st' = true
        ∧ safe_point_found st' = safe_point_found st.
Proof.
  revert st s b. induction fuel as [|n IH]; intros st s b H Hb Hst; simpl in H;
    destruct (past_junction st) eqn:Hpast; simpl in H;
    try (unfold ret in H; injection H as <- <-; by exists b);
    try discriminate.
  apply bind_Ok_inv in H as (cur & s1 & Hcur & H).
  apply deref_Ok_inv in Hcur as [Hcur ->].
  apply bind_Ok_inv in H as (next & s1 & Hnext & H).
  apply front_Ok_inv in Hnext as [Hnext ->].
  apply bind_Ok_inv in H as ([] & s1 & Hpush & H).
  apply PushWaypoint_Ok_inv in Hpush as (w & b0 & -> & Hb0 & ->).
  rewrite Hb in Hb0. injection Hb0 as <-.
  apply bind_Ok_inv in H as (w' & s1 & Hw & H).
  apply deref_Ok_inv in Hw as [[= <-] ->].
  apply IH with (b := b ++ [w]) in H; [| simpl; apply lookup_insert_eq |].
  - destruct H as (b' & Hb' & Hst' & Hp' & Hf'). by exists b'.
  - destruct Hst as (Hc & Hp & Hf). split; [| split]; simpl.
    + intros c [= <-]. apply elem_of_app. right. apply list_elem_of_here.
    + intros Hleaves. rewrite Hleaves. exists w. split; [done |].
      split; [by apply negb_true_iff |].
      apply elem_of_app. right. apply list_elem_of_here.
    + intros Hfound. destruct (Hf Hfound) as [Hp' _]. congruence.
Qed.

Lemma extend_to_safe_point_sound fuel a st s st' s' b :
  extend_to_safe_point W fuel a safe2 st s = Ok (st', s') →
  buffer_map s !! a = Some b → scan_sound W safe2 b st →
  past_junction st = true →
  ∃ b', buffer_map s' !! a = Some b' ∧ scan_sound W safe2 b' st'
        ∧ safe_point_found st' = true.
Proof.
  revert st s b. induction fuel as [|n IH]; intros st s b H Hb Hst Hpast;
    simpl in H; destruct (safe_point_found st) eqn:Hfound; simpl in H;
    try (unfold ret in H; injection H as <- <-; by exists b);
    try discriminate.
  apply bind_Ok_inv in H as (cur & s1 & Hcur & H).
  apply deref_Ok_inv in Hcur as [Hcur ->].
  apply bind_Ok_inv in H as (j & s1 & Hj & H).
  apply deref_Ok_inv in Hj as [Hj ->].
  destruct Hst as (Hc & Hp & Hf).
  destruct (_ || _) eqn:Hcond.
  - apply IH with (b := b) in H; [done | done | | done].
    split; [| split]; simpl; [by intros c [= <-]; apply Hc | done |].
    intros _. split; [done |]. exists j, cur. do 2 (split; [done |]).
    split; [by apply Hc |].
    apply orb_true_iff in Hcond as [Hcond | Hcond];
      [apply orb_true_iff in Hcond as [Hcond | Hcond] |].
    + left. by apply Qltb_true in Hcond.
    + right. left. by apply bool_decide_eq_true in Hcond.
    + right. by right.
  - apply bind_Ok_inv in H as (next & s1 & Hnext & H).
    apply front_Ok_inv in Hnext as [Hnext ->].
    apply bind_Ok_inv in H as ([] & s1 & Hpush & H).
    apply PushWaypoint_Ok_inv in Hpush as (w & b0 & -> & Hb0 & ->).
    rewrite Hb in Hb0. injection Hb0 as <-.
    apply IH with (b := b ++ [w]) in H;
      [done | simpl; apply lookup_insert_eq | | done].
    split; [| split]; simpl; [| | done].
    + intros c [= <-]. apply elem_of_app. right. apply list_elem_of_here.
    + intros Hp'. destruct (Hp Hp') as (j' & Hj' & Hnj & Hin).
      exists j'. do 2 (split; [done |]). apply elem_of_app. by left.
Qed.

End SafePointSound.

(** X14. What [Update] writes for a vehicle newly at a junction entrance
    (lines 171-238): the junction end point of the record is a waypoint of
    the buffer, as extended, that is no junction waypoint; the safe point
    is a waypoint of the buffer too, and it is farther from the junction
    end point than [SAFE_DISTANCE_AFTER_JUNCTION], or has more than one
    successor, or is a junction waypoint. *)
Theorem junction_extension_points (W : World) (fuel index : nat) (a : ActorId)
    (s s' : Stage) :
  a ∉ vehicles_at_junction s →
  junction_extension W fuel index a true s = Ok (tt, s') →
  ∃ j p b',
    output_array s' !! index
    = Some {| is_at_junction_entrance := true;
              junction_end_point := Some j;
              safe_point := Some p |}
    ∧ buffer_map s' !! a = Some b'
    ∧ j ∈ b' ∧ p ∈ b'
    ∧ SimpleWaypoint.CheckJunction (graph W) j = false
    ∧ ((SQUARE (SAFE_DISTANCE_AFTER_JUNCTION (constants W))
        < SimpleWaypoint.DistanceSquared (graph W) j p)%Q
       ∨ (1 < length (SimpleWaypoint.GetNextWaypoint (graph W) p))%nat
       ∨ SimpleWaypoint.CheckJunction (graph W) p = true).
Proof.
  intros Hnew H. unfold junction_extension in H.
  apply bind_Ok_inv in H as (tracked & s0 & Htr & H).
  unfold gets in Htr. injection Htr as <- <-.
  rewrite (bool_decide_eq_true_2 _ Hnew) in H. simpl in H.
  rewrite (bind_Ok _ _ _ _ _ (modify_Ok _ _)) in H.
  apply bind_Ok_inv in H as (b & s1 & Hb & H).
  apply buffer_at_Ok_inv in Hb as [Hb ->].
  apply bind_Ok_inv in H as (st1 & s1 & Hscan & H).
  pose proof (scan_buffer_read_only W _ _ _ _ _ _ Hscan) as Hs1.
  unfold id in Hs1. subst s1.
  apply scan_buffer_sound with (b := b) in Hscan; [| done |];
    [| split; [| split]; simpl; intros; discriminate].
  apply bind_Ok_inv in H as (st2 & s2 & Hext & H).
  assert (∃ b', buffer_map s2 !! a = Some b'
                ∧ scan_sound W (SQUARE (SAFE_DISTANCE_AFTER_JUNCTION (constants W)))
                    b' st2
                ∧ safe_point_found st2 = true) as (b' & Hb' & Hst2 & Hfound).
  { unfold extend_to_find_safe_point in Hext.
    destruct (safe_point_found st1) eqn:Hf; simpl in Hext.
    - unfold ret in Hext. injection Hext as <- <-. by exists b.
    - apply bind_Ok_inv in Hext as (st0 & s0 & Hpast & Hsafe).
      eapply extend_past_junction_sound in Hpast
        as (b0 & Hb0 & Hst0 & Hp0 & _); [| exact Hb | exact Hscan].
      eapply extend_to_safe_point_sound in Hsafe; [| exact Hb0 | exact Hst0 | exact Hp0].
      exact Hsafe. }
  apply write_output_Ok_inv in H as [Hlt ->].
  destruct Hst2 as (_ & Hpast & Hsp).
  destruct (Hsp Hfound) as (Hp & j & p & Hj & Hp' & Hpin & Hsafe).
  destruct (Hpast Hp) as (j' & Hj' & Hnj & Hjin).
  rewrite Hj in Hj'. injection Hj' as <-.
  exists j, p, b'. simpl. rewrite Hj, Hp'.
  split; [by apply list_lookup_insert_eq |]. done.
Qed.

Lemma junction_extension_points_witness :
  ∃ s' j p b',
    junction_extension (Sample.world Sample.junction_road 0) 10 0 7%N true
      (Sample.stage (Some [0; 1; 2; 3; 4; 5]%N) Sample.no_output) = Ok (tt, s')
    ∧ output_array s' !! 0%nat
      = Some {| is_at_junction_entrance := true;
                junction_end_point := Some j;
                safe_point := Some p |}
    ∧ buffer_map s' !! 7%N = Some b'
    ∧ j ∈ b' ∧ p ∈ b'.
Proof.
  assert (∃ s', junction_extension (Sample.world Sample.junction_road 0) 10 0 7%N true
                  (Sample.stage (Some [0; 1; 2; 3; 4; 5]%N) Sample.no_output)
                = Ok (tt, s')) as [s' E]
    by (eexists; vm_compute; reflexivity).
  destruct (junction_extension_points (Sample.world Sample.junction_road 0) 10 0
              7%N (Sample.stage (Some [0; 1; 2; 3; 4; 5]%N) Sample.no_output) s')
    as (j & p & b' & Hout & Hb' & Hj & Hp & _); [| exact E |].
  - simpl. apply not_elem_of_empty.
  - by exists s', j, p, b'.
Defined.

(** ** The random numbers drawn *)

Section RandomNumbers.
Context (W : World) (a : ActorId).

Lemma PushWaypoint_rand_calls p : preserves rand_calls (PushWaypoint a p).
Proof. unfold PushWaypoint. frame. Qed.

Lemma PopWaypoint_rand_calls fb : preserves rand_calls (PopWaypoint a fb).
Proof. unfold PopWaypoint. frame. Qed.
Hint Resolve PushWaypoint_rand_calls PopWaypoint_rand_calls : frame.

Lemma pop_all_rand_calls n : preserves rand_calls (pop_all n a).
Proof. induction n; simpl; frame. Qed.
Hint Resolve pop_all_rand_calls : frame.

Lemma clear_stale_buffer_rand_calls loc :
  preserves rand_calls (clear_stale_buffer W a loc).
Proof. unfold clear_stale_buffer. frame. Qed.

Lemma purge_passed_rand_calls n loc h d :
  preserves rand_calls (purge_passed W n a loc h d).
Proof. revert d. induction n; intros d; simpl; frame. Qed.

Lemma purge_far_rand_calls n e h2 : preserves rand_calls (purge_far W n a e h2).
Proof. induction n; simpl; frame. Qed.
Hint Resolve clear_stale_buffer_rand_calls purge_passed_rand_calls
  purge_far_rand_calls : frame.

Lemma purge_buffer_rand_calls loc h h2 :
  preserves rand_calls (purge_buffer W a loc h h2).
Proof. unfold purge_buffer. frame. Qed.

Lemma initialize_buffer_rand_calls loc :
  preserves rand_calls (initialize_buffer W a loc).
Proof. unfold initialize_buffer. frame. Qed.

Lemma AssignLaneChange_rand_calls fuel loc speed force dir :
  preserves rand_calls (AssignLaneChange W fuel a loc speed force dir).
Proof. apply preserves_read_only, AssignLaneChange_preserves_stage. Qed.

Lemma scan_buffer_rand_calls safe2 l st :
  preserves rand_calls (scan_buffer W safe2 l st).
Proof. apply preserves_read_only, scan_buffer_read_only. Qed.

Lemma extend_past_junction_rand_calls fuel st :
  preserves rand_calls (extend_past_junction W fuel a st).
Proof. revert st. induction fuel; intros st; simpl; frame. Qed.

Lemma extend_to_safe_point_rand_calls fuel safe2 st :
  preserves rand_calls (extend_to_safe_point W fuel a safe2 st).
Proof. revert st. induction fuel; intros st; simpl; frame. Qed.
Hint Resolve purge_buffer_rand_calls initialize_buffer_rand_calls
  AssignLaneChange_rand_calls scan_buffer_rand_calls
  extend_past_junction_rand_calls extend_to_safe_point_rand_calls : frame.

Lemma junction_extension_rand_calls fuel index entrance :
  preserves rand_calls (junction_extension W fuel index a entrance).
Proof. unfold junction_extension, extend_to_find_safe_point, write_output. frame. Qed.

(** Line 105: no number is drawn for a forced change, nor with a negative
    keep-right percentage. *)
Lemma lane_change_rand_calls fuel loc speed :
  fst (Parameters.GetForceLaneChange (parameters W) a) = true
  ∨ (Parameters.GetKeepRightPercentage (parameters W) a < 0)%Q →
  preserves rand_calls (lane_change W fuel a loc speed).
Proof.
  intros Hno. unfold lane_change.
  assert ((if negb (fst (Parameters.GetForceLaneChange (parameters W) a)) then
             if Qleb 0 (Parameters.GetKeepRightPercentage (parameters W) a) then
               r <- rand W;;
               if Qleb (inject_Z (Z.of_N (r mod 101)))
                       (Parameters.GetKeepRightPercentage (parameters W) a)
               then ret (true, true)
               else ret (Parameters.GetForceLaneChange (parameters W) a)
             else ret (Parameters.GetForceLaneChange (parameters W) a)
           else ret (Parameters.GetForceLaneChange (parameters W) a))
          = ret (Parameters.GetForceLaneChange (parameters W) a)) as ->.
  { destruct Hno as [-> | Hneg]; [done |].
    apply Qleb_false in Hneg. rewrite Hneg. by destruct (negb _). }
  frame.
Qed.

(** Lines 149-152: no number is drawn where no waypoint has more than one
    successor. *)
Lemma populate_buffer_rand_calls fuel h2 :
  (∀ w, (length (SimpleWaypoint.GetNextWaypoint (graph W) w) ≤ 1)%nat) →
  preserves rand_calls (populate_buffer W fuel a h2).
Proof.
  intros Hone.
  assert (Hselect : ∀ w,
            preserves rand_calls
              (if bool_decide
                    (1 < length (SimpleWaypoint.GetNextWaypoint (graph W) w))%nat
               then r <- rand W;;
                    ret (N.to_nat
                           (r mod N.of_nat
                              (length (SimpleWaypoint.GetNextWaypoint (graph W) w))))
               else ret 0%nat)).
  { intros w. rewrite bool_decide_eq_false_2 by (specialize (Hone w); lia).
    apply preserves_ret. }
  induction fuel as [|n IH]; simpl;
    repeat (first [ apply Hselect | frame_step ]).
Qed.

End RandomNumbers.

(** X15. [Update] draws random numbers at two places only, the keep-right
    decision of line 105 and the choice among several successors of line
    151: for a vehicle whose lane change is forced or whose keep-right
    percentage is negative, on a road where no waypoint has more than one
    successor, an update draws none, and so does not depend on the random
    sequence. *)
Theorem Update_draws_no_random_number (W : World) (fuel index : nat) (a : ActorId)
    (s s' : Stage) :
  vehicle_id_list W !! index = Some a →
  fst (Parameters.GetForceLaneChange (parameters W) a) = true
  ∨ (Parameters.GetKeepRightPercentage (parameters W) a < 0)%Q →
  (∀ w, (length (SimpleWaypoint.GetNextWaypoint (graph W) w) ≤ 1)%nat) →
  Update W fuel index s = Ok (tt, s') →
  rand_calls s' = rand_calls s.
Proof.
  intros Ha Hno Hone H. unfold Update in H.
  rewrite (bind_Ok _ _ _ _ _ (at_Ok _ _ _ _ Ha)) in H.
  rewrite (bind_Ok _ _ _ _ _ (modify_Ok _ _)) in H.
  lazymatch type of H with
  | ?m ?s0 = _ => assert (preserves rand_calls m) as Hm
  end.
  { unfold Update_from_lane_change.
    pose proof (lane_change_rand_calls W a fuel
                  (SimulationState.GetLocation (simulation_state W) a)
                  (SimulationState.GetSpeed (simulation_state W) a) Hno).
    pose proof (populate_buffer_rand_calls W a fuel
                  (horizon_square_of W
                     (SimulationState.GetSpeed (simulation_state W) a)) Hone).
    pose proof (clear_stale_buffer_rand_calls W a).
    pose proof (purge_buffer_rand_calls W a).
    pose proof (initialize_buffer_rand_calls W a).
    pose proof (junction_extension_rand_calls W a).
    frame. }
  by rewrite (Hm _ _ _ H).
Qed.

Lemma Update_draws_no_random_number_witness :
  ∃ s', Update (Sample.world Sample.straight_road (-5)) 10 0 two_actor_stage
        = Ok (tt, s')
    ∧ rand_calls s' = 0%nat.
Proof.
  assert (∃ s', Update (Sample.world Sample.straight_road (-5)) 10 0 two_actor_stage
                = Ok (tt, s')) as [s' E]
    by (eexists; vm_compute; reflexivity).
  exists s'. split; [exact E |].
  apply (Update_draws_no_random_number (Sample.world Sample.straight_road (-5))
           10 0 7%N two_actor_stage s'); [reflexivity | | | exact E].
  - right. by vm_compute.
  - intros w. simpl. lia.
Defined.

(** ** The output flag and the junction tracking *)

(** X16. [Update] keeps the output record of the actor in step with the
    junction tracking: if, before the update, the record at the index of
    the actor says "at junction entrance" exactly when the actor is in the
    tracking set, it does so after the update. *)
Theorem Update_keeps_flag_in_step (W : World) (fuel index : nat) (a : ActorId)
    (s s' : Stage) (d : LocalizationData) :
  vehicle_id_list W !! index = Some a →
  Update W fuel index s = Ok (tt, s') →
  output_array s !! index = Some d →
  (is_at_junction_entrance d = true ↔ a ∈ vehicles_at_junction s) →
  ∃ d', output_array s' !! index = Some d'
        ∧ (is_at_junction_entrance d' = true ↔ a ∈ vehicles_at_junction s').
Proof.
  intros Hactor H Hd Hstep.
  apply Update_Ok_inv in H
    as (a0 & e & s1 & s2 & s3 & b3 & Ha & Hview & Hpop & Hjx & Hb3 & ->).
  rewrite Hactor in Ha. injection Ha as <-.
  apply populate_buffer_junction_view in Hpop.
  assert (Hv : junction_view s2 = junction_view s) by congruence.
  unfold junction_view in Hv. injection Hv as Hout Hvj. simpl.
  apply junction_extension_spec in Hjx
    as [(_ & Hnew & Hvj' & (j & p & Hout') & Hlt & _)
       |[(_ & Hold & Hvj' & Hout' & Hlt & _)|(_ & ->)]].
  - eexists. rewrite Hout', Hvj'.
    split; [by apply list_lookup_insert_eq |]. simpl.
    split; [intros _ | done].
    apply elem_of_union. right. by apply elem_of_singleton.
  - eexists. rewrite Hout', Hvj'.
    split; [by apply list_lookup_insert_eq |]. simpl.
    split; [done |].
    rewrite elem_of_difference, elem_of_singleton. by intros [_ Hn].
  - exists d. rewrite Hout, Hvj. done.
Qed.

Lemma Update_keeps_flag_in_step_witness :
  ∃ s' d', Update (Sample.world Sample.straight_road (-5)) 10 0 two_actor_stage
           = Ok (tt, s')
    ∧ output_array s' !! 0%nat = Some d'
    ∧ (is_at_junction_entrance d' = true ↔ 7%N ∈ vehicles_at_junction s').
Proof.
  assert (∃ s', Update (Sample.world Sample.straight_road (-5)) 10 0 two_actor_stage
                = Ok (tt, s')) as [s' E]
    by (eexists; vm_compute; reflexivity).
  destruct (Update_keeps_flag_in_step (Sample.world Sample.straight_road (-5))
              10 0 7%N two_actor_stage s' Sample.no_output eq_refl E eq_refl)
    as (d' & Hd' & Hstep).
  - simpl. split; [discriminate |].
    rewrite elem_of_singleton. discriminate.
  - by exists s', d'.
Defined.
